(** * simpleperf: the record file writer (record_file_writer.cpp)

    A shallow embedding of [RecordFileWriter]: the section bookkeeping,
    the splitting of oversized records, the per-cpu partition and merge of
    [SortDataSection], and the feature table protocol.

    Conventions of the embedding.
    - A C integer is a [Z]; arithmetic done by the program in a fixed width
      is wrapped explicitly ([wrap32], [wrap64]).
    - A [(pointer, length)] argument pair is the list of the [length] bytes
      stored at the pointer.
    - A stdio stream is its byte contents and its position ([FILE]); the
      scratch buffers handed to [ReadRecordFromFile] only provide room for the
      bytes just read and are not represented.
    - Every libc call that can fail for reasons outside the program takes its
      outcome from [io_faults], the list of faults the environment is going
      to inject ([true]: this call fails); an empty list injects none.
    - A method is a function from the writer to an [outcome]: it returns, or
      a CHECK aborts the process ([Fatal]). Whether [record_fp_] is null
      matters to [Close] and the destructor only, which end the life of the
      stream: they take and return it as a flag. *)

From Stdlib Require Import ZArith Lia String.
From Stdlib.Strings Require Import Byte.
From stdpp Require Import gmap list sorting.

Open Scope Z_scope.

(** ** Machine integers and their byte images *)

Definition wrap32 (z : Z) : Z := z mod 2 ^ 32.
Definition wrap64 (z : Z) : Z := z mod 2 ^ 64.

(** Conversion of a 64-bit unsigned value to [long] / [off_t]. *)
Definition to_long (z : Z) : Z :=
  if wrap64 z <? 2 ^ 63 then wrap64 z else wrap64 z - 2 ^ 64.

Definition byte_of_Z (z : Z) : byte :=
  default x00 (Byte.of_N (Z.to_N (z mod 256))).

(** The [n] low-order bytes of [z], least significant first (the targets of
    simpleperf are little-endian). *)
Fixpoint le_bytes (n : nat) (z : Z) : list byte :=
  match n with
  | O => []
  | S n' => byte_of_Z z :: le_bytes n' (z / 256)
  end.

Definition uint32_bytes (z : Z) : list byte := le_bytes 4 z.
Definition uint64_bytes (z : Z) : list byte := le_bytes 8 z.

(** ** stdio streams *)

Record FILE := mkFILE { f_data : list byte; f_pos : nat }.

(** What a successful [fwrite] of [buf] does to a stream: the bytes replace
    or extend the contents at the position (a gap left by a seek past the end
    reads as zeros), and the position moves behind them. *)
Definition file_write (f : FILE) (buf : list byte) : FILE :=
  {| f_data := take (f_pos f) (f_data f ++ replicate (f_pos f - length (f_data f)) x00)
               ++ buf ++ drop (f_pos f + length buf) (f_data f);
     f_pos := f_pos f + length buf |}.

(** The [n] bytes at the position, when the stream has that many left. *)
Definition file_read (f : FILE) (n : nat) : option (list byte * FILE) :=
  if decide (f_pos f + n <= length (f_data f))%nat
  then Some (take n (drop (f_pos f) (f_data f)),
             {| f_data := f_data f; f_pos := f_pos f + n |})
  else None.

(** ** External collaborators

    The record abstraction (record.h), the attribute capabilities
    (event_attr.h) and the file format constants (record_file_format.h) are
    used by the writer but defined elsewhere; they are parameters here. *)

Record RecordHeader := mkRecordHeader { h_type : Z; h_misc : Z; h_size : Z }.

Class RecordFormat := {
  perf_event_attr : Type;
  IsTimestampSupported : perf_event_attr -> bool;
  IsCpuSupported : perf_event_attr -> bool;
  (** the object representation of a [perf_event_attr] *)
  perf_event_attr_bytes : perf_event_attr -> list byte;
  (** [Record::header_size()] *)
  header_size : nat;
  (** [sizeof(perf_event_header)], and its [type] and [size] fields read
      from a buffer that starts with such a header *)
  sizeof_perf_event_header : nat;
  pheader_type : list byte -> Z;
  pheader_size : list byte -> Z;
  (** what [RecordHeader::MoveToBinaryFormat] stores at its argument *)
  MoveToBinaryFormat : RecordHeader -> list byte;
  (** [Record::Cpu()] and [Record::Timestamp()] of the record that
      [ReadRecordFromBuffer] builds, under an attribute, over given bytes *)
  record_cpu : perf_event_attr -> list byte -> Z;
  record_time : perf_event_attr -> list byte -> Z;
  SIMPLE_PERF_RECORD_TYPE_START : Z;
  SIMPLE_PERF_RECORD_SPLIT : Z;
  SIMPLE_PERF_RECORD_SPLIT_END : Z;
  sizeof_FileHeader : Z;
  FEAT_BUILD_ID : Z;
  FEAT_CMDLINE : Z;
  FEAT_BRANCH_STACK : Z;
}.

(** Modelled from the spec: utils.h, which defines [Align], is not among the
    sources; section 4.4 has the length "padded to a fixed alignment", that
    is rounded up to the next multiple of it. *)
Definition Align (value alignment : Z) : Z :=
  (value + alignment - 1) / alignment * alignment.

(** Modelled from the spec: record_file_format.h is not among the sources;
    a section descriptor is the pair [{offset, size}] of 64-bit fields that
    [WriteFeatureEnd] assigns. *)
Definition sizeof_SectionDesc : Z := 16.

Record SectionDesc := mkSectionDesc { offset : Z; size_ : Z }.

Definition SectionDesc_bytes (d : SectionDesc) : list byte :=
  uint64_bytes (offset d) ++ uint64_bytes (size_ d).

Section Writer.

Context `{RecordFormat}.

(** Modelled from the spec: record.h is not among the sources. Section 3
    has a record as "an opaque, self-describing unit with a type tag, a total
    byte size (header+payload)" whose "binary representation is owned by the
    record itself": a record is its binary image, [size()] is the length of
    the image and [type()] the tag in its header. *)
Record record := mkRecord { Binary : list byte }.

Definition size (r : record) : Z := Z.of_nat (length (Binary r)).
Definition type (r : record) : Z := pheader_type (Binary r).
Definition Cpu (attr : perf_event_attr) (r : record) : Z := record_cpu attr (Binary r).
Definition Timestamp (attr : perf_event_attr) (r : record) : Z := record_time attr (Binary r).

(** Modelled from the spec: [ReadRecordFromBuffer] (record.cpp) is not among
    the sources. The record it builds over a buffer is self-describing: it
    spans the number of bytes announced by the header at the start of the
    buffer. *)
Definition ReadRecordFromBuffer (attr : perf_event_attr) (ty : Z) (buf : list byte) : record :=
  mkRecord (take (Z.to_nat (pheader_size (take sizeof_perf_event_header buf))) buf).

Record EventAttrWithId := mkEventAttrWithId { attr : perf_event_attr; ids : list Z }.

(** ** The writer *)

Record RecordFileWriter := mkWriter {
  record_fp_ : FILE;
  attr_section_offset_ : Z;
  attr_section_size_ : Z;
  data_section_offset_ : Z;
  data_section_size_ : Z;
  event_attr_ : perf_event_attr;
  feature_count_ : Z;
  current_feature_index_ : Z;
  features_ : list Z;
  io_faults : list bool;
}.

Definition set_record_fp (f : FILE) (w : RecordFileWriter) : RecordFileWriter :=
  mkWriter f (attr_section_offset_ w) (attr_section_size_ w) (data_section_offset_ w)
    (data_section_size_ w) (event_attr_ w) (feature_count_ w) (current_feature_index_ w)
    (features_ w) (io_faults w).

Definition set_attr_section (aoff asize doff : Z) (a : perf_event_attr)
    (w : RecordFileWriter) : RecordFileWriter :=
  mkWriter (record_fp_ w) aoff asize doff (data_section_size_ w) a (feature_count_ w)
    (current_feature_index_ w) (features_ w) (io_faults w).

Definition set_data_section_size (n : Z) (w : RecordFileWriter) : RecordFileWriter :=
  mkWriter (record_fp_ w) (attr_section_offset_ w) (attr_section_size_ w)
    (data_section_offset_ w) n (event_attr_ w) (feature_count_ w)
    (current_feature_index_ w) (features_ w) (io_faults w).

Definition set_feature_table (count index : Z) (fs : list Z)
    (w : RecordFileWriter) : RecordFileWriter :=
  mkWriter (record_fp_ w) (attr_section_offset_ w) (attr_section_size_ w)
    (data_section_offset_ w) (data_section_size_ w) (event_attr_ w) count index fs
    (io_faults w).

Definition set_io_faults (l : list bool) (w : RecordFileWriter) : RecordFileWriter :=
  mkWriter (record_fp_ w) (attr_section_offset_ w) (attr_section_size_ w)
    (data_section_offset_ w) (data_section_size_ w) (event_attr_ w) (feature_count_ w)
    (current_feature_index_ w) (features_ w) l.

(** The constructor; [event_attr_] is not initialised by it and starts as
    whatever [a] is. *)
Definition RecordFileWriter_new (fp : FILE) (a : perf_event_attr) (env : list bool)
    : RecordFileWriter :=
  mkWriter fp 0 0 0 0 a 0 0 [] env.

(** ** Outcomes and sequencing *)

Inductive outcome (A : Type) : Type :=
| Ret (a : A) (w : RecordFileWriter)  (* the call returned [a] *)
| Fatal                               (* a CHECK failed *)
| OutOfFuel.                          (* a loop of the model ran out of steps *)
Arguments Ret {A}.
Arguments Fatal {A}.
Arguments OutOfFuel {A}.

Definition M (A : Type) : Type := RecordFileWriter -> outcome A.

#[global] Instance M_ret : MRet M := fun A a w => Ret a w.
#[global] Instance M_bind : MBind M := fun A B k m w =>
  match m w with
  | Ret a w' => k a w'
  | Fatal => Fatal
  | OutOfFuel => OutOfFuel
  end.

Definition get : M RecordFileWriter := fun w => Ret w w.
Definition modify (f : RecordFileWriter -> RecordFileWriter) : M unit :=
  fun w => Ret tt (f w).
Definition CHECK (b : bool) : M unit := fun w => if b then Ret tt w else Fatal.
Definition out_of_fuel {A} : M A := fun _ => OutOfFuel.

(** ** libc *)

(** The next fault of the environment. *)
Definition io_fault : M bool := fun w =>
  Ret (hd false (io_faults w)) (set_io_faults (tail (io_faults w)) w).

(** [fseek(f, offset, SEEK_SET)]: 0, or -1 when the environment fails the
    call or the offset is negative as a [long]. *)
Definition fseek (f : FILE) (offset : Z) : M (Z * FILE) :=
  bad ← io_fault;
  if bad || (to_long offset <? 0)
  then mret (-1, f)
  else mret (0, {| f_data := f_data f; f_pos := Z.to_nat (to_long offset) |}).

(** [fseek(f, 0, SEEK_END)] *)
Definition fseek_end (f : FILE) : M (Z * FILE) :=
  bad ← io_fault;
  if bad : bool
  then mret (-1, f)
  else mret (0, {| f_data := f_data f; f_pos := length (f_data f) |}).

(** [ftello(f)]: the position, or -1 when the environment fails the call or
    the position is no [off_t]. *)
Definition ftello (f : FILE) : M Z :=
  bad ← io_fault;
  if bad || (2 ^ 63 <=? Z.of_nat (f_pos f))
  then mret (-1)
  else mret (Z.of_nat (f_pos f)).

(** [fwrite(buf, len, 1, f)]: the number of items written, 1 or 0. An item
    of size zero is never written: the result is 0 and the stream is left as
    it was. *)
Definition fwrite (buf : list byte) (f : FILE) : M (Z * FILE) :=
  if decide (length buf = 0%nat) then mret (0, f)
  else
    bad ← io_fault;
    if bad : bool then mret (0, f) else mret (1, file_write f buf).

(** [fread(buf, len, 1, f)]: the number of items read, 1 or 0, and the bytes
    stored at [buf]. *)
Definition fread (len : nat) (f : FILE) : M (Z * list byte * FILE) :=
  if decide (len = 0%nat) then mret (0, [], f)
  else
    bad ← io_fault;
    if bad : bool then mret (0, [], f)
    else match file_read f len with
         | Some (bytes, f') => mret (1, bytes, f')
         | None => mret (0, [], f)
         end.

(** [fopen(path, "web+")] of a scratch file: a fresh empty stream, or
    [nullptr]. *)
Definition fopen_scratch : M (option FILE) :=
  bad ← io_fault;
  if bad : bool then mret None else mret (Some (mkFILE [] 0)).

(** ** Write, WriteData, WriteRecord *)

Definition Write (buf : list byte) : M bool :=
  w ← get;
  '(n, f) ← fwrite buf (record_fp_ w);
  modify (set_record_fp f);;
  if negb (n =? 1) then mret false else mret true.

Definition WriteData (buf : list byte) : M bool :=
  ok ← Write buf;
  if negb ok then mret false
  else
    modify (fun w => set_data_section_size
                       (wrap64 (data_section_size_ w + Z.of_nat (length buf))) w);;
    mret true.

Definition RECORD_SIZE_LIMIT : Z := 65535.

(** The [header_size()] bytes of [header_buf] after [header] has been moved
    into it. *)
Definition header_buf (header : RecordHeader) : list byte :=
  resize header_size x00 (MoveToBinaryFormat header).

(** The [while (left_bytes > 0)] loop of [WriteRecord]; [p] is what the
    pointer [p] points at. The result is [false] when the loop body returned
    [false] from [WriteRecord], [true] when the loop ran to its end. *)
Fixpoint WriteRecord_loop (fuel : nat) (p : list byte) (left_bytes : Z) : M bool :=
  if left_bytes >? 0 then
    match fuel with
    | O => out_of_fuel
    | S fuel' =>
        let bytes_to_write :=
          Z.min (wrap32 (RECORD_SIZE_LIMIT - Z.of_nat header_size)) left_bytes in
        let header :=
          mkRecordHeader SIMPLE_PERF_RECORD_SPLIT 0
            (wrap32 (bytes_to_write + Z.of_nat header_size)) in
        ok ← WriteData (header_buf header);
        if negb ok then mret false
        else
          ok ← WriteData (take (Z.to_nat bytes_to_write) p);
          if negb ok then mret false
          else WriteRecord_loop fuel' (drop (Z.to_nat bytes_to_write) p)
                 (wrap32 (left_bytes - bytes_to_write))
    end
  else mret true.

Definition WriteRecord (r : record) : M bool :=
  if size r <=? RECORD_SIZE_LIMIT then
    WriteData (Binary r);;
    mret true
  else
    CHECK (type r >? SIMPLE_PERF_RECORD_TYPE_START);;
    let left_bytes := wrap32 (size r) in
    ok ← WriteRecord_loop (S (Z.to_nat left_bytes)) (Binary r) left_bytes;
    if negb ok then mret false
    else
      WriteData (header_buf (mkRecordHeader SIMPLE_PERF_RECORD_SPLIT_END 0
                               (Z.of_nat header_size))).

(** ** ReadRecordFromFile, WriteRecordToFile *)

(** Runs a stdio call on [record_fp_]. *)
Definition on_record_fp {A} (call : FILE -> M (A * FILE)) : M A :=
  w ← get;
  '(a, f) ← call (record_fp_ w);
  modify (set_record_fp f);;
  mret a.

(** The result is the record, or [None] for [nullptr], and the stream as the
    reads left it. *)
Definition ReadRecordFromFile (f : FILE) : M (option record * FILE) :=
  '(n, pheader, f) ← fread sizeof_perf_event_header f;
  if negb (n =? 1) then mret (None, f)
  else if pheader_size pheader >? Z.of_nat sizeof_perf_event_header then
    '(n, payload, f) ←
      fread (Z.to_nat (pheader_size pheader - Z.of_nat sizeof_perf_event_header)) f;
    if negb (n =? 1) then mret (None, f)
    else
      w ← get;
      mret (Some (ReadRecordFromBuffer (event_attr_ w) (pheader_type pheader)
                    (pheader ++ payload)), f)
  else
    w ← get;
    mret (Some (ReadRecordFromBuffer (event_attr_ w) (pheader_type pheader) pheader), f).

Definition WriteRecordToFile (r : record) (f : FILE) : M (bool * FILE) :=
  '(n, f) ← fwrite (Binary r) f;
  if negb (n =? 1) then mret (false, f) else mret (true, f).

(** ** SortDataSection *)

(** Modelled from the spec: [RecordCache] (record.h, record.cpp) is not among
    the sources. Section 6 requires of the merge-ordering queue "insert-one,
    and remove and return the globally-minimum-timestamp item, or signal
    empty", and section 4.3 breaks ties by insertion order. The queue is the
    list of its records in insertion order. *)
Definition RecordCache := list record.

Definition Push (r : record) (cache : RecordCache) : RecordCache := cache ++ [r].

Fixpoint ForcedPop (attr : perf_event_attr) (cache : RecordCache)
    : option (record * RecordCache) :=
  match cache with
  | [] => None
  | r :: cache' =>
      match ForcedPop attr cache' with
      | None => Some (r, [])
      | Some (m, rest) =>
          if Timestamp attr m <? Timestamp attr r
          then Some (m, r :: rest)
          else Some (r, cache')
      end
  end.

(** The local [struct CpuData]: the scratch stream of a cpu and the number
    of its bytes not yet read back. *)
Record CpuData := mkCpuData { fp : FILE; data_size : Z }.

(** Phase 1, the [while (cur_size < data_section_size_)] loop: every record
    of the data section goes to the scratch file of its cpu. The boolean is
    [false] when the body returned [false] from [SortDataSection]. *)
Fixpoint partition_loop (fuel : nat) (cur_size : Z) (cpu_map : gmap Z CpuData)
    : M (bool * gmap Z CpuData) :=
  w ← get;
  if cur_size <? data_section_size_ w then
    match fuel with
    | O => out_of_fuel
    | S fuel' =>
        r ← on_record_fp ReadRecordFromFile;
        match r with
        | None => mret (false, cpu_map)
        | Some r =>
            let cur_size := wrap64 (cur_size + size r) in
            let cpu := Cpu (event_attr_ w) r in
            cpu_data ←
              match cpu_map !! cpu with
              | Some cpu_data => mret (Some cpu_data)
              | None =>
                  f ← fopen_scratch;
                  mret (match f with
                        | Some f => Some (mkCpuData f 0)
                        | None => None
                        end)
              end;
            match cpu_data with
            | None => mret (false, cpu_map)
            | Some cpu_data =>
                let data_size' := wrap64 (data_size cpu_data + size r) in
                '(ok, f) ← WriteRecordToFile r (fp cpu_data);
                let cpu_map := <[cpu := mkCpuData f data_size']> cpu_map in
                if negb ok then mret (false, cpu_map)
                else partition_loop fuel' cur_size cpu_map
            end
        end
    end
  else mret (true, cpu_map).

(** Phase 2, the loop over [cpu_map]: the first record of every scratch file
    enters the cache. [its] is the sequence of entries the iterator yields. *)
Fixpoint push_first_loop (its : list (Z * CpuData)) (cpu_map : gmap Z CpuData)
    (cache : RecordCache) : M (bool * gmap Z CpuData * RecordCache) :=
  match its with
  | [] => mret (true, cpu_map, cache)
  | (cpu, cpu_data) :: its' =>
      '(rc, f) ← fseek (fp cpu_data) 0;
      if rc =? -1 then mret (false, cpu_map, cache)
      else
        '(r, f) ← ReadRecordFromFile f;
        match r with
        | None => mret (false, cpu_map, cache)
        | Some r =>
            let cpu_data' := mkCpuData f (wrap64 (data_size cpu_data - size r)) in
            push_first_loop its' (<[cpu := cpu_data']> cpu_map) (Push r cache)
        end
  end.

(** Phase 2, the [while (true)] loop: the earliest record of the cache is
    written back and replaced by the next record of the same cpu. An absent
    entry of [cpu_map] would be a null [cpu_data], whose use ends the
    process. *)
Fixpoint merge_loop (fuel : nat) (cpu_map : gmap Z CpuData) (cache : RecordCache)
    : M bool :=
  w ← get;
  match ForcedPop (event_attr_ w) cache with
  | None => mret true
  | Some (r, cache) =>
      match fuel with
      | O => out_of_fuel
      | S fuel' =>
          let cpu := Cpu (event_attr_ w) r in
          ok ← on_record_fp (WriteRecordToFile r);
          if negb ok then mret false
          else
            match cpu_map !! cpu with
            | None => fun _ => Fatal
            | Some cpu_data =>
                if data_size cpu_data >? 0 then
                  '(r, f) ← ReadRecordFromFile (fp cpu_data);
                  match r with
                  | None => mret false
                  | Some r =>
                      let cpu_data' :=
                        mkCpuData f (wrap64 (data_size cpu_data - size r)) in
                      merge_loop fuel' (<[cpu := cpu_data']> cpu_map) (Push r cache)
                  end
                else merge_loop fuel' cpu_map cache
            end
      end
  end.

(** The bytes that the scratch files still have behind their positions:
    with the records in the cache, a bound on the records left to merge. *)
Definition scratch_unread (cpu_map : gmap Z CpuData) : nat :=
  sum_list_with (fun it => length (f_data (fp it.2)) - f_pos (fp it.2))%nat
    (map_to_list cpu_map).

Definition SortDataSection : M bool :=
  w ← get;
  if negb (IsTimestampSupported (event_attr_ w)) || negb (IsCpuSupported (event_attr_ w))
  then mret true
  else
    rc ← on_record_fp (fun f => fseek f (data_section_offset_ w));
    if rc =? -1 then mret false
    else
      w ← get;
      '(ok, cpu_map) ← partition_loop (S (length (f_data (record_fp_ w)))) 0 ∅;
      if negb ok then mret false
      else
        rc ← on_record_fp (fun f => fseek f (data_section_offset_ w));
        if rc =? -1 then mret false
        else
          '(ok, cpu_map, global_cache) ←
            push_first_loop (map_to_list cpu_map) cpu_map [];
          if negb ok then mret false
          else merge_loop (S (length global_cache + scratch_unread cpu_map))
                 cpu_map global_cache.

(** ** WriteAttrSection *)

(** The first loop of [WriteAttrSection]: the id arrays, one after the
    other. *)
Fixpoint write_ids (attr_ids : list EventAttrWithId) : M bool :=
  match attr_ids with
  | [] => mret true
  | attr_id :: rest =>
      ok ← Write (concat (uint64_bytes <$> ids attr_id));
      if negb ok then mret false else write_ids rest
  end.

(** Modelled from the spec: [FileAttr] (record_file_format.h) is not among
    the sources; by section 6 an attribute record is "the attribute
    configuration plus [{offset,size}] pointing into the id block". *)
Definition FileAttr_bytes (a : perf_event_attr) (ids : SectionDesc) : list byte :=
  perf_event_attr_bytes a ++ SectionDesc_bytes ids.

(** The second loop of [WriteAttrSection]: the attribute records. *)
Fixpoint write_file_attrs (attr_ids : list EventAttrWithId) (id_section_offset : Z)
    : M bool :=
  match attr_ids with
  | [] => mret true
  | attr_id :: rest =>
      let ids_size := wrap64 (Z.of_nat (length (ids attr_id)) * 8) in
      ok ← Write (FileAttr_bytes (attr attr_id) (mkSectionDesc id_section_offset ids_size));
      if negb ok then mret false
      else write_file_attrs rest (id_section_offset + ids_size)
  end.

Definition WriteAttrSection (attr_ids : list EventAttrWithId) : M bool :=
  match attr_ids with
  | [] => mret false
  | first :: _ =>
      rc ← on_record_fp (fun f => fseek f sizeof_FileHeader);
      if rc =? -1 then mret false
      else
        w ← get;
        id_section_offset ← ftello (record_fp_ w);
        if id_section_offset =? -1 then mret false
        else
          ok ← write_ids attr_ids;
          if negb ok then mret false
          else
            w ← get;
            attr_section_offset ← ftello (record_fp_ w);
            if attr_section_offset =? -1 then mret false
            else
              ok ← write_file_attrs attr_ids id_section_offset;
              if negb ok then mret false
              else
                w ← get;
                data_section_offset ← ftello (record_fp_ w);
                if data_section_offset =? -1 then mret false
                else
                  modify (set_attr_section
                            (wrap64 attr_section_offset)
                            (wrap64 (data_section_offset - attr_section_offset))
                            (wrap64 data_section_offset)
                            (attr first));;
                  mret true
  end.

(** ** The feature section *)

(** [None] is the result [false]; otherwise the value stored at
    [file_end]. *)
Definition SeekFileEnd : M (option Z) :=
  rc ← on_record_fp fseek_end;
  if rc =? -1 then mret None
  else
    w ← get;
    offset ← ftello (record_fp_ w);
    if offset =? -1 then mret None else mret (Some (wrap64 offset)).

Definition WriteFeatureHeader (feature_count : Z) : M bool :=
  modify (fun w => set_feature_table feature_count 0 (features_ w) w);;
  let feature_header_size := wrap64 (feature_count * sizeof_SectionDesc) in
  let zero_data := replicate (Z.to_nat feature_header_size) x00 in
  w ← get;
  rc ← on_record_fp
         (fun f => fseek f (wrap64 (data_section_offset_ w + data_section_size_ w)));
  if rc =? -1 then mret false else Write zero_data.

(** [None] is the result [false]; otherwise the value stored at
    [start_offset]. *)
Definition WriteFeatureBegin : M (option Z) :=
  w ← get;
  CHECK (current_feature_index_ w <? feature_count_ w);;
  SeekFileEnd.

Definition WriteFeatureEnd (feature : Z) (start_offset : Z) : M bool :=
  end_offset ← SeekFileEnd;
  match end_offset with
  | None => mret false
  | Some end_offset =>
      let desc := mkSectionDesc start_offset (wrap64 (end_offset - start_offset)) in
      w ← get;
      let feature_offset := wrap64 (data_section_offset_ w + data_section_size_ w) in
      rc ← on_record_fp
             (fun f => fseek f (wrap64 (feature_offset
                                        + current_feature_index_ w * sizeof_SectionDesc)));
      if rc =? -1 then mret false
      else
        ok ← Write (SectionDesc_bytes desc);
        if negb ok then mret false
        else
          modify (fun w => set_feature_table (feature_count_ w)
                             (wrap64 (current_feature_index_ w + 1))
                             (features_ w ++ [feature]) w);;
          mret true
  end.

(** The loop of [WriteBuildIdFeature]. *)
Fixpoint write_records (rs : list record) : M bool :=
  match rs with
  | [] => mret true
  | r :: rest =>
      ok ← Write (Binary r);
      if negb ok then mret false else write_records rest
  end.

Definition WriteBuildIdFeature (build_id_records : list record) : M bool :=
  start_offset ← WriteFeatureBegin;
  match start_offset with
  | None => mret false
  | Some start_offset =>
      ok ← write_records build_id_records;
      if negb ok then mret false else WriteFeatureEnd FEAT_BUILD_ID start_offset
  end.

(** [std::vector<char> v(len, '\0')] after [std::copy] of the characters of
    [s] to its front. *)
Definition padded (s : string) (len : Z) : list byte :=
  resize (Z.to_nat len) x00 (list_byte_of_string s).

Definition WriteFeatureString (feature : Z) (s : string) : M bool :=
  start_offset ← WriteFeatureBegin;
  match start_offset with
  | None => mret false
  | Some start_offset =>
      let len := wrap32 (Align (Z.of_nat (String.length s) + 1) 64) in
      ok ← Write (uint32_bytes len);
      if negb ok then mret false
      else
        ok ← Write (padded s len);
        if negb ok then mret false else WriteFeatureEnd feature start_offset
  end.

(** The loop of [WriteCmdlineFeature]. *)
Fixpoint write_args (cmdline : list string) : M bool :=
  match cmdline with
  | [] => mret true
  | arg :: rest =>
      let len := wrap32 (Align (Z.of_nat (String.length arg) + 1) 64) in
      ok ← Write (uint32_bytes len);
      if negb ok then mret false
      else
        ok ← Write (padded arg len);
        if negb ok then mret false else write_args rest
  end.

Definition WriteCmdlineFeature (cmdline : list string) : M bool :=
  start_offset ← WriteFeatureBegin;
  match start_offset with
  | None => mret false
  | Some start_offset =>
      let arg_count := wrap32 (Z.of_nat (length cmdline)) in
      ok ← Write (uint32_bytes arg_count);
      if negb ok then mret false
      else
        ok ← write_args cmdline;
        if negb ok then mret false else WriteFeatureEnd FEAT_CMDLINE start_offset
  end.

Definition WriteBranchStackFeature : M bool :=
  start_offset ← WriteFeatureBegin;
  match start_offset with
  | None => mret false
  | Some start_offset => WriteFeatureEnd FEAT_BRANCH_STACK start_offset
  end.

(** ** Sequences of calls *)

Inductive call : Type :=
| CallWriteAttrSection (attr_ids : list EventAttrWithId)
| CallWriteRecord (r : record)
| CallSortDataSection
| CallWriteFeatureHeader (feature_count : Z)
| CallWriteBuildIdFeature (build_id_records : list record)
| CallWriteFeatureString (feature : Z) (s : string)
| CallWriteCmdlineFeature (cmdline : list string)
| CallWriteBranchStackFeature.

Definition perform (c : call) : M bool :=
  match c with
  | CallWriteAttrSection attr_ids => WriteAttrSection attr_ids
  | CallWriteRecord r => WriteRecord r
  | CallSortDataSection => SortDataSection
  | CallWriteFeatureHeader n => WriteFeatureHeader n
  | CallWriteBuildIdFeature rs => WriteBuildIdFeature rs
  | CallWriteFeatureString feature s => WriteFeatureString feature s
  | CallWriteCmdlineFeature cmdline => WriteCmdlineFeature cmdline
  | CallWriteBranchStackFeature => WriteBranchStackFeature
  end.

(** The calls one after the other, whatever each of them returns; the
    result lists what they returned. *)
Fixpoint perform_all (cs : list call) : M (list bool) :=
  match cs with
  | [] => mret []
  | c :: rest =>
      b ← perform c;
      bs ← perform_all rest;
      mret (b :: bs)
  end.

(** The four methods that write a feature. *)
Definition is_feature_write (c : call) : bool :=
  match c with
  | CallWriteBuildIdFeature _ | CallWriteFeatureString _ _
  | CallWriteCmdlineFeature _ | CallWriteBranchStackFeature => true
  | _ => false
  end.

End Writer.

Arguments Ret {_ A} a w.
Arguments Fatal {_ A}.
Arguments OutOfFuel {_ A}.

(** ** WriteFileHeader, Close and the destructor *)

(** [struct FileHeader] is declared in record_file_format.h, which is not
    among the sources. The fields are those that [WriteFileHeader] assigns
    (the rest stays as [memset] left it); the bitmap [features] is an array of
    [unsigned char], here the list of their values. *)
Module PerfFileFormat.

Record FileHeader := mkFileHeader {
  magic : list byte;
  header_size : Z;
  attr_size : Z;
  attrs : SectionDesc;
  data : SectionDesc;
  features : list Z;
}.

End PerfFileFormat.

Import PerfFileFormat (FileHeader, mkFileHeader).

(** What the writer takes from record_file_format.h for the header: the
    bytes of [PERF_MAGIC] that fit [header.magic], [sizeof(FileAttr)], the
    number of elements of [header.features], and the object representation of
    a header. *)
Class FileHeaderFormat := {
  PERF_MAGIC : list byte;
  sizeof_FileAttr : Z;
  features_size : nat;
  FileHeader_bytes : FileHeader -> list byte;
}.

Section Closing.

Context `{RecordFormat} `{FileHeaderFormat}.

(** One turn of the loop over [features_]:
    [header.features[feature / 8] |= (1 << (feature % 8))], in [int]
    arithmetic (division truncates towards zero). An index outside the array
    or a negative shift count is undefined behaviour: [None]. *)
Definition set_feature_bit (feature : Z) (features : list Z) : option (list Z) :=
  let i := Z.quot feature 8 in
  let j := Z.rem feature 8 in
  if (0 <=? i) && (i <? Z.of_nat (length features)) && (0 <=? j)
  then Some (alter (fun b => Z.lor b (Z.shiftl 1 j) mod 256) (Z.to_nat i) features)
  else None.

Fixpoint set_feature_bits (fs : list Z) (features : list Z) : option (list Z) :=
  match fs with
  | [] => Some features
  | feature :: rest =>
      match set_feature_bit feature features with
      | Some features => set_feature_bits rest features
      | None => None
      end
  end.

(** The header that [WriteFileHeader] builds before it touches the
    stream. *)
Definition build_header (w : RecordFileWriter) : option FileHeader :=
  match set_feature_bits (features_ w) (replicate features_size 0) with
  | Some features =>
      Some (mkFileHeader PERF_MAGIC sizeof_FileHeader sizeof_FileAttr
              (mkSectionDesc (attr_section_offset_ w) (attr_section_size_ w))
              (mkSectionDesc (data_section_offset_ w) (data_section_size_ w))
              features)
  | None => None
  end.

(** The [sizeof(header)] bytes written. *)
Definition header_image (header : FileHeader) : list byte :=
  resize (Z.to_nat sizeof_FileHeader) x00 (FileHeader_bytes header).

(** Undefined behaviour in the loop over [features_] is taken as the end of
    the process. *)
Definition WriteFileHeader : M bool :=
  w ← get;
  match build_header w with
  | None => fun _ => Fatal
  | Some header =>
      rc ← on_record_fp (fun f => fseek f 0);
      if rc =? -1 then mret false
      else
        ok ← Write (header_image header);
        if negb ok then mret false else mret true
  end.

(** [fclose(record_fp_)]: 0, or [EOF] when the environment fails the call.
    The stream is gone either way. *)
Definition fclose : M Z :=
  bad ← io_fault;
  if bad : bool then mret (-1) else mret 0.

(** Of all methods only [Close] and the destructor ask whether [record_fp_]
    is [nullptr], and only [Close] makes it so: [is_open] is
    [record_fp_ != nullptr] on entry, and the second component of the result
    is [record_fp_ != nullptr] on return. *)
Definition Close (is_open : bool) : M (bool * bool) :=
  CHECK is_open;;
  ok ← WriteFileHeader;
  let result := if negb ok then false else true in
  rc ← fclose;
  let result := if negb (rc =? 0) then false else result in
  mret (result, false).

(** [~RecordFileWriter()]; the result is [record_fp_ != nullptr] at its
    end. *)
Definition destructor (is_open : bool) : M bool :=
  if is_open then
    '(_, is_open) ← Close is_open;
    mret is_open
  else mret is_open.

End Closing.

(** ** An instance of the parameters

    The perf.data layout of a little-endian target, with toy records whose
    payload starts with a cpu byte and a time byte. The concrete runs below
    are made with it. *)

Module PerfData.

Record attr_t := mkAttr { sample_time : bool; sample_cpu : bool }.

Definition le_value (bs : list byte) : Z :=
  foldr (fun b acc => Z.of_N (Byte.to_N b) + 256 * acc) 0 bs.

Definition move_header (h : RecordHeader) : list byte :=
  le_bytes 4 (h_type h) ++
  (if h_type h <? 32768
   then le_bytes 2 (h_misc h) ++ le_bytes 2 (h_size h)
   else le_bytes 2 (h_size h / 65536) ++ le_bytes 2 (h_size h)).

#[global] Instance format : RecordFormat := {|
  perf_event_attr := attr_t;
  IsTimestampSupported := sample_time;
  IsCpuSupported := sample_cpu;
  perf_event_attr_bytes := fun a =>
    [if sample_time a then x01 else x00; if sample_cpu a then x01 else x00];
  header_size := 8;
  sizeof_perf_event_header := 8;
  pheader_type := fun buf => le_value (take 4 buf);
  pheader_size := fun buf => le_value (take 2 (drop 6 buf));
  MoveToBinaryFormat := move_header;
  record_cpu := fun _ buf => le_value (take 1 (drop 8 buf));
  record_time := fun _ buf => le_value (take 1 (drop 9 buf));
  SIMPLE_PERF_RECORD_TYPE_START := 32768;
  SIMPLE_PERF_RECORD_SPLIT := 32772;
  SIMPLE_PERF_RECORD_SPLIT_END := 32773;
  sizeof_FileHeader := 104;
  FEAT_BUILD_ID := 2;
  FEAT_CMDLINE := 11;
  FEAT_BRANCH_STACK := 15;
|}.

(** A record of type 9 and size 10 of the given cpu and time. *)
Definition sample (cpu time : Z) : record :=
  mkRecord (move_header (mkRecordHeader 9 0 10) ++ [byte_of_Z cpu; byte_of_Z time]).

(** A record of a simpleperf type, of [n] bytes after its header. *)
Definition custom (n : nat) : record :=
  mkRecord (move_header (mkRecordHeader 32769 0 (8 + Z.of_nat n)) ++ replicate n x2a).

Definition both : attr_t := mkAttr true true.

(** A writer whose data section, at offset 8, holds the given records. *)
Definition writer_with (a : attr_t) (rs : list record) (env : list bool)
    : RecordFileWriter :=
  mkWriter (mkFILE (replicate 8 x00 ++ concat (Binary <$> rs)) 0)
    0 8 8 (Z.of_nat (length (concat (Binary <$> rs)))) a 0 0 [] env.

(** The lanes of section 8 of the specification, interleaved. *)
Definition lanes : list record :=
  [sample 0 1; sample 1 2; sample 2 5; sample 1 3; sample 0 4;
   sample 2 6; sample 2 7; sample 1 8; sample 0 9].

(** A record of 70008 bytes. *)
Definition oversized : record := custom (Z.to_nat 70000).

(** A fresh writer on an empty stream, and calls that write the attribute
    section, a record, the feature header and a feature. *)
Definition fresh (env : list bool) : RecordFileWriter :=
  RecordFileWriter_new (mkFILE [] 0) both env.

Definition attrs : list EventAttrWithId := [mkEventAttrWithId both [1; 2]].

Definition session : list call :=
  [CallWriteAttrSection attrs; CallWriteRecord (sample 0 1);
   CallWriteFeatureHeader 1; CallWriteBranchStackFeature].

(** The writer after the attribute section and the records of [lanes]
    have been written to a fresh stream, with nothing or with the features 2
    and 15 recorded. *)
Definition recorded (env : list bool) : RecordFileWriter :=
  mkWriter (mkFILE (replicate 104 x00 ++ uint64_bytes 1 ++ uint64_bytes 2
                    ++ FileAttr_bytes both (mkSectionDesc 104 16)
                    ++ concat (Binary <$> lanes)) 228)
    120 18 138 90 both 0 0 [] env.

Definition with_attrs : RecordFileWriter :=
  mkWriter (mkFILE (replicate 104 x00 ++ uint64_bytes 1 ++ uint64_bytes 2
                    ++ FileAttr_bytes both (mkSectionDesc 104 16)) 138)
    120 18 138 0 both 0 0 [] [].

Definition with_features : RecordFileWriter :=
  mkWriter (mkFILE (replicate 138 x00) 138) 120 18 138 0 both 2 2 [2; 15] [].

(** Feature writes for a table of three slots. *)
Definition feature_calls : list call :=
  [CallWriteFeatureString 3 "x86_64"; CallWriteCmdlineFeature ["perf"%string; "record"%string];
   CallWriteBranchStackFeature].

(** A writer with a data section of one record and a reserved feature
    table of one slot. *)
Definition with_table : RecordFileWriter :=
  mkWriter (mkFILE (replicate 8 x00 ++ Binary (sample 0 1) ++ replicate 16 x00) 34)
    0 8 8 10 both 1 0 [] [].

End PerfData.

(** The layout of the perf.data file header for that instance: the magic,
    the two sizes, the descriptors of the attribute section, of the data
    section and of the (unused) event type section, and 256 feature bits. *)
Module PerfDataHeader.

Import PerfFileFormat.

#[global] Instance header_format : FileHeaderFormat := {|
  PERF_MAGIC := list_byte_of_string "PERFILE2";
  sizeof_FileAttr := 18;
  features_size := 32;
  FileHeader_bytes := fun h =>
    magic h ++ uint64_bytes (header_size h) ++ uint64_bytes (attr_size h)
    ++ SectionDesc_bytes (attrs h) ++ SectionDesc_bytes (data h)
    ++ replicate 16 x00 ++ (byte_of_Z <$> features h);
|}.

End PerfDataHeader.

(** * The vocabulary of the properties *)

Section Vocabulary.

Context `{RecordFormat}.

(** [keeps g m]: whenever [m] returns, the component [g] of the writer is
    what it was. *)
Definition keeps {X A} (g : RecordFileWriter -> X) (m : M A) : Prop :=
  forall w a w', m w = Ret a w' -> g w' = g w.

(** Components that the stream, respectively the environment, is no part
    of. *)
Class IgnoresFp {X} (g : RecordFileWriter -> X) : Prop :=
  ignores_fp : forall f w, g (set_record_fp f w) = g w.
Class IgnoresFaults {X} (g : RecordFileWriter -> X) : Prop :=
  ignores_faults : forall l w, g (set_io_faults l w) = g w.

Definition halts {A} (m : M A) (w : RecordFileWriter) : Prop := m w <> OutOfFuel.

Definition returns {A} (m : M A) : Prop := forall w, exists a w', m w = Ret a w'.

(** The faults consumed between two writers were all [false]: no libc call
    made in between has been failed by the environment. *)
Definition no_fault_between (w w' : RecordFileWriter) : Prop :=
  exists k, io_faults w' = drop k (io_faults w) /\
            Forall (fun b => b = false) (take k (io_faults w)).

(** What [WriteAttrSection] assigns at its end. *)
Definition layout (w : RecordFileWriter) : Z * Z * Z * perf_event_attr :=
  (attr_section_offset_ w, attr_section_size_ w, data_section_offset_ w, event_attr_ w).

Definition contiguous (w : RecordFileWriter) : Prop :=
  data_section_offset_ w = attr_section_offset_ w + attr_section_size_ w.

(** The declared number of features and the number written so far. *)
Definition slots (w : RecordFileWriter) : Z * Z :=
  (feature_count_ w, current_feature_index_ w).

(** A method that returns, having counted one more feature exactly when it
    returns [true]. *)
Definition counts_feature (m : M bool) : Prop :=
  forall w, exists b w',
    m w = Ret b w' /\
    feature_count_ w' = feature_count_ w /\
    current_feature_index_ w' =
      if b then wrap64 (current_feature_index_ w + 1) else current_feature_index_ w.

(** The offset of the descriptor that the next [WriteFeatureEnd] writes. *)
Definition table_slot (w : RecordFileWriter) : Z :=
  wrap64 (wrap64 (data_section_offset_ w + data_section_size_ w)
          + current_feature_index_ w * sizeof_SectionDesc).

(** The payload of a chunk record. *)
Definition chunk_size : Z := RECORD_SIZE_LIMIT - Z.of_nat header_size.

(** The record that carries the chunk [c] of an oversized record, and the
    record that ends the sequence of chunks. *)
Definition split_record (c : list byte) : list byte :=
  header_buf (mkRecordHeader SIMPLE_PERF_RECORD_SPLIT 0
                (Z.of_nat (length c) + Z.of_nat header_size)) ++ c.

Definition split_end_record : list byte :=
  header_buf (mkRecordHeader SIMPLE_PERF_RECORD_SPLIT_END 0 (Z.of_nat header_size)).

(** The bytes of a sequence of records. *)
Definition bytes_of (rs : list record) : list byte := concat (Binary <$> rs).

(** A record as [ReadRecordFromFile] expects it in a stream: it starts with
    a header, whose size field is the size of the record. *)
Definition well_formed (r : record) : Prop :=
  (0 < sizeof_perf_event_header <= length (Binary r))%nat /\
  pheader_size (take sizeof_perf_event_header (Binary r)) = size r.

(** The records of a cpu, in their order. *)
Definition lane (a : perf_event_attr) (cpu : Z) (rs : list record) : list record :=
  filter (fun r => Cpu a r = cpu) rs.

Definition time_le (a : perf_event_attr) (x y : record) : Prop :=
  Timestamp a x <= Timestamp a y.

(** The bytes of the data section in the stream. *)
Definition data_section (w : RecordFileWriter) : list byte :=
  take (Z.to_nat (data_section_size_ w))
    (drop (Z.to_nat (data_section_offset_ w)) (f_data (record_fp_ w))).

(** The components that the scratch files are no part of. *)
Definition main_view (w : RecordFileWriter) : FILE * perf_event_attr * Z :=
  (record_fp_ w, event_attr_ w, data_section_size_ w).

(** The scratch file of a lane while it is written (phase 1), and while it
    is read back (phase 2). *)
Definition open_entry (l : list record) : CpuData :=
  mkCpuData (mkFILE (bytes_of l) (length (bytes_of l))) (Z.of_nat (length (bytes_of l))).

Definition scratch_entry (l : list record) : option CpuData :=
  match l with
  | [] => None
  | _ => Some (open_entry l)
  end.

Definition merging_entry (consumed remaining : list record) : CpuData :=
  mkCpuData (mkFILE (bytes_of (consumed ++ remaining)) (length (bytes_of consumed)))
    (Z.of_nat (length (bytes_of remaining))).

(** Phase 1 has handled [done]: every lane of [done] is in its file. *)
Definition partitioned (a : perf_event_attr) (done : list record) (cpu_map : gmap Z CpuData) : Prop :=
  forall cpu, cpu_map !! cpu = scratch_entry (lane a cpu done).

(** Phase 2 has pushed the first records of the cpus in [S]. *)
Definition first_pushed (a : perf_event_attr) (rs : list record) (S : list Z) (cpu_map : gmap Z CpuData) (cache : list record)
    : Prop :=
  (forall cpu, cpu ∈ S ->
     exists r rest, lane a cpu rs = r :: rest /\ lane a cpu cache = [r] /\
                    cpu_map !! cpu = Some (merging_entry [r] rest)) /\
  (forall cpu, cpu ∉ S ->
     lane a cpu cache = [] /\ cpu_map !! cpu = scratch_entry (lane a cpu rs)).

(** The merge has written [out], the cache holds the next record of every
    lane that is not exhausted, and the files stand behind those records. *)
Definition merging (a : perf_event_attr) (rs : list record) (cpu_map : gmap Z CpuData) (cache out : list record) : Prop :=
  (forall cpu, exists remaining,
     lane a cpu rs = lane a cpu out ++ lane a cpu cache ++ remaining /\
     (remaining <> [] -> lane a cpu cache <> []) /\
     (length (lane a cpu cache) <= 1)%nat /\
     (lane a cpu rs <> [] ->
      cpu_map !! cpu = Some (merging_entry (lane a cpu out ++ lane a cpu cache) remaining)))
  /\ StronglySorted (time_le a) out
  /\ (forall x y, x ∈ out -> y ∈ cache -> time_le a x y).

(** The stream after the merge has written [out] over the start of the data
    section. *)
Definition merged_stream (rs : list record) (pre post : list byte) (out : list record) : FILE :=
  mkFILE ((pre ++ bytes_of out) ++ drop (length (bytes_of out)) (bytes_of rs ++ post))
    (length (pre ++ bytes_of out)).

(** The writer a call has returned with ([w] when it has not returned). *)
Definition writer_after {A} (o : outcome A) (w : RecordFileWriter) : RecordFileWriter :=
  match o with
  | Ret _ w' => w'
  | _ => w
  end.

(** The value a call has returned ([d] when it has not returned), and
    whether it has returned. *)
Definition result_after {A} (o : outcome A) (d : A) : A :=
  match o with
  | Ret a _ => a
  | _ => d
  end.

Definition has_returned {A} (o : outcome A) : bool :=
  match o with
  | Ret _ _ => true
  | _ => false
  end.

(** Whether a call has returned [b]. *)
Definition has_returned_bool (b : bool) (o : outcome bool) : bool :=
  match o with
  | Ret b' _ => eqb b b'
  | _ => false
  end.

(** The environment injects no fault from here on. *)
Definition quiet (w : RecordFileWriter) : Prop := io_faults w = [].

(** The stream stands at its end, which is where the data section ends in
    the 64 bits of the bookkeeping. *)
Definition data_ends_stream (w : RecordFileWriter) : Prop :=
  f_pos (record_fp_ w) = length (f_data (record_fp_ w)) /\
  wrap64 (data_section_offset_ w + data_section_size_ w)
  = wrap64 (Z.of_nat (length (f_data (record_fp_ w)))).

(** The feature that a feature write passes to [WriteFeatureEnd]. *)
Definition feature_of (c : call) : Z :=
  match c with
  | CallWriteBuildIdFeature _ => FEAT_BUILD_ID
  | CallWriteFeatureString feature _ => feature
  | CallWriteCmdlineFeature _ => FEAT_CMDLINE
  | _ => FEAT_BRANCH_STACK
  end.

(** The payload of the cmdline feature behind its count: every argument
    with its length prefix and padding. *)
Definition args_image (cmdline : list string) : list byte :=
  concat ((fun arg => let len := Align (Z.of_nat (String.length arg) + 1) 64 in
                      uint32_bytes len ++ padded arg len) <$> cmdline).

(** The ids of an entry as they lie in the id section. *)
Definition ids_image (e : EventAttrWithId) : list byte :=
  concat (uint64_bytes <$> ids e).

(** The id section and the attribute section as [WriteAttrSection] lays
    them out, the ids of the first entry lying at [id_section_offset]. *)
Definition id_section_image (attr_ids : list EventAttrWithId) : list byte :=
  concat (ids_image <$> attr_ids).

Fixpoint attr_section_image (attr_ids : list EventAttrWithId) (id_section_offset : Z)
    : list byte :=
  match attr_ids with
  | [] => []
  | e :: rest =>
      let ids_size := wrap64 (Z.of_nat (length (ids e)) * 8) in
      FileAttr_bytes (attr e) (mkSectionDesc id_section_offset ids_size)
      ++ attr_section_image rest (id_section_offset + ids_size)
  end.

(** The number of bytes of the attribute records of some entries. *)
Definition attr_records_size (attr_ids : list EventAttrWithId) : nat :=
  sum_list_with
    (fun e => length (FileAttr_bytes (attr e) (mkSectionDesc 0 0))) attr_ids.

(** What the feature table keeps of the writes made so far, and the fields
    that the feature writes have no business with. *)
Definition bookkeeping (w : RecordFileWriter)
    : Z * Z * list Z * (Z * Z * Z * perf_event_attr) * Z :=
  (feature_count_ w, current_feature_index_ w, features_ w, layout w,
   data_section_size_ w).

(** A method that records [feature] in the next slot when it returns
    [true], and leaves the bookkeeping alone when it returns [false]. *)
Definition records_feature (feature : Z) (m : M bool) : Prop :=
  forall w b w', m w = Ret b w' ->
    bookkeeping w' =
      if b
      then (feature_count_ w, wrap64 (current_feature_index_ w + 1),
            features_ w ++ [feature], layout w, data_section_size_ w)
      else bookkeeping w.

(** The bytes that a feature write puts behind the end of the stream, under
    the conditions in which the 32-bit counts and lengths in them do not
    wrap. *)
Definition feature_payload (c : call) : list byte :=
  match c with
  | CallWriteBuildIdFeature build_id_records => bytes_of build_id_records
  | CallWriteFeatureString _ s =>
      let len := Align (Z.of_nat (String.length s) + 1) 64 in
      uint32_bytes len ++ padded s len
  | CallWriteCmdlineFeature cmdline =>
      uint32_bytes (Z.of_nat (length cmdline)) ++ args_image cmdline
  | _ => []
  end.

Definition payload_fits (c : call) : Prop :=
  match c with
  | CallWriteFeatureString _ s => Z.of_nat (String.length s) + 64 < 2 ^ 32
  | CallWriteCmdlineFeature cmdline =>
      Z.of_nat (length cmdline) < 2 ^ 32 /\
      Forall (fun arg => Z.of_nat (String.length arg) + 64 < 2 ^ 32) cmdline
  | _ => True
  end.

(** Bit [f mod 8] of element [f / 8] of a bitmap. *)
Definition feature_bit (features : list Z) (f : Z) : bool :=
  match features !! Z.to_nat (f / 8) with
  | Some b => Z.testbit b (f mod 8)
  | None => false
  end.

(** The feature table as the writer keeps it. *)
Definition feature_table (w : RecordFileWriter) : Z * Z * list Z :=
  (feature_count_ w, current_feature_index_ w, features_ w).

(** The descriptors of feature writes made one after the other, the
    payload of the first one starting at [start], and their payloads. *)
Fixpoint feature_descriptors (start : Z) (cs : list call) : list byte :=
  match cs with
  | [] => []
  | c :: rest =>
      SectionDesc_bytes (mkSectionDesc start (Z.of_nat (length (feature_payload c))))
      ++ feature_descriptors (start + Z.of_nat (length (feature_payload c))) rest
  end.

Definition feature_payloads (cs : list call) : list byte :=
  concat (feature_payload <$> cs).

(** The outcome of a loop of the model that did not fail: it returned
    [true] in a quiet writer, or the model ran out of steps. *)
Definition went_well {A} (flag : A -> bool) (o : outcome A) : Prop :=
  match o with
  | Ret a w => flag a = true /\ quiet w
  | Fatal => False
  | OutOfFuel => True
  end.

End Vocabulary.

(** * Properties *)

Section Facts.

Context `{RecordFormat}.

(** ** Reasoning about sequenced calls *)

Lemma bind_unfold {A B} (m : M A) (k : A -> M B) (w : RecordFileWriter) :
  (m ≫= k) w =
  match m w with
  | Ret a w' => k a w'
  | Fatal => Fatal
  | OutOfFuel => OutOfFuel
  end.
Proof. reflexivity. Qed.

Lemma bind_Ret {A B} (m : M A) (k : A -> M B) w b w' :
  (m ≫= k) w = Ret b w' ->
  exists a w1, m w = Ret a w1 /\ k a w1 = Ret b w'.
Proof.
  rewrite bind_unfold. destruct (m w) as [a w1| |]; try discriminate.
  intros Hk. exists a, w1. split; [reflexivity | exact Hk].
Qed.

#[local] Instance dss_ignores_fp : IgnoresFp data_section_size_.
Proof. intros f w; reflexivity. Qed.
#[local] Instance dss_ignores_faults : IgnoresFaults data_section_size_.
Proof. intros l w; reflexivity. Qed.
#[local] Instance fp_ignores_faults : IgnoresFaults record_fp_.
Proof. intros l w; reflexivity. Qed.
#[local] Instance attr_ignores_fp : IgnoresFp event_attr_.
Proof. intros f w; reflexivity. Qed.
#[local] Instance attr_ignores_faults : IgnoresFaults event_attr_.
Proof. intros l w; reflexivity. Qed.

Section Keeps.

Context {X : Type} (g : RecordFileWriter -> X).

Lemma keeps_ret {A} (a : A) : keeps g (mret a).
Proof. intros w a' w' E; inversion E; reflexivity. Qed.

Lemma keeps_bind {A B} (m : M A) (k : A -> M B) :
  keeps g m -> (forall a, keeps g (k a)) -> keeps g (m ≫= k).
Proof.
  intros Hm Hk w b w' E.
  apply bind_Ret in E as (a & w1 & E1 & E2).
  rewrite (Hk a _ _ _ E2). exact (Hm _ _ _ E1).
Qed.

Lemma keeps_get : keeps g get.
Proof. intros w a w' E; inversion E; reflexivity. Qed.

Lemma keeps_modify (f : RecordFileWriter -> RecordFileWriter) :
  (forall w, g (f w) = g w) -> keeps g (modify f).
Proof. intros Hf w a w' E; inversion E; apply Hf. Qed.

Lemma keeps_CHECK b : keeps g (CHECK b).
Proof. intros w a w' E. unfold CHECK in E. destruct b; inversion E; reflexivity. Qed.

Lemma keeps_out_of_fuel {A} : keeps g (@out_of_fuel _ A).
Proof. intros w a w' E; discriminate. Qed.

Lemma keeps_Fatal {A} : keeps g (fun _ => @Fatal _ A).
Proof. intros w a w' E; discriminate. Qed.

Context `{!IgnoresFaults g}.

Lemma keeps_io_fault : keeps g io_fault.
Proof.
  intros w a w' E. unfold io_fault in E.
  inversion E; subst. apply ignores_faults.
Qed.

End Keeps.

Create HintDb keeps.

(** Applies the rules above along the structure of a method. *)
Ltac keeps_step :=
  match goal with
  | |- keeps _ (_ ≫= _) => apply keeps_bind; [| intros ?]
  | |- keeps _ (mret _) => apply keeps_ret
  | |- keeps _ get => apply keeps_get
  | |- keeps _ (CHECK _) => apply keeps_CHECK
  | |- keeps _ out_of_fuel => apply keeps_out_of_fuel
  | |- keeps _ (fun _ => Fatal) => apply keeps_Fatal
  | |- keeps _ io_fault => apply keeps_io_fault; assumption
  | |- keeps _ (modify _) => apply keeps_modify; intros ?; solve [reflexivity | auto]
  | |- keeps _ (if ?b then _ else _) => destruct b
  | |- keeps _ (match ?x with _ => _ end) => destruct x
  | |- keeps _ (let '(_, _) := ?x in _) => destruct x
  | H : keeps ?g ?m |- keeps ?g ?m => exact H
  | |- _ => solve [auto with keeps]
  end.

Section KeepsIO.

Context {X : Type} (g : RecordFileWriter -> X) `{!IgnoresFaults g}.

Lemma keeps_fseek f o : keeps g (fseek f o).
Proof. unfold fseek. repeat keeps_step. Qed.

Lemma keeps_fseek_end f : keeps g (fseek_end f).
Proof. unfold fseek_end. repeat keeps_step. Qed.

Lemma keeps_ftello f : keeps g (ftello f).
Proof. unfold ftello. repeat keeps_step. Qed.

Lemma keeps_fwrite buf f : keeps g (fwrite buf f).
Proof. unfold fwrite. repeat keeps_step. Qed.

Lemma keeps_fread n f : keeps g (fread n f).
Proof. unfold fread. repeat keeps_step. Qed.

Lemma keeps_fopen_scratch : keeps g fopen_scratch.
Proof. unfold fopen_scratch. repeat keeps_step. Qed.

Hint Resolve keeps_fseek keeps_fseek_end keeps_ftello keeps_fwrite keeps_fread
  keeps_fopen_scratch : keeps.

Lemma keeps_ReadRecordFromFile f : keeps g (ReadRecordFromFile f).
Proof. unfold ReadRecordFromFile. repeat keeps_step. Qed.

Lemma keeps_WriteRecordToFile r f : keeps g (WriteRecordToFile r f).
Proof. unfold WriteRecordToFile. repeat keeps_step. Qed.

Context `{!IgnoresFp g}.

Lemma keeps_on_record_fp {A} (call : FILE -> M (A * FILE)) :
  (forall f, keeps g (call f)) -> keeps g (on_record_fp call).
Proof.
  intros Hc. unfold on_record_fp. repeat keeps_step.
Qed.

Lemma keeps_Write buf : keeps g (Write buf).
Proof.
  unfold Write. repeat keeps_step.
Qed.

End KeepsIO.

#[local] Hint Resolve keeps_fseek keeps_fseek_end keeps_ftello keeps_fwrite keeps_fread
  keeps_fopen_scratch keeps_ReadRecordFromFile keeps_WriteRecordToFile
  keeps_on_record_fp keeps_Write : keeps.
#[local] Hint Extern 1 (IgnoresFaults _) => typeclasses eauto : keeps.
#[local] Hint Extern 1 (IgnoresFp _) => typeclasses eauto : keeps.

(** ** SortDataSection leaves the bookkeeping alone *)

Section SortFrame.

Context {X : Type} (g : RecordFileWriter -> X) `{!IgnoresFaults g} `{!IgnoresFp g}.

Lemma keeps_partition_loop fuel : forall cur_size cpu_map,
  keeps g (partition_loop fuel cur_size cpu_map).
Proof.
  induction fuel as [|fuel IH]; intros cur_size cpu_map; simpl;
    repeat keeps_step.
Qed.

Lemma keeps_push_first_loop its : forall cpu_map cache,
  keeps g (push_first_loop its cpu_map cache).
Proof.
  induction its as [|[cpu cpu_data] its IH]; intros cpu_map cache; simpl;
    repeat keeps_step.
Qed.

Lemma keeps_merge_loop fuel : forall cpu_map cache,
  keeps g (merge_loop fuel cpu_map cache).
Proof.
  induction fuel as [|fuel IH]; intros cpu_map cache; simpl;
    repeat keeps_step.
Qed.

Lemma keeps_SortDataSection : keeps g SortDataSection.
Proof.
  unfold SortDataSection.
  repeat first [ apply keeps_partition_loop | apply keeps_push_first_loop
               | apply keeps_merge_loop | keeps_step ].
Qed.

End SortFrame.

(** ** The loops of the model have steps enough *)

Lemma halts_bind {A B} (m : M A) (k : A -> M B) w :
  halts m w -> (forall a w1, m w = Ret a w1 -> halts (k a) w1) -> halts (m ≫= k) w.
Proof.
  unfold halts. intros Hm Hk. rewrite bind_unfold.
  destruct (m w) as [a w1| |] eqn:E; [apply Hk; reflexivity | discriminate | congruence].
Qed.

Lemma halts_bind_all {A B} (m : M A) (k : A -> M B) :
  (forall w, halts m w) -> (forall a w, halts (k a) w) -> forall w, halts (m ≫= k) w.
Proof. intros Hm Hk w. apply halts_bind; [apply Hm | intros; apply Hk]. Qed.

Lemma halts_ret {A} (a : A) w : halts (mret a) w.
Proof. discriminate. Qed.

Lemma halts_get w : halts get w.
Proof. discriminate. Qed.

Lemma halts_modify f w : halts (modify f) w.
Proof. discriminate. Qed.

Lemma halts_CHECK b w : halts (CHECK b) w.
Proof. unfold halts, CHECK. destruct b; discriminate. Qed.

Lemma halts_Fatal {A} w : halts (fun _ => @Fatal _ A) w.
Proof. discriminate. Qed.

Lemma halts_io_fault w : halts io_fault w.
Proof. discriminate. Qed.

(** Applies the rules above along the structure of a method without
    loops. *)
Ltac halts_step :=
  match goal with
  | |- forall w : RecordFileWriter, halts _ w => intros ?
  | |- halts (_ ≫= _) _ => apply halts_bind; [| intros ? ? _]
  | |- halts (mret _) _ => apply halts_ret
  | |- halts get _ => apply halts_get
  | |- halts (modify _) _ => apply halts_modify
  | |- halts (CHECK _) _ => apply halts_CHECK
  | |- halts (fun _ => Fatal) _ => apply halts_Fatal
  | |- halts io_fault _ => apply halts_io_fault
  | |- halts (if ?b then _ else _) _ => destruct b
  | |- halts (match ?x with _ => _ end) _ => destruct x
  | |- _ => solve [auto with halts]
  end.

Create HintDb halts.

Lemma halts_fseek f o w : halts (fseek f o) w.
Proof. unfold fseek. repeat halts_step. Qed.

Lemma halts_fseek_end f w : halts (fseek_end f) w.
Proof. unfold fseek_end. repeat halts_step. Qed.

Lemma halts_ftello f w : halts (ftello f) w.
Proof. unfold ftello. repeat halts_step. Qed.

Lemma halts_fwrite buf f w : halts (fwrite buf f) w.
Proof. unfold fwrite. repeat halts_step. Qed.

Lemma halts_fread n f w : halts (fread n f) w.
Proof. unfold fread. repeat halts_step. Qed.

Lemma halts_fopen_scratch w : halts fopen_scratch w.
Proof. unfold fopen_scratch. repeat halts_step. Qed.

#[local] Hint Resolve halts_fseek halts_fseek_end halts_ftello halts_fwrite halts_fread
  halts_fopen_scratch : halts.

Lemma halts_ReadRecordFromFile f w : halts (ReadRecordFromFile f) w.
Proof. unfold ReadRecordFromFile. repeat halts_step. Qed.

Lemma halts_WriteRecordToFile r f w : halts (WriteRecordToFile r f) w.
Proof. unfold WriteRecordToFile. repeat halts_step. Qed.

Lemma halts_on_record_fp {A} (call : FILE -> M (A * FILE)) w :
  (forall f w, halts (call f) w) -> halts (on_record_fp call) w.
Proof. intros Hc. unfold on_record_fp. repeat halts_step. Qed.

Lemma halts_Write buf w : halts (Write buf) w.
Proof. unfold Write. repeat halts_step. Qed.

#[local] Hint Resolve halts_ReadRecordFromFile halts_WriteRecordToFile
  halts_on_record_fp halts_Write : halts.

Lemma halts_WriteData buf w : halts (WriteData buf) w.
Proof. unfold WriteData. repeat halts_step. Qed.

(** A record read from a stream moves its position forward, within its
    contents. *)
Lemma file_read_Some f n bs f' :
  file_read f n = Some (bs, f') ->
  f_data f' = f_data f /\ f_pos f' = (f_pos f + n)%nat /\
  (f_pos f + n <= length (f_data f))%nat.
Proof.
  unfold file_read. case_decide; [|discriminate].
  intros E; inversion E; subst; simpl. auto.
Qed.

Lemma fread_Ret n f w c bs f' w' :
  fread n f w = Ret (c, bs, f') w' ->
  (c = 1 /\ n <> 0%nat /\ file_read f n = Some (bs, f')) \/ (c = 0 /\ f' = f).
Proof.
  unfold fread. case_decide.
  - intros E; inversion E; subst; auto.
  - intros E. apply bind_Ret in E as (bad & w1 & _ & E).
    destruct bad.
    + inversion E; subst; auto.
    + destruct (file_read f n) as [[bytes f1]|] eqn:R; inversion E; subst; auto.
Qed.

Lemma ReadRecordFromFile_progress f w r f' w' :
  ReadRecordFromFile f w = Ret (Some r, f') w' ->
  f_data f' = f_data f /\ (f_pos f < f_pos f' <= length (f_data f))%nat.
Proof.
  unfold ReadRecordFromFile. intros E.
  apply bind_Ret in E as ([[n pheader] f1] & w1 & E1 & E).
  apply fread_Ret in E1 as [(-> & Hn & R1)|(-> & ->)]; [|discriminate].
  apply file_read_Some in R1 as (D1 & P1 & L1).
  simpl in E.
  destruct (pheader_size pheader >? Z.of_nat sizeof_perf_event_header).
  - apply bind_Ret in E as ([[n2 payload] f2] & w2 & E2 & E).
    apply fread_Ret in E2 as [(-> & Hn2 & R2)|(-> & ->)]; [|discriminate].
    apply file_read_Some in R2 as (D2 & P2 & L2).
    simpl in E. apply bind_Ret in E as (w3 & w4 & _ & E).
    inversion E; subst. rewrite D2, D1, P2, P1 in *. split; [reflexivity | lia].
  - apply bind_Ret in E as (w3 & w4 & _ & E).
    inversion E; subst. rewrite D1, P1. split; [reflexivity | lia].
Qed.

Lemma on_record_fp_Ret {A} (call : FILE -> M (A * FILE)) w a w' :
  on_record_fp call w = Ret a w' ->
  exists f w1, call (record_fp_ w) w = Ret (a, f) w1 /\ w' = set_record_fp f w1.
Proof.
  unfold on_record_fp. intros E.
  apply bind_Ret in E as (w0 & w1 & E0 & E). inversion E0; subst.
  apply bind_Ret in E as ([a1 f] & w2 & E1 & E). simpl in E.
  apply bind_Ret in E as ([] & w3 & E2 & E). inversion E2; subst.
  inversion E; subst. eauto.
Qed.

Lemma halts_partition_loop fuel : forall cur_size cpu_map w,
  (length (f_data (record_fp_ w)) - f_pos (record_fp_ w) < fuel)%nat ->
  halts (partition_loop fuel cur_size cpu_map) w.
Proof.
  induction fuel as [|fuel IH]; intros cur_size cpu_map w Hfuel; [lia|].
  simpl. apply halts_bind; [apply halts_get|].
  intros w0 w1 E0. inversion E0; subst w0 w1; clear E0.
  destruct (cur_size <? data_section_size_ w); [|apply halts_ret].
  apply halts_bind; [auto with halts|].
  intros [r|] w1 E1; [|apply halts_ret].
  apply on_record_fp_Ret in E1 as (f & w2 & E1 & ->).
  pose proof (keeps_ReadRecordFromFile record_fp_ _ _ _ _ E1) as K1.
  apply ReadRecordFromFile_progress in E1 as (D & P).
  apply halts_bind.
  { destruct (cpu_map !! _); repeat halts_step. }
  intros [cpu_data|] w3 E3; [|apply halts_ret].
  match type of E3 with
  | ?m _ = _ => assert (K3 : keeps record_fp_ m) by repeat keeps_step
  end.
  apply K3 in E3. simpl in E3.
  apply halts_bind; [auto with halts|].
  intros [ok f3] w4 E4.
  apply (keeps_WriteRecordToFile record_fp_) in E4.
  destruct ok; simpl; [|apply halts_ret].
  apply IH. rewrite E4, E3, D. lia.
Qed.

Lemma ForcedPop_length a cache r cache' :
  ForcedPop a cache = Some (r, cache') -> length cache = S (length cache').
Proof.
  revert r cache'. induction cache as [|x cache IH]; intros r cache' E; [discriminate|].
  simpl in E. destruct (ForcedPop a cache) as [[m rest]|] eqn:P.
  - specialize (IH _ _ eq_refl).
    destruct (Timestamp a m <? Timestamp a x); inversion E; subst; simpl; lia.
  - inversion E; subst. destruct cache; [reflexivity|].
    simpl in P. destruct (ForcedPop a cache) as [[m rest]|];
      [destruct (_ <? _)|]; discriminate.
Qed.

(** Moving the position of one scratch file forward lowers the bound. *)
Lemma scratch_unread_insert (cpu_map : gmap Z CpuData) cpu cd cd' :
  cpu_map !! cpu = Some cd ->
  f_data (fp cd') = f_data (fp cd) ->
  (f_pos (fp cd) < f_pos (fp cd') <= length (f_data (fp cd)))%nat ->
  (scratch_unread (<[cpu := cd']> cpu_map) < scratch_unread cpu_map)%nat.
Proof.
  intros Hcd D P. unfold scratch_unread.
  rewrite <- (insert_delete_eq cpu_map).
  rewrite map_to_list_insert by apply lookup_delete_eq.
  rewrite <- (map_to_list_delete cpu_map cpu cd Hcd).
  simpl. rewrite D. lia.
Qed.

Lemma halts_merge_loop fuel : forall cpu_map cache w,
  (length cache + scratch_unread cpu_map < fuel)%nat ->
  halts (merge_loop fuel cpu_map cache) w.
Proof.
  induction fuel as [|fuel IH]; intros cpu_map cache w Hfuel; [lia|].
  simpl. apply halts_bind; [apply halts_get|].
  intros w0 w1 E0. inversion E0; subst w0 w1; clear E0.
  destruct (ForcedPop (event_attr_ w) cache) as [[r cache']|] eqn:P; [|apply halts_ret].
  apply ForcedPop_length in P.
  apply halts_bind; [auto with halts|].
  intros [|] w1 _; [|apply halts_ret].
  destruct (cpu_map !! Cpu (event_attr_ w) r) as [cpu_data|] eqn:L; [|apply halts_Fatal].
  destruct (data_size cpu_data >? 0).
  - apply halts_bind; [auto with halts|].
    intros [[r'|] f] w2 E2; [|apply halts_ret].
    apply ReadRecordFromFile_progress in E2 as (D & Pos).
    apply IH. unfold Push. rewrite length_app. simpl.
    pose proof (scratch_unread_insert cpu_map _ cpu_data
                  (mkCpuData f (wrap64 (data_size cpu_data - size r'))) L D Pos).
    lia.
  - apply IH. lia.
Qed.

Lemma halts_push_first_loop its : forall cpu_map cache w,
  halts (push_first_loop its cpu_map cache) w.
Proof.
  induction its as [|[cpu cpu_data] its IH]; intros cpu_map cache w; simpl;
    repeat halts_step.
Qed.

Lemma halts_SortDataSection w : halts SortDataSection w.
Proof.
  unfold SortDataSection.
  apply halts_bind; [apply halts_get|].
  intros w0 w1 E0. inversion E0; subst w0 w1; clear E0.
  destruct (_ || _); [apply halts_ret|].
  apply halts_bind; [auto with halts|]. intros rc w1 _.
  destruct (rc =? -1); [apply halts_ret|].
  apply halts_bind; [apply halts_get|].
  intros w0 w2 E0. inversion E0; subst w0 w2; clear E0.
  apply halts_bind; [apply halts_partition_loop; lia|].
  intros [ok cpu_map] w2 _. destruct ok; cbn [negb]; [|apply halts_ret].
  apply halts_bind; [auto with halts|]. intros rc2 w3 _.
  destruct (rc2 =? -1); [apply halts_ret|].
  apply halts_bind; [apply halts_push_first_loop|].
  intros [[ok cpu_map'] cache] w4 _. destruct ok; cbn [negb]; [|apply halts_ret].
  apply halts_merge_loop. lia.
Qed.

(** ** What the libc calls return *)

Lemma no_fault_between_refl w : no_fault_between w w.
Proof. exists 0%nat. split; [reflexivity | constructor]. Qed.

Lemma no_fault_between_trans w1 w2 w3 :
  no_fault_between w1 w2 -> no_fault_between w2 w3 -> no_fault_between w1 w3.
Proof.
  intros (k1 & E1 & F1) (k2 & E2 & F2). exists (k1 + k2)%nat. split.
  - rewrite E2, E1, drop_drop. reflexivity.
  - rewrite <- take_take_drop. apply Forall_app. split; [exact F1|].
    rewrite <- E1. exact F2.
Qed.

Lemma no_fault_step w :
  hd false (io_faults w) = false ->
  no_fault_between w (set_io_faults (tail (io_faults w)) w).
Proof.
  intros Hhd. exists 1%nat. simpl. destruct (io_faults w) as [|b l]; simpl in *.
  - split; [reflexivity | constructor].
  - subst b. split; [rewrite drop_0; reflexivity|]. rewrite take_0. repeat constructor.
Qed.

Lemma no_fault_between_fp f w w' :
  no_fault_between w w' -> no_fault_between w (set_record_fp f w').
Proof. intros Hn. exact Hn. Qed.

Lemma fseek_Ret f o w rc f' w' :
  fseek f o w = Ret (rc, f') w' ->
  w' = set_io_faults (tail (io_faults w)) w /\
  ((rc = -1 /\ f' = f) \/
   (rc = 0 /\ hd false (io_faults w) = false /\ 0 <= to_long o /\
    f' = mkFILE (f_data f) (Z.to_nat (to_long o)))).
Proof.
  unfold fseek. rewrite bind_unfold. simpl.
  destruct (hd false (io_faults w)); simpl.
  - intros E; inversion E; auto.
  - destruct (to_long o <? 0) eqn:L; intros E; inversion E; subst; split; auto.
    right. repeat split; auto. lia.
Qed.

Lemma fseek_end_Ret f w rc f' w' :
  fseek_end f w = Ret (rc, f') w' ->
  w' = set_io_faults (tail (io_faults w)) w /\
  ((rc = -1 /\ f' = f) \/
   (rc = 0 /\ hd false (io_faults w) = false /\
    f' = mkFILE (f_data f) (length (f_data f)))).
Proof.
  unfold fseek_end. rewrite bind_unfold. simpl.
  destruct (hd false (io_faults w)); intros E; inversion E; auto.
Qed.

Lemma ftello_Ret f w z w' :
  ftello f w = Ret z w' ->
  w' = set_io_faults (tail (io_faults w)) w /\
  (z = -1 \/
   (z = Z.of_nat (f_pos f) /\ z < 2 ^ 63 /\ hd false (io_faults w) = false)).
Proof.
  unfold ftello. rewrite bind_unfold. simpl.
  destruct (hd false (io_faults w)); simpl.
  - intros E; inversion E; auto.
  - destruct (2 ^ 63 <=? Z.of_nat (f_pos f)) eqn:L; intros E; inversion E; subst; split; auto.
    right. repeat split; auto. lia.
Qed.

Lemma Write_Ret buf w ok w' :
  Write buf w = Ret ok w' ->
  if ok
  then w' = set_record_fp (file_write (record_fp_ w) buf)
              (set_io_faults (tail (io_faults w)) w) /\
       hd false (io_faults w) = false /\ length buf <> 0%nat
  else record_fp_ w' = record_fp_ w.
Proof.
  unfold Write, fwrite. rewrite bind_unfold. simpl.
  case_decide as Hlen.
  - rewrite bind_unfold. simpl. intros E; inversion E; reflexivity.
  - rewrite !bind_unfold. simpl.
    destruct (hd false (io_faults w)) eqn:Hhd; simpl; intros E; inversion E; auto.
Qed.

Lemma Write_true buf w w' :
  Write buf w = Ret true w' ->
  no_fault_between w w' /\
  record_fp_ w' = file_write (record_fp_ w) buf /\ length buf <> 0%nat.
Proof.
  intros E. apply Write_Ret in E as (-> & Hhd & Hlen).
  split; [|split; [reflexivity | exact Hlen]].
  apply no_fault_between_fp, no_fault_step, Hhd.
Qed.

Lemma file_write_pos f buf : f_pos (file_write f buf) = (f_pos f + length buf)%nat.
Proof. reflexivity. Qed.

(** ** Methods that always return *)

Lemma returns_bind {A B} (m : M A) (k : A -> M B) :
  returns m -> (forall a, returns (k a)) -> returns (m ≫= k).
Proof.
  intros Hm Hk w. destruct (Hm w) as (a & w1 & E1). destruct (Hk a w1) as (b & w2 & E2).
  exists b, w2. rewrite bind_unfold, E1. exact E2.
Qed.

Lemma returns_ret {A} (a : A) : returns (mret a).
Proof. intros w. exists a, w. reflexivity. Qed.

Lemma returns_get : returns get.
Proof. intros w. exists w, w. reflexivity. Qed.

Lemma returns_modify f : returns (modify f).
Proof. intros w. exists tt, (f w). reflexivity. Qed.

Lemma returns_io_fault : returns io_fault.
Proof. intros w. eexists _, _. reflexivity. Qed.

Create HintDb returns.

Ltac returns_step :=
  match goal with
  | |- returns (_ ≫= _) => apply returns_bind; [| intros ?]
  | |- returns (mret _) => apply returns_ret
  | |- returns get => apply returns_get
  | |- returns (modify _) => apply returns_modify
  | |- returns io_fault => apply returns_io_fault
  | |- returns (if ?b then _ else _) => destruct b
  | |- returns (match ?x with _ => _ end) => destruct x
  | |- _ => solve [auto with returns]
  end.

Lemma returns_fseek f o : returns (fseek f o).
Proof. unfold fseek. repeat returns_step. Qed.

Lemma returns_fseek_end f : returns (fseek_end f).
Proof. unfold fseek_end. repeat returns_step. Qed.

Lemma returns_ftello f : returns (ftello f).
Proof. unfold ftello. repeat returns_step. Qed.

Lemma returns_fwrite buf f : returns (fwrite buf f).
Proof. unfold fwrite. repeat returns_step. Qed.

#[local] Hint Resolve returns_fseek returns_fseek_end returns_ftello returns_fwrite
  : returns.

Lemma returns_on_record_fp {A} (call : FILE -> M (A * FILE)) :
  (forall f, returns (call f)) -> returns (on_record_fp call).
Proof. intros Hc. unfold on_record_fp. repeat returns_step. Qed.

Lemma returns_Write buf : returns (Write buf).
Proof. unfold Write. repeat returns_step. Qed.

#[local] Hint Resolve returns_on_record_fp returns_Write : returns.

Lemma returns_WriteData buf : returns (WriteData buf).
Proof. unfold WriteData. repeat returns_step. Qed.

Lemma returns_SeekFileEnd : returns SeekFileEnd.
Proof. unfold SeekFileEnd. repeat returns_step. Qed.

#[local] Hint Resolve returns_WriteData returns_SeekFileEnd : returns.

Lemma returns_write_ids attr_ids : returns (write_ids attr_ids).
Proof. induction attr_ids; simpl; repeat returns_step. Qed.

Lemma returns_write_file_attrs attr_ids : forall o, returns (write_file_attrs attr_ids o).
Proof. induction attr_ids; intros o; simpl; repeat returns_step. Qed.

Lemma returns_write_records rs : returns (write_records rs).
Proof. induction rs; simpl; repeat returns_step. Qed.

Lemma returns_write_args cmdline : returns (write_args cmdline).
Proof. induction cmdline; simpl; repeat returns_step. Qed.

#[local] Hint Resolve returns_write_ids returns_write_file_attrs returns_write_records
  returns_write_args : returns.

Lemma returns_WriteAttrSection attr_ids : returns (WriteAttrSection attr_ids).
Proof. unfold WriteAttrSection. repeat returns_step. Qed.

Lemma returns_WriteFeatureHeader n : returns (WriteFeatureHeader n).
Proof. unfold WriteFeatureHeader. repeat returns_step. Qed.

Lemma returns_WriteFeatureEnd feature start_offset :
  returns (WriteFeatureEnd feature start_offset).
Proof. unfold WriteFeatureEnd. repeat returns_step. Qed.

(** ** WriteAttrSection *)

#[local] Instance layout_ignores_fp : IgnoresFp layout.
Proof. intros f w; reflexivity. Qed.
#[local] Instance layout_ignores_faults : IgnoresFaults layout.
Proof. intros l w; reflexivity. Qed.

Section AttrFrame.

Context {X : Type} (g : RecordFileWriter -> X) `{!IgnoresFaults g} `{!IgnoresFp g}.

Lemma keeps_write_ids attr_ids : keeps g (write_ids attr_ids).
Proof. induction attr_ids; simpl; repeat keeps_step. Qed.

Lemma keeps_write_file_attrs attr_ids : forall o, keeps g (write_file_attrs attr_ids o).
Proof. induction attr_ids; intros o; simpl; repeat keeps_step. Qed.

Lemma keeps_write_records rs : keeps g (write_records rs).
Proof. induction rs; simpl; repeat keeps_step. Qed.

Lemma keeps_write_args cmdline : keeps g (write_args cmdline).
Proof. induction cmdline; simpl; repeat keeps_step. Qed.

Lemma keeps_SeekFileEnd : keeps g SeekFileEnd.
Proof. unfold SeekFileEnd. repeat keeps_step. Qed.

End AttrFrame.

#[local] Hint Resolve keeps_write_ids keeps_write_file_attrs keeps_write_records
  keeps_write_args keeps_SeekFileEnd : keeps.

Lemma write_file_attrs_true attr_ids : forall o w w',
  write_file_attrs attr_ids o w = Ret true w' ->
  no_fault_between w w' /\ (f_pos (record_fp_ w) <= f_pos (record_fp_ w'))%nat.
Proof.
  induction attr_ids as [|attr_id rest IH]; intros o w w' E; simpl in E.
  - inversion E; subst. split; [apply no_fault_between_refl | lia].
  - apply bind_Ret in E as (ok & w1 & E1 & E). destruct ok; simpl in E; [|discriminate].
    apply Write_true in E1 as (N1 & F1 & _). apply IH in E as (N2 & P2).
    split; [eapply no_fault_between_trans; eassumption|].
    rewrite F1, file_write_pos in P2. lia.
Qed.

Lemma write_ids_true attr_ids : forall w w',
  write_ids attr_ids w = Ret true w' -> no_fault_between w w'.
Proof.
  induction attr_ids as [|attr_id rest IH]; intros w w' E; simpl in E.
  - inversion E; subst. apply no_fault_between_refl.
  - apply bind_Ret in E as (ok & w1 & E1 & E). destruct ok; simpl in E; [|discriminate].
    apply Write_true in E1 as (N1 & _). apply IH in E.
    eapply no_fault_between_trans; eassumption.
Qed.

Lemma on_record_fp_fseek_Ret o w rc w' :
  on_record_fp (fun f => fseek f o) w = Ret rc w' ->
  rc = -1 \/
  (rc = 0 /\ no_fault_between w w' /\ 0 <= to_long o /\
   w' = set_record_fp (mkFILE (f_data (record_fp_ w)) (Z.to_nat (to_long o)))
          (set_io_faults (tail (io_faults w)) w)).
Proof.
  intros E. apply on_record_fp_Ret in E as (f & w1 & E & ->).
  apply fseek_Ret in E as (-> & [(-> & ->)|(-> & Hhd & Ho & ->)]); [left; reflexivity|].
  right. repeat split; auto. apply no_fault_between_fp, no_fault_step, Hhd.
Qed.

Lemma ftello_ok f w z w' :
  ftello f w = Ret z w' -> (z =? -1) = false ->
  no_fault_between w w' /\ z = Z.of_nat (f_pos f) /\ z < 2 ^ 63 /\
  record_fp_ w' = record_fp_ w.
Proof.
  intros E Hz. apply ftello_Ret in E as (-> & [->|(-> & Hlt & Hhd)]); [discriminate|].
  repeat split; auto. apply no_fault_step, Hhd.
Qed.

(** The steps of a successful [WriteAttrSection]. *)
Lemma WriteAttrSection_true attr_ids w w' :
  WriteAttrSection attr_ids w = Ret true w' ->
  no_fault_between w w' /\
  exists first, head attr_ids = Some first /\ event_attr_ w' = attr first /\
                contiguous w'.
Proof.
  unfold WriteAttrSection. destruct attr_ids as [|first rest]; [discriminate|].
  change (head (first :: rest)) with (Some first).
  remember (first :: rest) as attr_ids eqn:Hids. clear Hids. intros E.
  apply bind_Ret in E as (rc & w1 & E1 & E).
  apply on_record_fp_fseek_Ret in E1 as [->|(-> & N1 & _ & _)]; [discriminate|].
  simpl in E. apply bind_Ret in E as (w0 & w1' & E0 & E). inversion E0; subst w0 w1'.
  apply bind_Ret in E as (ido & w2 & E2 & E).
  destruct (ido =? -1) eqn:Hido; [discriminate|].
  apply ftello_ok in E2 as (N2 & _ & _ & _); [|exact Hido].
  apply bind_Ret in E as (ok & w3 & E3 & E). destruct ok; simpl in E; [|discriminate].
  apply write_ids_true in E3 as N3.
  apply bind_Ret in E as (w0 & w3' & E0' & E). inversion E0'; subst w0 w3'.
  apply bind_Ret in E as (aso & w4 & E4 & E).
  destruct (aso =? -1) eqn:Haso; [discriminate|].
  apply ftello_ok in E4 as (N4 & Pa & La & F4); [|exact Haso].
  apply bind_Ret in E as (ok & w5 & E5 & E). destruct ok; simpl in E; [|discriminate].
  apply write_file_attrs_true in E5 as (N5 & P5).
  apply bind_Ret in E as (w0 & w5' & E0'' & E). inversion E0''; subst w0 w5'.
  apply bind_Ret in E as (dso & w6 & E6 & E).
  destruct (dso =? -1) eqn:Hdso; [discriminate|].
  apply ftello_ok in E6 as (N6 & Pd & Ld & F6); [|exact Hdso].
  apply bind_Ret in E as ([] & w7 & E7 & E). inversion E7; subst w7. inversion E; subst w'.
  split.
  - change (no_fault_between w w6).
    repeat (eapply no_fault_between_trans; [eassumption|]). apply no_fault_between_refl.
  - exists first. split; [reflexivity|]. split; [reflexivity|].
    unfold contiguous; simpl. rewrite F4 in P5. unfold wrap64.
    rewrite !Z.mod_small by lia. lia.
Qed.

Lemma WriteAttrSection_false attr_ids w w' :
  WriteAttrSection attr_ids w = Ret false w' -> layout w' = layout w.
Proof.
  unfold WriteAttrSection. destruct attr_ids as [|first rest].
  { intros E; inversion E; reflexivity. }
  remember (first :: rest) as attr_ids eqn:Hids. clear Hids. intros E.
  apply bind_Ret in E as (rc & w1 & E1 & E).
  apply (keeps_on_record_fp layout) in E1; [|auto with keeps]. rewrite <- E1.
  destruct (rc =? -1). { inversion E; reflexivity. }
  apply bind_Ret in E as (w0 & w1' & E0 & E). inversion E0; subst w0 w1'.
  apply bind_Ret in E as (ido & w2 & E2 & E).
  apply (keeps_ftello layout) in E2. rewrite <- E2.
  destruct (ido =? -1). { inversion E; reflexivity. }
  apply bind_Ret in E as (ok & w3 & E3 & E).
  apply (keeps_write_ids layout) in E3. rewrite <- E3.
  destruct ok; simpl in E; [|inversion E; reflexivity].
  apply bind_Ret in E as (w0 & w3' & E0' & E). inversion E0'; subst w0 w3'.
  apply bind_Ret in E as (aso & w4 & E4 & E).
  apply (keeps_ftello layout) in E4. rewrite <- E4.
  destruct (aso =? -1). { inversion E; reflexivity. }
  apply bind_Ret in E as (ok & w5 & E5 & E).
  apply (keeps_write_file_attrs layout) in E5. rewrite <- E5.
  destruct ok; simpl in E; [|inversion E; reflexivity].
  apply bind_Ret in E as (w0 & w5' & E0'' & E). inversion E0''; subst w0 w5'.
  apply bind_Ret in E as (dso & w6 & E6 & E).
  apply (keeps_ftello layout) in E6. rewrite <- E6.
  destruct (dso =? -1). { inversion E; reflexivity. }
  apply bind_Ret in E as ([] & w7 & E7 & E). inversion E.
Qed.

(** C7. [WriteAttrSection] returns [false] for an empty list, without
    touching the writer. It always returns, and when it returns [false] the
    section offsets and the retained attribute are what they were before the
    call. It returns [true] only when the environment has failed none of its
    libc calls, and only then are the offsets and the attribute (of the first
    entry) assigned. *)
Theorem WriteAttrSection_failure_leaves_layout :
  (forall w, WriteAttrSection [] w = Ret false w) /\
  (forall attr_ids w, exists b w', WriteAttrSection attr_ids w = Ret b w') /\
  (forall attr_ids w w',
     WriteAttrSection attr_ids w = Ret false w' ->
     attr_section_offset_ w' = attr_section_offset_ w /\
     attr_section_size_ w' = attr_section_size_ w /\
     data_section_offset_ w' = data_section_offset_ w /\
     event_attr_ w' = event_attr_ w) /\
  (forall attr_ids w w',
     WriteAttrSection attr_ids w = Ret true w' ->
     no_fault_between w w' /\
     exists first, head attr_ids = Some first /\ event_attr_ w' = attr first).
Proof.
  split; [reflexivity|]. split; [apply returns_WriteAttrSection|]. split.
  - intros attr_ids w w' E. apply WriteAttrSection_false in E.
    unfold layout in E. inversion E. auto.
  - intros attr_ids w w' E. apply WriteAttrSection_true in E as (N & first & Hf & Ha & _).
    eauto.
Qed.

(** ** The layout is left alone by the other methods *)

Lemma keeps_layout_WriteData buf : keeps layout (WriteData buf).
Proof. unfold WriteData. repeat keeps_step. Qed.

#[local] Hint Resolve keeps_layout_WriteData : keeps.

Lemma keeps_layout_WriteRecord_loop fuel : forall p left_bytes,
  keeps layout (WriteRecord_loop fuel p left_bytes).
Proof. induction fuel; intros p left_bytes; simpl; repeat keeps_step. Qed.

#[local] Hint Resolve keeps_layout_WriteRecord_loop : keeps.

Lemma keeps_layout_WriteRecord r : keeps layout (WriteRecord r).
Proof. unfold WriteRecord. repeat keeps_step. Qed.

Lemma keeps_layout_WriteFeatureHeader n : keeps layout (WriteFeatureHeader n).
Proof. unfold WriteFeatureHeader. repeat keeps_step. Qed.

Lemma keeps_layout_WriteFeatureBegin : keeps layout WriteFeatureBegin.
Proof. unfold WriteFeatureBegin. repeat keeps_step. Qed.

Lemma keeps_layout_WriteFeatureEnd feature start_offset :
  keeps layout (WriteFeatureEnd feature start_offset).
Proof. unfold WriteFeatureEnd. repeat keeps_step. Qed.

#[local] Hint Resolve keeps_layout_WriteFeatureBegin keeps_layout_WriteFeatureEnd : keeps.

Lemma perform_contiguous c w b w' :
  perform c w = Ret b w' -> contiguous w -> contiguous w'.
Proof.
  assert (Hl : forall m : M bool, keeps layout m ->
                 m w = Ret b w' -> contiguous w -> contiguous w').
  { intros m Hm E Hc. apply Hm in E. unfold layout in E. inversion E.
    unfold contiguous in *. congruence. }
  destruct c; simpl.
  - destruct b.
    + intros E _. apply WriteAttrSection_true in E as (_ & first & _ & _ & Hc). exact Hc.
    + intros E Hc. apply WriteAttrSection_false in E. unfold layout in E. inversion E.
      unfold contiguous in *. congruence.
  - apply Hl, keeps_layout_WriteRecord.
  - apply Hl, keeps_SortDataSection; typeclasses eauto.
  - apply Hl, keeps_layout_WriteFeatureHeader.
  - apply Hl. unfold WriteBuildIdFeature. repeat keeps_step.
  - apply Hl. unfold WriteFeatureString. repeat keeps_step.
  - apply Hl. unfold WriteCmdlineFeature. repeat keeps_step.
  - apply Hl. unfold WriteBranchStackFeature. repeat keeps_step.
Qed.

Lemma perform_all_contiguous cs : forall w bs w',
  perform_all cs w = Ret bs w' -> contiguous w -> contiguous w'.
Proof.
  induction cs as [|c cs IH]; intros w bs w' E Hc; simpl in E.
  - inversion E; subst; exact Hc.
  - apply bind_Ret in E as (b & w1 & E1 & E).
    apply bind_Ret in E as (bs' & w2 & E2 & E). inversion E; subst.
    eapply IH; [eassumption|]. eapply perform_contiguous; eassumption.
Qed.

(** ** WriteFeatureHeader *)

Lemma to_long_nonneg o : 0 <= to_long o -> to_long o = wrap64 o /\ wrap64 o < 2 ^ 63.
Proof.
  unfold to_long, wrap64.
  pose proof (Z.mod_pos_bound o (2 ^ 64) ltac:(lia)).
  destruct (o mod 2 ^ 64 <? 2 ^ 63) eqn:L; lia.
Qed.

Lemma wrap64_idem z : wrap64 (wrap64 z) = wrap64 z.
Proof. unfold wrap64. apply Z.mod_mod. lia. Qed.

(** The bytes of a stream behind the position of a write are the bytes
    written. *)
Lemma file_write_at f buf :
  drop (f_pos f) (f_data (file_write f buf))
  = buf ++ drop (f_pos f + length buf) (f_data f).
Proof.
  unfold file_write; simpl.
  rewrite drop_app_length'; [reflexivity|].
  rewrite length_take, length_app, length_replicate. lia.
Qed.

Lemma WriteFeatureHeader_true n w w' :
  WriteFeatureHeader n w = Ret true w' ->
  let table := wrap64 (data_section_offset_ w + data_section_size_ w) in
  table < 2 ^ 63 /\
  record_fp_ w' = file_write (mkFILE (f_data (record_fp_ w)) (Z.to_nat table))
                    (replicate (Z.to_nat (wrap64 (n * sizeof_SectionDesc))) x00) /\
  layout w' = layout w /\ data_section_size_ w' = data_section_size_ w /\
  feature_count_ w' = n /\ current_feature_index_ w' = 0.
Proof.
  unfold WriteFeatureHeader. intros E.
  apply bind_Ret in E as ([] & w1 & E1 & E). inversion E1; subst w1; clear E1.
  apply bind_Ret in E as (w0 & w1 & E0 & E). inversion E0; subst w0 w1; clear E0.
  apply bind_Ret in E as (rc & w1 & E1 & E).
  apply on_record_fp_fseek_Ret in E1 as [->|(-> & _ & Ho & ->)]; [discriminate|].
  cbn [Z.eqb] in E. simpl in Ho.
  apply to_long_nonneg in Ho as (Ho & Hlt). rewrite wrap64_idem in Ho, Hlt.
  apply Write_Ret in E as (-> & _ & _). simpl.
  rewrite Ho. repeat split; auto.
Qed.

(** C6. After any sequence of calls on a fresh writer, whatever the calls
    returned, [data_section_offset_] is [attr_section_offset_] plus
    [attr_section_size_]; a successful [WriteAttrSection] establishes it. A
    successful [WriteFeatureHeader] leaves both data section fields alone and
    puts the zeroed descriptor table at the offset that
    [data_section_offset_ + data_section_size_] comes to in 64 bits, the
    position ending up right behind the table. *)
Theorem sections_contiguous :
  (forall fp a env cs bs w,
     perform_all cs (RecordFileWriter_new fp a env) = Ret bs w ->
     data_section_offset_ w = attr_section_offset_ w + attr_section_size_ w) /\
  (forall attr_ids w w',
     WriteAttrSection attr_ids w = Ret true w' ->
     data_section_offset_ w' = attr_section_offset_ w' + attr_section_size_ w') /\
  (forall n w w',
     WriteFeatureHeader n w = Ret true w' ->
     let table := wrap64 (data_section_offset_ w + data_section_size_ w) in
     let len := Z.to_nat (wrap64 (n * sizeof_SectionDesc)) in
     (0 <= data_section_offset_ w + data_section_size_ w < 2 ^ 64 ->
      table = data_section_offset_ w + data_section_size_ w) /\
     data_section_offset_ w' = data_section_offset_ w /\
     data_section_size_ w' = data_section_size_ w /\
     take len (drop (Z.to_nat table) (f_data (record_fp_ w'))) = replicate len x00 /\
     f_pos (record_fp_ w') = (Z.to_nat table + len)%nat).
Proof.
  split; [|split].
  - intros fp0 a env cs bs w E.
    apply (perform_all_contiguous _ _ _ _ E). reflexivity.
  - intros attr_ids w w' E.
    apply WriteAttrSection_true in E as (_ & first & _ & _ & Hc). exact Hc.
  - intros n w w' E table len.
    apply WriteFeatureHeader_true in E as (Hlt & Hfp & Hl & Hs & _ & _).
    fold table in Hlt, Hfp. fold len in Hfp.
    split; [intros Hr; unfold table, wrap64; apply Z.mod_small; exact Hr|].
    split; [unfold layout in Hl; inversion Hl; reflexivity|].
    split; [exact Hs|].
    rewrite Hfp. split.
    + change (Z.to_nat table) with (f_pos (mkFILE (f_data (record_fp_ w)) (Z.to_nat table))).
      rewrite file_write_at.
      rewrite take_app_length'; [reflexivity|]. rewrite length_replicate. reflexivity.
    + rewrite file_write_pos, length_replicate. reflexivity.
Qed.

(** ** The count of features written *)

#[local] Instance slots_ignores_fp : IgnoresFp slots.
Proof. intros f w; reflexivity. Qed.
#[local] Instance slots_ignores_faults : IgnoresFaults slots.
Proof. intros l w; reflexivity. Qed.

Lemma counts_feature_false : counts_feature (mret false).
Proof. intros w. exists false, w. auto. Qed.

Lemma counts_feature_guard (payload : M bool) (m : M bool) :
  returns payload -> keeps slots payload -> counts_feature m ->
  counts_feature (ok ← payload; if negb ok then mret false else m).
Proof.
  intros Hr Hk Hm w. destruct (Hr w) as (ok & w1 & E1).
  apply Hk in E1 as K1. unfold slots in K1. injection K1 as Kc Ki.
  rewrite bind_unfold, E1. destruct ok; simpl.
  - destruct (Hm w1) as (b & w' & E & Hc & Hi).
    exists b, w'. rewrite Hc, Hi, Kc, Ki. auto.
  - exists false, w1. auto.
Qed.

Lemma counts_feature_WriteFeatureEnd feature start_offset :
  counts_feature (WriteFeatureEnd feature start_offset).
Proof.
  intros w. unfold WriteFeatureEnd.
  destruct (returns_SeekFileEnd w) as (end_offset & w1 & E1).
  apply (keeps_SeekFileEnd slots) in E1 as K1. unfold slots in K1. injection K1 as Kc Ki.
  rewrite bind_unfold, E1. destruct end_offset as [end_offset|];
    [|exists false, w1; auto].
  rewrite bind_unfold. simpl.
  match goal with
  | |- context [on_record_fp ?call] =>
      destruct (returns_on_record_fp call (fun f => returns_fseek f _) w1)
        as (rc & w2 & E2)
  end.
  apply (keeps_on_record_fp slots) in E2 as K2; [|auto with keeps].
  unfold slots in K2. injection K2 as Kc2 Ki2.
  rewrite bind_unfold, E2. destruct (rc =? -1); [exists false, w2; split; [reflexivity|]; split; congruence|].
  match goal with
  | |- context [Write ?buf] => destruct (returns_Write buf w2) as (ok & w3 & E3)
  end.
  apply (keeps_Write slots) in E3 as K3. unfold slots in K3. injection K3 as Kc3 Ki3.
  rewrite bind_unfold, E3. destruct ok; simpl.
  - eexists true, _. split; [reflexivity|]. simpl. split; congruence.
  - exists false, w3. split; [reflexivity|]. split; congruence.
Qed.

Lemma WriteFeatureBegin_eq w :
  WriteFeatureBegin w =
  if current_feature_index_ w <? feature_count_ w then SeekFileEnd w else Fatal.
Proof.
  unfold WriteFeatureBegin. rewrite bind_unfold. simpl. rewrite bind_unfold.
  unfold CHECK. destruct (_ <? _); reflexivity.
Qed.

(** A method of the shape of the four feature writers: the CHECK of
    [WriteFeatureBegin], then a body that counts the feature. *)
Lemma feature_writer_cases (body : Z -> M bool) w :
  (forall start_offset, counts_feature (body start_offset)) ->
  let m := (start_offset ← WriteFeatureBegin;
            match start_offset with
            | None => mret false
            | Some start_offset => body start_offset
            end) in
  ((current_feature_index_ w <? feature_count_ w) = false /\ m w = Fatal) \/
  ((current_feature_index_ w <? feature_count_ w) = true /\
   exists b w', m w = Ret b w' /\
     feature_count_ w' = feature_count_ w /\
     current_feature_index_ w' =
       if b then wrap64 (current_feature_index_ w + 1) else current_feature_index_ w).
Proof.
  intros Hbody m. unfold m. rewrite bind_unfold, WriteFeatureBegin_eq.
  destruct (current_feature_index_ w <? feature_count_ w); [right | left; auto].
  split; [reflexivity|].
  destruct (returns_SeekFileEnd w) as (start_offset & w1 & E1).
  apply (keeps_SeekFileEnd slots) in E1 as K1. unfold slots in K1. injection K1 as Kc Ki.
  rewrite E1. destruct start_offset as [start_offset|].
  - destruct (Hbody start_offset w1) as (b & w' & E & Hc & Hi).
    exists b, w'. rewrite Hc, Hi, Kc, Ki. auto.
  - exists false, w1. auto.
Qed.

Lemma feature_write_cases c w :
  is_feature_write c = true ->
  ((current_feature_index_ w <? feature_count_ w) = false /\ perform c w = Fatal) \/
  ((current_feature_index_ w <? feature_count_ w) = true /\
   exists b w', perform c w = Ret b w' /\
     feature_count_ w' = feature_count_ w /\
     current_feature_index_ w' =
       if b then wrap64 (current_feature_index_ w + 1) else current_feature_index_ w).
Proof.
  destruct c; try discriminate; intros _; simpl.
  - apply (feature_writer_cases
             (fun s => ok ← write_records build_id_records;
                       if negb ok then mret false else WriteFeatureEnd FEAT_BUILD_ID s)).
    intros s. apply counts_feature_guard;
      auto using counts_feature_WriteFeatureEnd with returns keeps.
  - apply (feature_writer_cases
             (fun start_offset =>
                ok ← Write (uint32_bytes (wrap32 (Align (Z.of_nat (String.length s) + 1) 64)));
                if negb ok then mret false
                else
                  ok ← Write (padded s (wrap32 (Align (Z.of_nat (String.length s) + 1) 64)));
                  if negb ok then mret false else WriteFeatureEnd feature start_offset)).
    intros start_offset. repeat apply counts_feature_guard;
      auto using counts_feature_WriteFeatureEnd with returns keeps.
  - apply (feature_writer_cases
             (fun start_offset =>
                ok ← Write (uint32_bytes (wrap32 (Z.of_nat (length cmdline))));
                if negb ok then mret false
                else
                  ok ← write_args cmdline;
                  if negb ok then mret false else WriteFeatureEnd FEAT_CMDLINE start_offset)).
    intros start_offset. repeat apply counts_feature_guard;
      auto using counts_feature_WriteFeatureEnd with returns keeps.
  - apply (feature_writer_cases (fun s => WriteFeatureEnd FEAT_BRANCH_STACK s)).
    intros s. apply counts_feature_WriteFeatureEnd.
Qed.

(** Feature writes that all return [true] count themselves. *)
Lemma feature_writes_count cs : forall w bs w',
  Forall (fun c => is_feature_write c = true) cs ->
  0 <= current_feature_index_ w -> feature_count_ w < 2 ^ 64 ->
  perform_all cs w = Ret bs w' ->
  Forall (fun b => b = true) bs ->
  feature_count_ w' = feature_count_ w /\
  current_feature_index_ w' = current_feature_index_ w + Z.of_nat (length cs).
Proof.
  induction cs as [|c cs IH]; intros w bs w' Hcs Hi Hn E Hbs; simpl in E.
  - inversion E; subst. split; [reflexivity | simpl; lia].
  - inversion Hcs as [|? ? Hc Hcs']; subst.
    apply bind_Ret in E as (b & w1 & E1 & E).
    apply bind_Ret in E as (bs' & w2 & E2 & E). inversion E; subst w2 bs; clear E.
    inversion Hbs as [|? ? Hb Hbs']; subst.
    destruct (feature_write_cases c w Hc) as [(_ & F)|(Hlt & b & w1' & F & Kc & Ki)];
      [congruence|].
    rewrite E1 in F. inversion F; subst b w1'; clear F.
    apply Z.ltb_lt in Hlt.
    assert (Ki' : current_feature_index_ w1 = current_feature_index_ w + 1).
    { rewrite Ki. unfold wrap64. apply Z.mod_small. lia. }
    destruct (IH w1 bs' w' Hcs' ltac:(lia) ltac:(lia) E2 Hbs') as (Hc' & Hi').
    split; [congruence|]. rewrite Hi', Ki'. simpl length. lia.
Qed.

(** Feature writes within the declared count meet no failed CHECK. *)
Lemma feature_writes_within_count cs : forall w,
  Forall (fun c => is_feature_write c = true) cs ->
  0 <= current_feature_index_ w ->
  current_feature_index_ w + Z.of_nat (length cs) <= feature_count_ w ->
  exists bs w', perform_all cs w = Ret bs w'.
Proof.
  induction cs as [|c cs IH]; intros w Hcs Hi Hn; simpl.
  - exists [], w. reflexivity.
  - inversion Hcs as [|? ? Hc Hcs']; subst. simpl length in Hn.
    destruct (feature_write_cases c w Hc) as [(Hlt & _)|(_ & b & w1 & F & Kc & Ki)].
    { apply Z.ltb_ge in Hlt. lia. }
    assert (Ki' : 0 <= current_feature_index_ w1 <= current_feature_index_ w + 1).
    { rewrite Ki. destruct b; [|lia]. unfold wrap64.
      pose proof (Z.mod_pos_bound (current_feature_index_ w + 1) (2 ^ 64) ltac:(lia)).
      pose proof (Z.mod_le (current_feature_index_ w + 1) (2 ^ 64) ltac:(lia) ltac:(lia)).
      lia. }
    destruct (IH w1 Hcs' ltac:(lia) ltac:(lia)) as (bs & w' & E).
    exists (b :: bs), w'. rewrite bind_unfold, F, bind_unfold, E. reflexivity.
Qed.

Lemma WriteFeatureHeader_slots n w b w' :
  WriteFeatureHeader n w = Ret b w' ->
  feature_count_ w' = n /\ current_feature_index_ w' = 0.
Proof.
  unfold WriteFeatureHeader. intros E.
  apply bind_Ret in E as ([] & w1 & E1 & E). inversion E1; subst w1; clear E1.
  match type of E with
  | ?m _ = _ => assert (K : keeps slots m) by repeat keeps_step
  end.
  apply K in E. inversion E. auto.
Qed.

(** C8. A feature write made when [current_feature_index_] is not below
    [feature_count_] fails the CHECK of [WriteFeatureBegin]: it is [Fatal],
    not a return value. That is where the writer stands after
    [WriteFeatureHeader n] and [n] feature writes that returned [true], so
    that one more feature write is [Fatal]. After [WriteFeatureHeader n], any
    sequence of at most [n] feature writes returns, whatever the results: the
    CHECK holds in each of them. *)
Theorem feature_count_is_checked :
  (forall c w,
     is_feature_write c = true ->
     feature_count_ w <= current_feature_index_ w ->
     perform c w = Fatal) /\
  (forall n w b w0 cs bs w' c,
     0 <= n < 2 ^ 64 ->
     WriteFeatureHeader n w = Ret b w0 ->
     Forall (fun c => is_feature_write c = true) cs ->
     Z.of_nat (length cs) = n ->
     perform_all cs w0 = Ret bs w' ->
     Forall (fun b => b = true) bs ->
     is_feature_write c = true ->
     perform c w' = Fatal) /\
  (forall n w b w0 cs,
     WriteFeatureHeader n w = Ret b w0 ->
     Forall (fun c => is_feature_write c = true) cs ->
     Z.of_nat (length cs) <= n ->
     exists bs w', perform_all cs w0 = Ret bs w').
Proof.
  assert (H1 : forall c w, is_feature_write c = true ->
                 feature_count_ w <= current_feature_index_ w -> perform c w = Fatal).
  { intros c w Hc Hle.
    destruct (feature_write_cases c w Hc) as [(_ & F)|(Hlt & _)]; [exact F|].
    apply Z.ltb_lt in Hlt. lia. }
  split; [exact H1|]. split.
  - intros n w b w0 cs bs w' c Hn E Hcs Hlen Eall Hbs Hc.
    apply WriteFeatureHeader_slots in E as (Kc & Ki).
    destruct (feature_writes_count cs w0 bs w' Hcs ltac:(lia) ltac:(lia) Eall Hbs)
      as (Kc' & Ki').
    apply H1; [exact Hc | lia].
  - intros n w b w0 cs E Hcs Hlen.
    apply WriteFeatureHeader_slots in E as (Kc & Ki).
    apply feature_writes_within_count; [exact Hcs | lia | lia].
Qed.

(** ** WriteRecord *)

Lemma wrap64_add_l a b : wrap64 (wrap64 a + b) = wrap64 (a + b).
Proof. unfold wrap64. apply Zplus_mod_idemp_l. Qed.

Lemma wrap32_small z : 0 <= z < 2 ^ 32 -> wrap32 z = z.
Proof. apply Z.mod_small. Qed.

Lemma file_write_app f a b :
  file_write (file_write f a) b = file_write f (a ++ b).
Proof.
  unfold file_write; simpl. f_equal; [|rewrite length_app; lia].
  set (pre := take (f_pos f) (f_data f ++ replicate (f_pos f - length (f_data f)) x00)).
  set (rest := drop (f_pos f + length a) (f_data f)).
  assert (Hpre : (f_pos f + length a)%nat = length (pre ++ a)).
  { unfold pre. rewrite length_app, length_take, length_app, length_replicate. lia. }
  rewrite Hpre.
  replace (pre ++ a ++ rest) with ((pre ++ a) ++ rest) by (rewrite <- app_assoc; reflexivity).
  rewrite <- (app_assoc (pre ++ a) rest), take_app_length, drop_app_add.
  unfold rest. rewrite drop_drop, <- !app_assoc, length_app, Nat.add_assoc.
  reflexivity.
Qed.

Lemma WriteData_Ret buf w ok w' :
  WriteData buf w = Ret ok w' ->
  if ok
  then w' = set_data_section_size (wrap64 (data_section_size_ w + Z.of_nat (length buf)))
              (set_record_fp (file_write (record_fp_ w) buf)
                 (set_io_faults (tail (io_faults w)) w)) /\
       length buf <> 0%nat
  else record_fp_ w' = record_fp_ w /\ data_section_size_ w' = data_section_size_ w.
Proof.
  unfold WriteData. intros E. apply bind_Ret in E as (ok1 & w1 & E1 & E).
  apply (keeps_Write data_section_size_) in E1 as K1.
  apply Write_Ret in E1. destruct ok1; simpl in E.
  - destruct E1 as (-> & _ & Hlen). inversion E; subst. auto.
  - inversion E; subst. auto.
Qed.

Lemma length_header_buf h : length (header_buf h) = header_size.
Proof. apply length_resize. Qed.

Lemma WriteRecord_loop_done fuel p w : WriteRecord_loop fuel p 0 w = Ret true w.
Proof. destruct fuel; reflexivity. Qed.

(** What the loop of [WriteRecord] has done when it has run to its end. *)
Lemma WriteRecord_loop_true fuel : forall p left_bytes w w',
  0 < chunk_size ->
  0 < left_bytes < 2 ^ 32 -> left_bytes <= Z.of_nat (length p) ->
  WriteRecord_loop fuel p left_bytes w = Ret true w' ->
  exists chunks,
    concat chunks = take (Z.to_nat left_bytes) p /\
    Forall (fun c => 0 < Z.of_nat (length c) <= chunk_size) chunks /\
    Z.of_nat (length chunks) = (left_bytes + chunk_size - 1) / chunk_size /\
    record_fp_ w' = file_write (record_fp_ w) (concat (split_record <$> chunks)) /\
    data_section_size_ w' =
      wrap64 (data_section_size_ w + left_bytes
              + Z.of_nat (length chunks) * Z.of_nat header_size).
Proof.
  induction fuel as [|fuel IH]; intros p left_bytes w w' Hc Hl Hp E; simpl in E.
  { destruct (left_bytes >? 0) eqn:G; [discriminate | lia]. }
  destruct (left_bytes >? 0) eqn:G; [|lia].
  fold chunk_size in E.
  assert (Hcs : chunk_size = 65535 - Z.of_nat header_size) by reflexivity.
  rewrite (wrap32_small chunk_size) in E by lia.
  set (n := Z.min chunk_size left_bytes) in *.
  assert (Hn : 0 < n <= left_bytes /\ n <= chunk_size) by (unfold n; lia).
  rewrite (wrap32_small (n + _)) in E by lia.
  rewrite (wrap32_small (left_bytes - n)) in E by lia.
  apply bind_Ret in E as (ok1 & w1 & E1 & E). destruct ok1; simpl in E; [|discriminate].
  apply WriteData_Ret in E1 as (-> & _).
  apply bind_Ret in E as (ok2 & w2 & E2 & E). destruct ok2; simpl in E; [|discriminate].
  apply WriteData_Ret in E2 as (-> & _).
  assert (Hlen : length (take (Z.to_nat n) p) = Z.to_nat n) by (rewrite length_take; lia).
  rewrite Hlen, length_header_buf in E. simpl in E.
  rewrite file_write_app in E.
  replace (header_buf _ ++ take (Z.to_nat n) p) with (split_record (take (Z.to_nat n) p)) in E
    by (unfold split_record; rewrite Hlen, Z2Nat.id by lia; reflexivity).
  assert (Hcase : left_bytes - n = 0 \/ 0 < left_bytes - n) by lia.
  destruct Hcase as [Hz|Hpos].
  - rewrite Hz, WriteRecord_loop_done in E. inversion E; subst w'; clear E. simpl.
    assert (n = left_bytes) by lia.
    exists [take (Z.to_nat n) p]. simpl. rewrite !app_nil_r.
    split; [congruence|]. split; [repeat constructor; lia|].
    split.
    { replace (left_bytes + chunk_size - 1) with (left_bytes - 1 + 1 * chunk_size) by lia.
      rewrite Z.div_add by lia. rewrite Z.div_small; lia. }
    split; [reflexivity|].
    rewrite wrap64_add_l. f_equal. lia.
  - apply IH in E as (chunks & Hcat & Hall & Hcount & Hfp & Hs);
      [| lia | lia | rewrite length_drop; lia].
    simpl in Hfp, Hs.
    assert (n = chunk_size) by lia.
    exists (take (Z.to_nat n) p :: chunks). simpl.
    split.
    { rewrite Hcat, take_take_drop. f_equal. lia. }
    split; [constructor; [lia | exact Hall]|].
    split.
    { replace (left_bytes + chunk_size - 1)
        with (left_bytes - n + chunk_size - 1 + 1 * chunk_size) by lia.
      rewrite Z.div_add by lia. lia. }
    split; [rewrite Hfp, file_write_app; reflexivity|].
    rewrite Hs. rewrite <- !Z.add_assoc, wrap64_add_l.
    rewrite <- !Z.add_assoc, wrap64_add_l. f_equal. lia.
Qed.

Lemma halts_WriteRecord_loop fuel : forall p left_bytes w,
  (Z.to_nat left_bytes < fuel)%nat -> halts (WriteRecord_loop fuel p left_bytes) w.
Proof.
  induction fuel as [|fuel IH]; intros p left_bytes w Hfuel; [lia|]. simpl.
  destruct (left_bytes >? 0) eqn:G; [|apply halts_ret].
  apply halts_bind; [apply halts_WriteData|]. intros ok1 w1 _.
  destruct ok1; simpl; [|apply halts_ret].
  apply halts_bind; [apply halts_WriteData|]. intros ok2 w2 E2.
  destruct ok2; simpl; [|apply halts_ret].
  apply WriteData_Ret in E2 as (_ & Hlen). rewrite length_take in Hlen.
  apply IH.
  set (n := Z.min _ left_bytes) in *.
  assert (0 < n <= left_bytes) by lia.
  pose proof (Z.mod_le (left_bytes - n) (2 ^ 32) ltac:(lia) ltac:(lia)).
  pose proof (Z.mod_pos_bound (left_bytes - n) (2 ^ 32) ltac:(lia)).
  unfold wrap32. lia.
Qed.

Lemma halts_WriteRecord r w : halts (WriteRecord r) w.
Proof.
  unfold WriteRecord. destruct (size r <=? RECORD_SIZE_LIMIT).
  - apply halts_bind; [apply halts_WriteData | intros; apply halts_ret].
  - apply halts_bind; [apply halts_CHECK|]. intros [] w1 _.
    apply halts_bind; [apply halts_WriteRecord_loop; lia|]. intros ok w2 _.
    destruct ok; simpl; [apply halts_WriteData | apply halts_ret].
Qed.

(** A successful call for an oversized record. *)
Lemma WriteRecord_oversized r w w' :
  0 < chunk_size ->
  RECORD_SIZE_LIMIT < size r < 2 ^ 32 ->
  WriteRecord r w = Ret true w' ->
  exists chunks,
    concat chunks = Binary r /\
    Forall (fun c => 0 < Z.of_nat (length c) <= chunk_size) chunks /\
    Z.of_nat (length chunks) = (size r + chunk_size - 1) / chunk_size /\
    record_fp_ w' =
      file_write (record_fp_ w) (concat (split_record <$> chunks) ++ split_end_record) /\
    data_section_size_ w' =
      wrap64 (data_section_size_ w + size r
              + (Z.of_nat (length chunks) + 1) * Z.of_nat header_size).
Proof.
  intros Hc Hs E. unfold WriteRecord in E.
  destruct (size r <=? RECORD_SIZE_LIMIT) eqn:L; [lia|].
  apply bind_Ret in E as ([] & w0 & E0 & E).
  unfold CHECK in E0. destruct (type r >? _); inversion E0; subst w0; clear E0.
  unfold RECORD_SIZE_LIMIT in Hs.
  rewrite (wrap32_small (size r)) in E by lia.
  apply bind_Ret in E as (ok & w1 & E1 & E). destruct ok; simpl in E; [|discriminate].
  apply WriteRecord_loop_true in E1 as (chunks & Hcat & Hall & Hcount & Hfp & Hd);
    [| exact Hc | lia | unfold size; lia].
  apply WriteData_Ret in E as (-> & _). simpl.
  exists chunks. split.
  { rewrite Hcat. apply take_ge. unfold size. lia. }
  split; [exact Hall|]. split; [exact Hcount|]. split.
  - rewrite Hfp, file_write_app. reflexivity.
  - rewrite Hd, length_header_buf, wrap64_add_l. f_equal. lia.
Qed.

(** C3. A successful [WriteRecord] of a record of more than 65535 bytes (a
    size that fits the 32 bits of [left_bytes], with headers shorter than the
    limit) has written, at the position of the stream, a sequence of SPLIT
    records and one SPLIT_END record made of a header only. Every SPLIT
    record is a header whose size field is the size of the record, at most
    65535, and a chunk of at least one and at most 65535 minus the header
    size bytes; there are as few chunks as that allows, and in sequence they
    are the binary image of the record. *)
Theorem WriteRecord_split (r : record) (w w' : RecordFileWriter) :
  Z.of_nat header_size < RECORD_SIZE_LIMIT ->
  RECORD_SIZE_LIMIT < size r < 2 ^ 32 ->
  WriteRecord r w = Ret true w' ->
  exists chunks : list (list byte),
    record_fp_ w' =
      file_write (record_fp_ w) (concat (split_record <$> chunks) ++ split_end_record) /\
    concat chunks = Binary r /\
    Forall (fun c => 0 < Z.of_nat (length c) <= RECORD_SIZE_LIMIT - Z.of_nat header_size /\
                     Z.of_nat (length (split_record c)) <= RECORD_SIZE_LIMIT) chunks /\
    Z.of_nat (length chunks) = (size r + chunk_size - 1) / chunk_size /\
    length split_end_record = header_size.
Proof.
  intros Hh Hs E.
  apply WriteRecord_oversized in E as (chunks & Hcat & Hall & Hcount & Hfp & _);
    [| unfold chunk_size; lia | exact Hs].
  exists chunks. split; [exact Hfp|]. split; [exact Hcat|]. split; [|split].
  - eapply Forall_impl; [exact Hall|]. intros c Hcl. unfold chunk_size in Hcl.
    split; [exact Hcl|]. unfold split_record.
    rewrite length_app, length_header_buf. lia.
  - exact Hcount.
  - apply length_header_buf.
Qed.

(** C10. A successful [WriteRecord] of a record of [S > 65535] bytes adds
    to [data_section_size_], in its 64 bits, the [S] bytes, a header for each
    of the [ceil (S / (65535 - header size))] chunks and the header of the
    SPLIT_END record. For a record of at most 65535 bytes whose bytes have
    been written to the stream it adds [S]. *)
Theorem WriteRecord_data_section_size (r : record) (w w' : RecordFileWriter) :
  Z.of_nat header_size < RECORD_SIZE_LIMIT ->
  size r < 2 ^ 32 ->
  0 <= data_section_size_ w < 2 ^ 64 ->
  WriteRecord r w = Ret true w' ->
  (RECORD_SIZE_LIMIT < size r ->
   data_section_size_ w' =
     wrap64 (data_section_size_ w + size r
             + ((size r + chunk_size - 1) / chunk_size + 1) * Z.of_nat header_size)) /\
  (size r <= RECORD_SIZE_LIMIT ->
   record_fp_ w' = file_write (record_fp_ w) (Binary r) ->
   data_section_size_ w' = wrap64 (data_section_size_ w + size r)).
Proof.
  intros Hh Hs Hd E. split.
  - intros Hbig.
    apply WriteRecord_oversized in E as (chunks & _ & _ & Hcount & _ & Hdss);
      [| unfold chunk_size; lia | lia].
    rewrite Hdss, Hcount. reflexivity.
  - intros Hsmall Hfp. unfold WriteRecord in E.
    destruct (size r <=? RECORD_SIZE_LIMIT) eqn:L; [|lia].
    apply bind_Ret in E as (ok & w1 & E1 & E). inversion E; subst w1; clear E.
    apply WriteData_Ret in E1. destruct ok.
    + destruct E1 as (-> & _). reflexivity.
    + destruct E1 as (Hsame & Hdss). rewrite Hsame in Hfp.
      apply (f_equal f_pos) in Hfp. rewrite file_write_pos in Hfp.
      assert (Hz : size r = 0) by (unfold size; lia).
      rewrite Hdss, Hz, Z.add_0_r. unfold wrap64. rewrite Z.mod_small; [reflexivity | exact Hd].
Qed.

(** ** WriteFeatureString *)

#[local] Instance table_slot_ignores_fp : IgnoresFp table_slot.
Proof. intros f w; reflexivity. Qed.
#[local] Instance table_slot_ignores_faults : IgnoresFaults table_slot.
Proof. intros l w; reflexivity. Qed.

Lemma length_list_byte_of_string s :
  length (list_byte_of_string s) = String.length s.
Proof.
  unfold list_byte_of_string. rewrite length_map.
  induction s as [|a s IH]; simpl; [reflexivity | rewrite IH; reflexivity].
Qed.

Lemma Align_64 v :
  Align v 64 mod 64 = 0 /\ v <= Align v 64 < v + 64.
Proof.
  unfold Align. split; [apply Z.mod_mul; lia|].
  pose proof (Z.div_mod (v + 64 - 1) 64 ltac:(lia)).
  pose proof (Z.mod_pos_bound (v + 64 - 1) 64 ltac:(lia)). lia.
Qed.

Lemma file_write_end f buf :
  f_pos f = length (f_data f) -> f_data (file_write f buf) = f_data f ++ buf.
Proof.
  intros Hp. unfold file_write; simpl. rewrite Hp, Nat.sub_diag. simpl.
  rewrite app_nil_r, take_ge, drop_ge by lia. rewrite app_nil_r. reflexivity.
Qed.

Lemma file_write_inside f buf :
  (f_pos f + length buf <= length (f_data f))%nat ->
  f_data (file_write f buf)
  = take (f_pos f) (f_data f) ++ buf ++ drop (f_pos f + length buf) (f_data f).
Proof.
  intros Hp. unfold file_write; simpl.
  replace (f_pos f - length (f_data f))%nat with 0%nat by lia.
  simpl. rewrite app_nil_r. reflexivity.
Qed.

Lemma SeekFileEnd_Some w o w' :
  SeekFileEnd w = Ret (Some o) w' ->
  o = Z.of_nat (length (f_data (record_fp_ w))) /\
  record_fp_ w' = mkFILE (f_data (record_fp_ w)) (length (f_data (record_fp_ w))).
Proof.
  unfold SeekFileEnd. intros E.
  apply bind_Ret in E as (rc & w1 & E1 & E).
  apply on_record_fp_Ret in E1 as (f & w2 & E1 & ->).
  apply fseek_end_Ret in E1 as (-> & [(-> & ->)|(-> & _ & ->)]); [discriminate|].
  cbn [Z.eqb] in E.
  apply bind_Ret in E as (w0 & w1 & E0 & E). inversion E0; subst w0 w1; clear E0.
  apply bind_Ret in E as (z & w1 & E1 & E).
  destruct (z =? -1) eqn:Hz; [discriminate|].
  apply ftello_ok in E1 as (_ & Hzv & Hlt & Hfp); [|exact Hz].
  inversion E; subst; clear E. simpl in *.
  split; [|exact Hfp]. unfold wrap64. apply Z.mod_small. lia.
Qed.

Lemma uint32_bytes_length z : length (uint32_bytes z) = 4%nat.
Proof. reflexivity. Qed.

Lemma SectionDesc_bytes_length d : length (SectionDesc_bytes d) = 16%nat.
Proof. reflexivity. Qed.

(** C9. After a successful [WriteFeatureString] for [s] (a string whose
    padded length fits the 32 bits of the prefix, written when the slot of
    its descriptor lies in the stream already), the stream ends with the
    payload of the feature, which starts at the former end of the stream: the
    four bytes of the length [len], which is the length of [s] plus one
    rounded up to a multiple of 64, the characters of [s], and zero bytes up
    to [len]. The descriptor written at the slot has this start and the size
    [4 + len]. *)
Theorem WriteFeatureString_payload (feature : Z) (s : string)
    (w w' : RecordFileWriter) :
  Z.of_nat (String.length s) + 64 < 2 ^ 32 ->
  table_slot w + sizeof_SectionDesc <= Z.of_nat (length (f_data (record_fp_ w))) ->
  WriteFeatureString feature s w = Ret true w' ->
  let len := Align (Z.of_nat (String.length s) + 1) 64 in
  let start := length (f_data (record_fp_ w)) in
  drop start (f_data (record_fp_ w'))
    = uint32_bytes len ++ list_byte_of_string s
      ++ replicate (Z.to_nat len - String.length s) x00 /\
  Z.of_nat (length (list_byte_of_string s
                    ++ replicate (Z.to_nat len - String.length s) x00)) = len /\
  len mod 64 = 0 /\
  Z.of_nat (String.length s) + 1 <= len < Z.of_nat (String.length s) + 1 + 64 /\
  take 16 (drop (Z.to_nat (table_slot w)) (f_data (record_fp_ w')))
    = SectionDesc_bytes (mkSectionDesc (Z.of_nat start) (4 + len)).
Proof.
  intros Hfit Hslot E len start.
  destruct (Align_64 (Z.of_nat (String.length s) + 1)) as (Hmod & Hlen).
  fold len in Hmod, Hlen.
  assert (Hslot0 : 0 <= table_slot w).
  { unfold table_slot, wrap64. apply Z.mod_pos_bound. lia. }
  unfold WriteFeatureString in E. fold len in E.
  rewrite (wrap32_small len) in E by lia.
  apply bind_Ret in E as (so & w1 & E1 & E).
  rewrite WriteFeatureBegin_eq in E1.
  destruct (current_feature_index_ w <? feature_count_ w); [|discriminate].
  destruct so as [start_offset|]; [|discriminate].
  apply (keeps_SeekFileEnd table_slot) in E1 as K1.
  apply SeekFileEnd_Some in E1 as (Hstart & F1).
  apply bind_Ret in E as (ok & w2 & E2 & E). destruct ok; simpl in E; [|discriminate].
  apply (keeps_Write table_slot) in E2 as K2.
  apply Write_true in E2 as (_ & F2 & _).
  apply bind_Ret in E as (ok & w3 & E3 & E). destruct ok; simpl in E; [|discriminate].
  apply (keeps_Write table_slot) in E3 as K3.
  apply Write_true in E3 as (_ & F3 & _).
  rewrite F2, F1, file_write_app in F3.
  assert (Hpad : padded s len = list_byte_of_string s
                                ++ replicate (Z.to_nat len - String.length s) x00).
  { unfold padded. rewrite resize_ge by (rewrite length_list_byte_of_string; lia).
    rewrite length_list_byte_of_string. reflexivity. }
  rewrite Hpad in F3.
  set (payload := uint32_bytes len ++ list_byte_of_string s
                  ++ replicate (Z.to_nat len - String.length s) x00) in *.
  assert (Hpl : Z.of_nat (length payload) = 4 + len).
  { unfold payload. rewrite !length_app, length_replicate, length_list_byte_of_string,
      uint32_bytes_length. lia. }
  assert (D3 : f_data (record_fp_ w3) = f_data (record_fp_ w) ++ payload).
  { rewrite F3, file_write_end by reflexivity. reflexivity. }
  unfold WriteFeatureEnd in E.
  apply bind_Ret in E as (eo & w4 & E4 & E).
  destruct eo as [end_offset|]; [|discriminate].
  apply (keeps_SeekFileEnd table_slot) in E4 as K4.
  apply SeekFileEnd_Some in E4 as (Hend & F4).
  apply bind_Ret in E as (w0 & w4' & E0 & E). inversion E0; subst w0 w4'; clear E0.
  apply bind_Ret in E as (rc & w5 & E5 & E).
  fold (table_slot w4) in E5.
  apply on_record_fp_fseek_Ret in E5 as [->|(-> & _ & Ho & ->)]; [discriminate|].
  cbn [Z.eqb] in E.
  apply bind_Ret in E as (ok & w6 & E6 & E). destruct ok; simpl in E; [|discriminate].
  apply Write_true in E6 as (_ & F6 & _). simpl in F6.
  apply bind_Ret in E as ([] & w7 & E7 & E). inversion E7; subst w7; clear E7.
  inversion E; subst w'; clear E. simpl.
  assert (Hts : table_slot w4 = table_slot w) by congruence.
  rewrite Hts in *.
  apply to_long_nonneg in Ho as (Ho & _).
  assert (Hw : wrap64 (table_slot w) = table_slot w).
  { unfold table_slot. apply wrap64_idem. }
  rewrite Ho, Hw, F4, D3 in F6.
  assert (Hin : (Z.to_nat (table_slot w) + 16 <= start)%nat).
  { unfold sizeof_SectionDesc in Hslot. unfold start. lia. }
  unfold start in *.
  rewrite F6, file_write_inside
    by (cbn [f_pos f_data]; rewrite length_app, SectionDesc_bytes_length;
        lia).
  cbn [f_pos f_data]. rewrite SectionDesc_bytes_length.
  split; [|split; [|split; [|split]]].
  - rewrite take_app_le, (drop_app_le (f_data (record_fp_ w))) by lia.
    rewrite !app_assoc. apply drop_app_length'.
    rewrite !length_app, length_take, length_drop, SectionDesc_bytes_length.
    lia.
  - rewrite length_app, length_replicate, length_list_byte_of_string. lia.
  - exact Hmod.
  - exact Hlen.
  - rewrite drop_app_length'
      by (rewrite length_take, length_app; lia).
    rewrite take_app_length' by (symmetry; apply SectionDesc_bytes_length).
    rewrite Hend, D3, length_app. subst start_offset.
    repeat f_equal. unfold wrap64. rewrite Z.mod_small; lia.
Qed.

(** ** Records in streams *)

Lemma bytes_of_app l1 l2 : bytes_of (l1 ++ l2) = bytes_of l1 ++ bytes_of l2.
Proof. unfold bytes_of. rewrite fmap_app, concat_app. reflexivity. Qed.

Lemma bytes_of_cons r l : bytes_of (r :: l) = Binary r ++ bytes_of l.
Proof. reflexivity. Qed.

Lemma bytes_of_snoc l r : bytes_of (l ++ [r]) = bytes_of l ++ Binary r.
Proof. rewrite bytes_of_app. unfold bytes_of at 2. simpl. rewrite app_nil_r. reflexivity. Qed.

Lemma bytes_of_lane_le a cpu rs :
  (length (bytes_of (lane a cpu rs)) <= length (bytes_of rs))%nat.
Proof.
  unfold lane. induction rs as [|r rs IH]; [reflexivity|].
  rewrite filter_cons. destruct (decide (Cpu a r = cpu));
    rewrite ?bytes_of_cons, ?length_app; simpl; rewrite ?length_app; lia.
Qed.

Lemma bytes_of_perm l1 l2 :
  l1 ≡ₚ l2 -> length (bytes_of l1) = length (bytes_of l2).
Proof.
  induction 1; rewrite ?bytes_of_cons, ?length_app; simpl; rewrite ?length_app; lia.
Qed.

Lemma record_eta r : mkRecord (Binary r) = r.
Proof. destruct r; reflexivity. Qed.

Lemma file_read_inv f n bs f' :
  file_read f n = Some (bs, f') ->
  bs = take n (drop (f_pos f) (f_data f)) /\ f' = mkFILE (f_data f) (f_pos f + n).
Proof.
  unfold file_read. case_decide; [|discriminate]. intros E; inversion E; auto.
Qed.

(** Reading at the start of a well-formed record yields the record and moves
    behind it. *)
Lemma ReadRecordFromFile_at f w ro f' w' r rest :
  ReadRecordFromFile f w = Ret (ro, f') w' ->
  drop (f_pos f) (f_data f) = Binary r ++ rest ->
  well_formed r ->
  ro = None \/ (ro = Some r /\ f' = mkFILE (f_data f) (f_pos f + length (Binary r))).
Proof.
  intros E Hat ((Hs0 & Hs) & Hsize). unfold ReadRecordFromFile in E.
  apply bind_Ret in E as ([[n pheader] f1] & w1 & E1 & E).
  apply fread_Ret in E1 as [(-> & _ & R1)|(-> & ->)];
    [|inversion E; auto].
  apply file_read_inv in R1 as (-> & ->). cbn [negb Z.eqb] in E.
  rewrite Hat, take_app_le in E by lia. rewrite Hsize in E.
  unfold size in E.
  destruct (Z.of_nat (length (Binary r)) >? Z.of_nat sizeof_perf_event_header) eqn:G.
  - apply bind_Ret in E as ([[n2 payload] f2] & w2 & E2 & E).
    apply fread_Ret in E2 as [(-> & _ & R2)|(-> & ->)];
      [|inversion E; auto].
    apply file_read_inv in R2 as (-> & ->). cbn [negb Z.eqb f_pos f_data] in E.
    apply bind_Ret in E as (w3 & w4 & _ & E). inversion E; subst; clear E.
    right. split.
    + f_equal. unfold ReadRecordFromBuffer.
      assert (Hpay : take (Z.to_nat (Z.of_nat (length (Binary r))
                                     - Z.of_nat sizeof_perf_event_header))
                       (drop (f_pos f + sizeof_perf_event_header) (f_data f))
                     = drop sizeof_perf_event_header (Binary r)).
      { rewrite <- drop_drop, Hat, drop_app_le by lia.
        rewrite take_app_le by (rewrite length_drop; lia).
        apply take_ge. rewrite length_drop. lia. }
      rewrite Hpay, take_drop, Hsize. unfold size. rewrite Nat2Z.id, take_ge by lia.
      apply record_eta.
    + f_equal. lia.
  - apply bind_Ret in E as (w3 & w4 & _ & E). inversion E; subst; clear E.
    assert (Hl : length (Binary r) = sizeof_perf_event_header) by lia.
    right. split.
    + f_equal. unfold ReadRecordFromBuffer.
      rewrite !(take_ge (Binary r) sizeof_perf_event_header) by lia.
      rewrite (take_ge (Binary r) sizeof_perf_event_header) in Hsize by lia.
      rewrite Hsize. unfold size. rewrite Nat2Z.id, take_ge by lia.
      apply record_eta.
    + f_equal. lia.
Qed.

Lemma fopen_scratch_Ret w fo w' :
  fopen_scratch w = Ret fo w' -> fo = None \/ fo = Some (mkFILE [] 0).
Proof.
  unfold fopen_scratch. intros E. apply bind_Ret in E as (bad & w1 & _ & E).
  destruct bad; inversion E; auto.
Qed.

Lemma WriteRecordToFile_true r f w f' w' :
  WriteRecordToFile r f w = Ret (true, f') w' -> f' = file_write f (Binary r).
Proof.
  unfold WriteRecordToFile, fwrite. intros E.
  apply bind_Ret in E as ([n f1] & w1 & E1 & E).
  case_decide.
  - inversion E1; subst. discriminate.
  - apply bind_Ret in E1 as (bad & w2 & _ & E1).
    destruct bad; inversion E1; subst; [discriminate|].
    inversion E; reflexivity.
Qed.

(** ** The merge-ordering queue *)

Lemma ForcedPop_Some a cache m rest :
  ForcedPop a cache = Some (m, rest) ->
  (exists c1 c2, cache = c1 ++ m :: c2 /\ rest = c1 ++ c2) /\
  (forall y, y ∈ cache -> Timestamp a m <= Timestamp a y).
Proof.
  revert m rest. induction cache as [|x cache IH]; intros m rest E; [discriminate|].
  simpl in E. destruct (ForcedPop a cache) as [[m' rest']|] eqn:P.
  - destruct (IH _ _ eq_refl) as ((c1 & c2 & -> & ->) & Hmin).
    destruct (Timestamp a m' <? Timestamp a x) eqn:L; inversion E; subst; clear E.
    + split; [exists (x :: c1), c2; auto|].
      intros y Hy. apply elem_of_cons in Hy as [->|Hy]; [lia | auto].
    + split; [exists [], (c1 ++ m' :: c2); auto|].
      intros y Hy. apply elem_of_cons in Hy as [->|Hy]; [lia|].
      specialize (Hmin y Hy). lia.
  - inversion E; subst; clear E. destruct cache as [|y cache].
    + split; [exists [], []; auto|].
      intros y Hy. apply list_elem_of_singleton in Hy as ->. lia.
    + simpl in P. destruct (ForcedPop a cache) as [[? ?]|];
        [destruct (_ <? _)|]; discriminate.
Qed.

Lemma ForcedPop_None a cache : ForcedPop a cache = None -> cache = [].
Proof.
  destruct cache as [|x cache]; [reflexivity|]. simpl.
  destruct (ForcedPop a cache) as [[? ?]|]; [destruct (_ <? _)|]; discriminate.
Qed.

(** Sequences with the same lanes are permutations of each other. *)
Lemma same_lanes_perm a : forall l1 l2,
  (forall cpu, lane a cpu l1 = lane a cpu l2) -> l1 ≡ₚ l2.
Proof.
  unfold lane. induction l1 as [|x l1 IH]; intros l2 Hl.
  - destruct l2 as [|y l2]; [reflexivity|].
    specialize (Hl (Cpu a y)). rewrite filter_cons_True in Hl by reflexivity.
    discriminate.
  - assert (Hx : x ∈ l2).
    { specialize (Hl (Cpu a x)). rewrite filter_cons_True in Hl by reflexivity.
      assert (Hin : x ∈ filter (fun r => Cpu a r = Cpu a x) l2)
        by (rewrite <- Hl; left).
      apply list_elem_of_filter in Hin. tauto. }
    (* split [l2] at the first record of the cpu of [x] *)
    assert (Hsplit : exists l2a l2b,
               l2 = l2a ++ x :: l2b /\ filter (fun r => Cpu a r = Cpu a x) l2a = []).
    { specialize (Hl (Cpu a x)). rewrite filter_cons_True in Hl by reflexivity.
      clear IH Hx. revert Hl. generalize (filter (fun r => Cpu a r = Cpu a x) l1).
      induction l2 as [|y l2 IH2]; intros tl Hl; [discriminate|].
      rewrite filter_cons in Hl. destruct (decide (Cpu a y = Cpu a x)) as [Hy|Hy].
      - inversion Hl; subst. exists [], l2. auto.
      - destruct (IH2 _ Hl) as (l2a & l2b & -> & Hf).
        exists (y :: l2a), l2b. split; [reflexivity|].
        rewrite filter_cons_False by exact Hy. exact Hf. }
    destruct Hsplit as (l2a & l2b & -> & Hf).
    rewrite <- Permutation_middle. constructor. apply IH. intros cpu.
    specialize (Hl cpu). rewrite filter_app, !filter_cons in Hl. rewrite filter_app.
    destruct (decide (Cpu a x = cpu)) as [<-|Hne]; [|exact Hl].
    rewrite Hf in *. simpl in *. inversion Hl. reflexivity.
Qed.

(** ** SortDataSection on a data section of well-formed records *)

#[local] Instance main_view_ignores_faults : IgnoresFaults main_view.
Proof. intros l w; reflexivity. Qed.

Lemma file_write_append d buf :
  file_write (mkFILE d (length d)) buf = mkFILE (d ++ buf) (length (d ++ buf)).
Proof.
  unfold file_write; simpl. rewrite Nat.sub_diag. simpl.
  rewrite app_nil_r, take_ge, drop_ge, app_nil_r, length_app by lia. reflexivity.
Qed.

(** Writing behind a prefix [x] of a stream replaces what follows. *)
Lemma file_write_behind x t buf :
  file_write (mkFILE (x ++ t) (length x)) buf
  = mkFILE ((x ++ buf) ++ drop (length buf) t) (length (x ++ buf)).
Proof.
  unfold file_write; simpl.
  rewrite <- (app_assoc x t), take_app_length, drop_app_add, <- app_assoc, length_app.
  reflexivity.
Qed.

Section SortCorrect.

Variables (a : perf_event_attr) (rs : list record) (pre post : list byte).

Hypothesis rs_well_formed : Forall well_formed rs.
Hypothesis stream_is_off_t :
  Z.of_nat (length (pre ++ bytes_of rs ++ post)) < 2 ^ 63.

Lemma stream_at_record done r todo :
  rs = done ++ r :: todo ->
  drop (length pre + length (bytes_of done)) (pre ++ bytes_of rs ++ post)
  = Binary r ++ (bytes_of todo ++ post).
Proof.
  intros ->. rewrite bytes_of_app, bytes_of_cons, <- !app_assoc.
  rewrite drop_app_add, drop_app_length. reflexivity.
Qed.

Lemma lane_snoc cpu done r :
  lane a cpu (done ++ [r]) =
  lane a cpu done ++ (if decide (Cpu a r = cpu) then [r] else []).
Proof. unfold lane. rewrite filter_app. reflexivity. Qed.

Lemma lane_bound cpu l l' :
  rs = l ++ l' -> Z.of_nat (length (bytes_of (lane a cpu l))) < 2 ^ 63.
Proof.
  intros ->. pose proof (bytes_of_lane_le a cpu l) as Hle.
  rewrite bytes_of_app, !length_app in stream_is_off_t. lia.
Qed.

Lemma partition_loop_true fuel : forall done todo cur_size cpu_map w cpu_map' w',
  rs = done ++ todo ->
  event_attr_ w = a ->
  data_section_size_ w = Z.of_nat (length (bytes_of rs)) ->
  record_fp_ w = mkFILE (pre ++ bytes_of rs ++ post)
                   (length pre + length (bytes_of done)) ->
  cur_size = Z.of_nat (length (bytes_of done)) ->
  partitioned a done cpu_map ->
  partition_loop fuel cur_size cpu_map w = Ret (true, cpu_map') w' ->
  partitioned a rs cpu_map' /\
  record_fp_ w' = mkFILE (pre ++ bytes_of rs ++ post)
                    (length pre + length (bytes_of rs)).
Proof.
  induction fuel as [|fuel IH];
    intros done todo cur_size cpu_map w cpu_map' w' Hrs Ha Hdss Hfp Hcur Hpart E.
  - simpl in E. apply bind_Ret in E as (w0 & w1 & E0 & E).
    inversion E0; subst w0 w1; clear E0.
    destruct (cur_size <? data_section_size_ w) eqn:L; [discriminate|].
    inversion E; subst cpu_map' w'; clear E.
    destruct todo as [|r todo].
    + rewrite app_nil_r in Hrs. subst done. auto.
    + exfalso. assert (Hr : well_formed r).
      { rewrite Forall_forall in rs_well_formed. apply rs_well_formed.
        rewrite Hrs. apply elem_of_app. right. left. }
      destruct Hr as ((? & ?) & _).
      rewrite Hrs, bytes_of_app, bytes_of_cons, !length_app in Hdss. lia.
  - simpl in E. apply bind_Ret in E as (w0 & w1 & E0 & E).
    inversion E0; subst w0 w1; clear E0.
    destruct todo as [|r todo].
    { rewrite app_nil_r in Hrs. subst done.
      destruct (cur_size <? data_section_size_ w) eqn:L; [lia|].
      inversion E; subst cpu_map' w'; clear E. auto. }
    assert (Hr : well_formed r).
    { rewrite Forall_forall in rs_well_formed. apply rs_well_formed.
      rewrite Hrs. apply elem_of_app. right. left. }
    destruct (cur_size <? data_section_size_ w) eqn:L.
    2:{ exfalso. destruct Hr as ((? & ?) & _).
        rewrite Hrs, bytes_of_app, bytes_of_cons, !length_app in Hdss. lia. }
    apply bind_Ret in E as (ro & w1 & E1 & E).
    apply on_record_fp_Ret in E1 as (f & w2 & E1 & ->).
    apply (keeps_ReadRecordFromFile main_view) in E1 as K1.
    eapply ReadRecordFromFile_at in E1 as [Hro|(Hro & Hf)];
      [ | | rewrite Hfp; apply stream_at_record; exact Hrs | exact Hr];
      subst ro; [discriminate|]. subst f.
    rewrite Ha in E. set (cpu := Cpu a r) in *.
    apply bind_Ret in E as (cdo & w3 & E3 & E).
    match type of E3 with
    | ?m _ = _ => assert (K3 : keeps main_view m) by repeat keeps_step
    end.
    apply K3 in E3 as K3'.
    assert (Hcd : cdo = None \/ cdo = Some (open_entry (lane a cpu done))).
    { specialize (Hpart cpu). destruct (cpu_map !! cpu) as [cd|] eqn:Hl.
      - inversion E3; subst cdo. right. unfold scratch_entry in Hpart.
        destruct (lane a cpu done); [discriminate | exact Hpart].
      - unfold scratch_entry in Hpart. destruct (lane a cpu done); [|discriminate].
        apply bind_Ret in E3 as (fo & w5 & Eo & E3). inversion E3; subst cdo.
        apply fopen_scratch_Ret in Eo as [->| ->]; auto. }
    clear E3 K3. destruct Hcd as [->| ->]; [discriminate|].
    apply bind_Ret in E as ([ok f3] & w4 & E4 & E).
    apply (keeps_WriteRecordToFile main_view) in E4 as K4.
    destruct ok; [|discriminate]. cbn [negb] in E.
    apply WriteRecordToFile_true in E4 as ->.
    assert (Hv : main_view w4 = main_view (set_record_fp
                   (mkFILE (f_data (record_fp_ w))
                      (f_pos (record_fp_ w) + length (Binary r))) w))
      by (rewrite K4, K3'; unfold main_view in *; simpl; congruence).
    unfold main_view in Hv. simpl in Hv. injection Hv as Hfp4 Ha4 Hd4.
    eapply (IH (done ++ [r]) todo) in E; [exact E | | | | | |].
    + rewrite <- app_assoc. exact Hrs.
    + congruence.
    + congruence.
    + rewrite Hfp4, Hfp. simpl. rewrite bytes_of_snoc, length_app. f_equal. lia.
    + rewrite Hcur, bytes_of_snoc, length_app. unfold size, wrap64.
      rewrite Hrs in stream_is_off_t.
      rewrite bytes_of_app, bytes_of_cons, !length_app in stream_is_off_t.
      rewrite Z.mod_small; lia.
    + intros c. rewrite lane_snoc. fold cpu.
      destruct (decide (cpu = c)) as [<-|Hne].
      * rewrite lookup_insert_eq. unfold scratch_entry.
        destruct (lane a cpu done ++ [r]) eqn:Hl;
          [destruct (lane a cpu done); discriminate|].
        rewrite <- Hl. f_equal. unfold open_entry. simpl.
        rewrite file_write_append, bytes_of_snoc. f_equal.
        pose proof (lane_bound cpu (done ++ [r]) todo
                      ltac:(rewrite <- app_assoc; exact Hrs)) as Hb.
        rewrite lane_snoc in Hb. fold cpu in Hb.
        rewrite decide_True, bytes_of_snoc in Hb by reflexivity.
        rewrite length_app in Hb |- *. unfold size, wrap64.
        rewrite Z.mod_small; lia.
      * rewrite lookup_insert_ne by exact Hne. rewrite app_nil_r. apply Hpart.
Qed.

Lemma lane_elem cpu l r : r ∈ lane a cpu l -> Cpu a r = cpu /\ r ∈ l.
Proof. unfold lane. intros Hr. apply list_elem_of_filter in Hr. exact Hr. Qed.

Lemma lane_well_formed cpu r : r ∈ lane a cpu rs -> well_formed r.
Proof.
  intros Hr. apply lane_elem in Hr as (_ & Hr).
  rewrite Forall_forall in rs_well_formed. auto.
Qed.

Lemma lane_other cpu l r : Cpu a r <> cpu -> lane a cpu (l ++ [r]) = lane a cpu l.
Proof.
  intros Hne. rewrite lane_snoc, decide_False by exact Hne. apply app_nil_r.
Qed.

Lemma lane_same l r : lane a (Cpu a r) (l ++ [r]) = lane a (Cpu a r) l ++ [r].
Proof. rewrite lane_snoc, decide_True by reflexivity. reflexivity. Qed.

Lemma push_first_loop_true its : forall S cpu_map cache w cpu_map' cache' w',
  event_attr_ w = a ->
  NoDup its.*1 ->
  (forall cpu cd, (cpu, cd) ∈ its -> cpu_map !! cpu = Some cd) ->
  (forall cpu, cpu ∈ its.*1 -> cpu ∉ S) ->
  first_pushed a rs S cpu_map cache ->
  push_first_loop its cpu_map cache w = Ret (true, cpu_map', cache') w' ->
  first_pushed a rs (S ++ its.*1) cpu_map' cache'.
Proof.
  induction its as [|[cpu cd] its IH];
    intros S cpu_map cache w cpu_map' cache' w' Ha Hnd Hin Hfresh Hinv E.
  { inversion E; subst. simpl. rewrite app_nil_r. exact Hinv. }
  simpl in E, Hnd. apply NoDup_cons in Hnd as (Hcpu & Hnd).
  apply bind_Ret in E as ([rc f] & w1 & E1 & E).
  apply (keeps_fseek event_attr_) in E1 as K1.
  apply fseek_Ret in E1 as (_ & [(-> & _)|(-> & _ & _ & ->)]); [discriminate|].
  cbn [Z.eqb] in E. change (Z.to_nat (to_long 0)) with 0%nat in E.
  apply bind_Ret in E as ([ro f2] & w2 & E2 & E).
  apply (keeps_ReadRecordFromFile event_attr_) in E2 as K2.
  assert (HS : cpu ∉ S) by (apply Hfresh; left).
  destruct Hinv as (Hdone & Hnew).
  destruct (Hnew cpu HS) as (Hcache & Hentry).
  rewrite (Hin cpu cd ltac:(left)) in Hentry.
  unfold scratch_entry in Hentry.
  destruct (lane a cpu rs) as [|r rest] eqn:Hlane; [discriminate|].
  injection Hentry as ->.
  assert (Hr : r ∈ lane a cpu rs) by (rewrite Hlane; left).
  eapply (ReadRecordFromFile_at _ _ _ _ _ r (bytes_of rest)) in E2 as [Hro|(Hro & Hf)];
    [ | | reflexivity | eapply lane_well_formed; exact Hr]; subst ro; [discriminate|].
  subst f2. cbn [f_data f_pos] in E.
  assert (Hc : Cpu a r = cpu) by (apply lane_elem in Hr; tauto).
  assert (Hentry' : mkCpuData
                      (mkFILE (f_data (fp (open_entry (r :: rest))))
                         (0 + length (Binary r)))
                      (wrap64 (data_size (open_entry (r :: rest)) - size r))
                    = merging_entry [r] rest).
  { unfold merging_entry, open_entry. simpl. f_equal.
    - f_equal. change [r] with ([] ++ [r]). rewrite bytes_of_snoc. reflexivity.
    - pose proof (lane_bound cpu rs [] ltac:(rewrite app_nil_r; reflexivity)) as Hb.
      rewrite Hlane, bytes_of_cons, length_app in Hb.
      rewrite bytes_of_cons, length_app. unfold size, wrap64.
      rewrite Z.mod_small; lia. }
  rewrite Hentry' in E.
  apply (IH (S ++ [cpu])) in E.
  - rewrite <- app_assoc in E. exact E.
  - congruence.
  - exact Hnd.
  - intros c' cd' Hmem. rewrite lookup_insert_ne.
    + apply Hin. right. exact Hmem.
    + intros <-. apply Hcpu. apply list_elem_of_fmap. exists (cpu, cd'). auto.
  - intros c' Hmem Hc'. apply elem_of_app in Hc' as [Hc'|Hc'].
    + apply (Hfresh c'); [right; exact Hmem | exact Hc'].
    + apply list_elem_of_singleton in Hc' as ->. auto.
  - unfold Push. split.
    + intros c' Hc'. apply elem_of_app in Hc' as [Hc'|Hc'].
      * destruct (Hdone c' Hc') as (r' & rest' & H1 & H2 & H3).
        assert (Hne : cpu <> c') by (intros <-; auto).
        exists r', rest'. rewrite lane_other, lookup_insert_ne by congruence. auto.
      * apply list_elem_of_singleton in Hc' as ->.
        exists r, rest. rewrite <- Hc at 2. rewrite lane_same, Hc, Hcache.
        rewrite lookup_insert_eq. auto.
    + intros c' Hc'. rewrite elem_of_app, list_elem_of_singleton in Hc'.
      assert (Hne : cpu <> c') by (intros <-; tauto).
      rewrite lane_other, lookup_insert_ne by congruence. apply Hnew. tauto.
Qed.

Hypothesis lanes_sorted : forall cpu, StronglySorted (time_le a) (lane a cpu rs).

Lemma StronglySorted_snoc {A} (R : relation A) l y :
  StronglySorted R l -> (forall x, x ∈ l -> R x y) -> StronglySorted R (l ++ [y]).
Proof.
  induction 1 as [|x l Hl IH Hx]; intros Hy; simpl.
  - repeat constructor.
  - constructor.
    + apply IH. intros z Hz. apply Hy. right. exact Hz.
    + apply Forall_app. split; [exact Hx|]. repeat constructor. apply Hy. left.
Qed.

(** The record popped is the one record of its cpu in the cache. *)
Lemma lane_popped c1 m c2 :
  (length (lane a (Cpu a m) (c1 ++ m :: c2)) <= 1)%nat ->
  lane a (Cpu a m) (c1 ++ m :: c2) = [m] /\ lane a (Cpu a m) (c1 ++ c2) = [].
Proof.
  unfold lane. rewrite !filter_app, filter_cons_True by reflexivity.
  rewrite length_app. simpl.
  destruct (filter _ c1); destruct (filter _ c2); simpl; intros; (lia || auto).
Qed.

Lemma lane_popped_other cpu c1 m c2 :
  Cpu a m <> cpu -> lane a cpu (c1 ++ c2) = lane a cpu (c1 ++ m :: c2).
Proof.
  intros Hne. unfold lane. rewrite !filter_app, filter_cons_False by exact Hne.
  reflexivity.
Qed.

(** In a lane, a record is not later than the records behind it. *)
Lemma lane_order cpu l m r rest :
  lane a cpu rs = l ++ m :: r :: rest -> time_le a m r.
Proof.
  intros Hl. pose proof (lanes_sorted cpu) as Hs. rewrite Hl in Hs.
  apply StronglySorted_app_1_r, StronglySorted_cons in Hs as (Hall & _).
  inversion Hall; subst. assumption.
Qed.

Lemma merging_done cpu_map out :
  merging a rs cpu_map [] out -> forall cpu, lane a cpu out = lane a cpu rs.
Proof.
  intros (Hl & _) cpu. destruct (Hl cpu) as (remaining & Heq & Hrem & _).
  destruct remaining; [|exfalso; apply Hrem; [discriminate | reflexivity]].
  rewrite Heq. simpl. rewrite app_nil_r. reflexivity.
Qed.

Lemma merged_stream_write out m :
  file_write (merged_stream rs pre post out) (Binary m) = merged_stream rs pre post (out ++ [m]).
Proof.
  unfold merged_stream.
  rewrite file_write_behind, bytes_of_snoc, drop_drop, (length_app (bytes_of out)),
    (app_assoc pre). reflexivity.
Qed.

Lemma lane_all cpu l : (forall x, x ∈ l -> Cpu a x = cpu) -> lane a cpu l = l.
Proof.
  unfold lane. induction l as [|x l IH]; intros Hl; [reflexivity|].
  rewrite filter_cons_True by (apply Hl; left). f_equal. apply IH.
  intros y Hy. apply Hl. right. exact Hy.
Qed.

Lemma lane_none cpu l : (forall x, x ∈ l -> Cpu a x <> cpu) -> lane a cpu l = [].
Proof.
  unfold lane. induction l as [|x l IH]; intros Hl; [reflexivity|].
  rewrite filter_cons_False by (apply Hl; left). apply IH.
  intros y Hy. apply Hl. right. exact Hy.
Qed.

(** One turn of the merge: [m] leaves the cache for the output, and the next
    record of its lane, when there is one, enters the cache. *)
Lemma merging_pop cpu_map cpu_map' c1 m c2 out remaining :
  merging a rs cpu_map (c1 ++ m :: c2) out ->
  (forall y, y ∈ c1 ++ m :: c2 -> time_le a m y) ->
  lane a (Cpu a m) rs = lane a (Cpu a m) out ++ [m] ++ remaining ->
  cpu_map' !! Cpu a m
    = Some (merging_entry ((lane a (Cpu a m) out ++ [m]) ++ take 1 remaining)
              (drop 1 remaining)) ->
  (forall cpu, cpu <> Cpu a m -> cpu_map' !! cpu = cpu_map !! cpu) ->
  merging a rs cpu_map' ((c1 ++ c2) ++ take 1 remaining) (out ++ [m]).
Proof.
  intros (Hl & Hs & Hle) Hmin Heq Hlook Hother.
  assert (Hm : m ∈ c1 ++ m :: c2) by (apply elem_of_app; right; left).
  assert (Hrem : forall x, x ∈ remaining -> Cpu a x = Cpu a m).
  { intros x Hx. apply (lane_elem (Cpu a m) rs). rewrite Heq.
    rewrite !elem_of_app. auto. }
  assert (Hsub : forall y, y ∈ c1 ++ c2 -> y ∈ c1 ++ m :: c2).
  { intros y Hy. apply elem_of_app in Hy as [Hy|Hy]; apply elem_of_app;
      [left | right; right]; exact Hy. }
  split; [|split].
  - intros cpu. destruct (decide (cpu = Cpu a m)) as [->|Hne].
    + destruct (Hl (Cpu a m)) as (_ & _ & _ & Hlen & _).
      destruct (lane_popped c1 m c2 Hlen) as (_ & Hcm1).
      exists (drop 1 remaining).
      assert (Hnext : lane a (Cpu a m) ((c1 ++ c2) ++ take 1 remaining)
                      = take 1 remaining).
      { unfold lane at 1. rewrite filter_app. fold (lane a (Cpu a m) (c1 ++ c2)).
        rewrite Hcm1. apply lane_all.
        intros x Hx. apply Hrem. eapply subseteq_take; exact Hx. }
      rewrite Hnext, lane_same. split; [|split; [|split]].
      * rewrite Heq, <- !app_assoc, take_drop. reflexivity.
      * destruct remaining as [|? [|? ?]]; simpl; congruence.
      * rewrite length_take. lia.
      * intros _. exact Hlook.
    + destruct (Hl cpu) as (remaining0 & Heq0 & Hrem0 & Hlen0 & Hlook0).
      exists remaining0.
      assert (Hsame : lane a cpu ((c1 ++ c2) ++ take 1 remaining)
                      = lane a cpu (c1 ++ m :: c2)).
      { unfold lane at 1. rewrite filter_app. fold (lane a cpu (c1 ++ c2)).
        rewrite (lane_popped_other cpu c1 m c2) by congruence.
        replace (filter _ (take 1 remaining)) with (@nil record); [apply app_nil_r|].
        symmetry. apply lane_none. intros x Hx.
        rewrite (Hrem x) by (eapply subseteq_take; exact Hx). congruence. }
      rewrite Hsame, lane_other, Hother by congruence. auto.
  - apply StronglySorted_snoc; [exact Hs|]. intros x Hx. apply Hle; assumption.
  - intros x y Hx Hy.
    assert (Hxm : time_le a x m).
    { apply elem_of_app in Hx as [Hx|Hx]; [apply Hle; assumption|].
      apply list_elem_of_singleton in Hx as ->. unfold time_le. lia. }
    apply elem_of_app in Hy as [Hy|Hy].
    + apply elem_of_app in Hx as [Hx|Hx]; [apply Hle; auto|].
      apply list_elem_of_singleton in Hx as ->. apply Hmin. auto.
    + destruct remaining as [|r' rem']; simpl in Hy; [inversion Hy|].
      rewrite take_0 in Hy. apply list_elem_of_singleton in Hy as ->.
      pose proof (lane_order _ _ _ _ _ Heq) as Hmr. unfold time_le in *. lia.
Qed.

Lemma merge_loop_true fuel : forall cpu_map cache out w w',
  event_attr_ w = a ->
  merging a rs cpu_map cache out ->
  record_fp_ w = merged_stream rs pre post out ->
  merge_loop fuel cpu_map cache w = Ret true w' ->
  exists out',
    (forall cpu, lane a cpu out' = lane a cpu rs) /\
    StronglySorted (time_le a) out' /\
    record_fp_ w' = merged_stream rs pre post out'.
Proof.
  assert (Hdone : forall cpu_map cache out w w',
            merging a rs cpu_map cache out -> record_fp_ w = merged_stream rs pre post out ->
            ForcedPop a cache = None -> (mret true : M bool) w = Ret true w' ->
            exists out',
              (forall cpu, lane a cpu out' = lane a cpu rs) /\
              StronglySorted (time_le a) out' /\
              record_fp_ w' = merged_stream rs pre post out').
  { intros cpu_map cache out w w' Hm Hfp P E.
    apply ForcedPop_None in P. subst cache. inversion E; subst w'.
    exists out. split; [eapply merging_done; exact Hm|].
    split; [apply Hm | exact Hfp]. }
  induction fuel as [|fuel IH]; intros cpu_map cache out w w' Ha Hm Hfp E;
    simpl in E; apply bind_Ret in E as (w0 & w1 & E0 & E);
    inversion E0; subst w0 w1; clear E0; rewrite Ha in E;
    destruct (ForcedPop a cache) as [[m cache1]|] eqn:P;
    try (eapply Hdone; eassumption); [discriminate|].
  apply ForcedPop_Some in P as ((c1 & c2 & -> & ->) & Hmin).
  apply bind_Ret in E as (ok & w1 & E1 & E).
  apply on_record_fp_Ret in E1 as (f & w2 & E1 & ->).
  apply (keeps_WriteRecordToFile main_view) in E1 as K1.
  unfold main_view in K1. injection K1 as _ Ka2 _.
  destruct ok; [|discriminate]. cbn [negb] in E.
  apply WriteRecordToFile_true in E1 as ->.
  rewrite Hfp, merged_stream_write in E.
  pose proof Hm as (Hl & _).
  destruct (Hl (Cpu a m)) as (remaining & Heq & _ & Hlen & Hlook).
  destruct (lane_popped c1 m c2 Hlen) as (Hcm & _). rewrite Hcm in *.
  rewrite Hlook in E by (rewrite Heq; destruct (lane a (Cpu a m) out); discriminate).
  unfold merging_entry at 1 2 3 in E. cbn [data_size fp] in E.
  destruct remaining as [|r' rem'].
  - change (Z.of_nat (length (bytes_of [])) >? 0) with false in E. cbv iota in E.
    eapply (IH _ _ (out ++ [m])) in E; [exact E | simpl; congruence | | reflexivity].
    rewrite <- (app_nil_r (c1 ++ c2)).
    change (@nil record) with (take 1 (@nil record)) at 1.
    eapply merging_pop; [exact Hm | exact Hmin | exact Heq | | reflexivity].
    simpl. rewrite app_nil_r. apply Hlook.
    rewrite Heq. destruct (lane a (Cpu a m) out); discriminate.
  - assert (Hr' : well_formed r').
    { apply (lane_well_formed (Cpu a m)). rewrite Heq, !elem_of_app. right. right. left. }
    assert (Hpos : (Z.of_nat (length (bytes_of (r' :: rem'))) >? 0) = true).
    { destruct Hr' as ((? & ?) & _). rewrite bytes_of_cons, length_app.
      apply Z.gtb_lt. lia. }
    rewrite Hpos in E.
    apply bind_Ret in E as ([ro f'] & w3 & E3 & E).
    apply (keeps_ReadRecordFromFile main_view) in E3 as K3.
    unfold main_view in K3. simpl in K3. injection K3 as Kf3 Ka3 _.
    assert (Hat : drop (length (bytes_of (lane a (Cpu a m) out ++ [m])))
                    (bytes_of ((lane a (Cpu a m) out ++ [m]) ++ r' :: rem'))
                  = Binary r' ++ bytes_of rem').
    { rewrite (bytes_of_app (_ ++ [m]) (r' :: rem')), drop_app_length, bytes_of_cons.
      reflexivity. }
    eapply (ReadRecordFromFile_at _ _ _ _ _ r' (bytes_of rem')) in E3 as [Hro|(Hro & Hf)];
      [ | | exact Hat | exact Hr']; subst ro; [discriminate|].
    subst f'. cbn [f_pos f_data] in E.
    eapply (IH _ _ (out ++ [m])) in E; [exact E | congruence | | exact Kf3].
    unfold Push. change [r'] with (take 1 (r' :: rem')).
    eapply merging_pop; [exact Hm | exact Hmin | exact Heq | | ].
    + rewrite lookup_insert_eq. f_equal. unfold merging_entry.
      cbn [take drop]. rewrite take_0, drop_0. f_equal.
      * f_equal; [rewrite <- !app_assoc; reflexivity|].
        rewrite (bytes_of_snoc (_ ++ [m]) r'), length_app. reflexivity.
      * pose proof (lane_bound (Cpu a m) rs [] ltac:(rewrite app_nil_r; reflexivity)) as Hb.
        rewrite Heq, !bytes_of_app, !bytes_of_cons, !length_app in Hb.
        rewrite bytes_of_cons, length_app. unfold size, wrap64.
        rewrite Z.mod_small; lia.
    + intros cpu Hne. apply lookup_insert_ne. congruence.
Qed.

Lemma first_pushed_merging cpu_map0 cpu_map cache :
  partitioned a rs cpu_map0 ->
  first_pushed a rs (map_to_list cpu_map0).*1 cpu_map cache ->
  merging a rs cpu_map cache [].
Proof.
  intros Hp (Hin & Hout). split; [|split].
  - intros cpu. destruct (cpu_map0 !! cpu) as [cd|] eqn:L.
    + assert (Hk : cpu ∈ (map_to_list cpu_map0).*1).
      { apply list_elem_of_fmap. exists (cpu, cd). split; [reflexivity|].
        apply elem_of_map_to_list. exact L. }
      destruct (Hin cpu Hk) as (r & rest & Hl & Hc & Hlk).
      exists rest. rewrite Hl, Hc. simpl. repeat split; auto.
    + assert (Hk : cpu ∉ (map_to_list cpu_map0).*1).
      { intros Hk. apply list_elem_of_fmap in Hk as ([c cd] & -> & Hk).
        apply elem_of_map_to_list in Hk. simpl in L. congruence. }
      destruct (Hout cpu Hk) as (Hc & Hlk).
      specialize (Hp cpu). rewrite L in Hp. unfold scratch_entry in Hp.
      destruct (lane a cpu rs) eqn:Hl; [|discriminate].
      exists []. rewrite Hc. simpl. repeat split; auto; congruence.
  - constructor.
  - intros x y Hx. inversion Hx.
Qed.

End SortCorrect.

#[local] Instance time_le_trans a : Transitive (time_le a).
Proof. intros x y z. unfold time_le. lia. Qed.

#[local] Instance dso_ignores_fp : IgnoresFp data_section_offset_.
Proof. intros f w; reflexivity. Qed.
#[local] Instance dso_ignores_faults : IgnoresFaults data_section_offset_.
Proof. intros l w; reflexivity. Qed.

(** C1. Let the data section hold the well-formed records [rs], the
    records of every cpu in non-decreasing time order, under an attribute
    with both capabilities. [SortDataSection] comes to an end, and when it
    returns [true] the data section holds a permutation [rs'] of [rs] in
    non-decreasing time order, with the records of every cpu in the order
    they had. The section has the offset, the size and the number of bytes it
    had, and the stream is unchanged before and behind it. *)
Theorem SortDataSection_sorts (w w' : RecordFileWriter) (rs : list record) :
  IsTimestampSupported (event_attr_ w) = true ->
  IsCpuSupported (event_attr_ w) = true ->
  Forall well_formed rs ->
  (forall cpu, Sorted (time_le (event_attr_ w)) (lane (event_attr_ w) cpu rs)) ->
  0 <= data_section_offset_ w <= Z.of_nat (length (f_data (record_fp_ w))) ->
  Z.of_nat (length (f_data (record_fp_ w))) < 2 ^ 63 ->
  data_section_size_ w = Z.of_nat (length (bytes_of rs)) ->
  data_section w = bytes_of rs ->
  SortDataSection w = Ret true w' ->
  SortDataSection w <> OutOfFuel /\
  exists rs',
    data_section w' = bytes_of rs' /\
    rs' ≡ₚ rs /\
    Sorted (time_le (event_attr_ w)) rs' /\
    (forall cpu, lane (event_attr_ w) cpu rs' = lane (event_attr_ w) cpu rs) /\
    data_section_offset_ w' = data_section_offset_ w /\
    data_section_size_ w' = data_section_size_ w /\
    length (data_section w') = length (data_section w) /\
    take (Z.to_nat (data_section_offset_ w)) (f_data (record_fp_ w'))
      = take (Z.to_nat (data_section_offset_ w)) (f_data (record_fp_ w)) /\
    drop (Z.to_nat (data_section_offset_ w + data_section_size_ w))
         (f_data (record_fp_ w'))
      = drop (Z.to_nat (data_section_offset_ w + data_section_size_ w))
          (f_data (record_fp_ w)).
Proof.
  intros Hts Hcpu Hwf Hsorted Hdso Hoff Hdss Hsec E.
  split; [apply halts_SortDataSection|].
  set (a := event_attr_ w) in *.
  set (dso := Z.to_nat (data_section_offset_ w)).
  set (pre := take dso (f_data (record_fp_ w))).
  set (post := drop (dso + length (bytes_of rs)) (f_data (record_fp_ w))).
  assert (Hdata : f_data (record_fp_ w) = pre ++ bytes_of rs ++ post).
  { unfold data_section in Hsec. rewrite Hdss, Nat2Z.id in Hsec. fold dso in Hsec.
    unfold pre, post. rewrite <- drop_drop.
    rewrite <- Hsec at 1. rewrite take_drop, take_drop. reflexivity. }
  assert (Hpre : length pre = dso).
  { unfold pre. rewrite length_take. unfold dso. lia. }
  assert (Hsize : Z.of_nat (length (pre ++ bytes_of rs ++ post)) < 2 ^ 63)
    by (rewrite <- Hdata; exact Hoff).
  clearbody pre post.
  assert (Hss : forall cpu, StronglySorted (time_le a) (lane a cpu rs)).
  { intros cpu. apply Sorted_StronglySorted; [typeclasses eauto | apply Hsorted]. }
  pose proof (keeps_SortDataSection data_section_size_ _ _ _ E) as Kdss.
  pose proof (keeps_SortDataSection data_section_offset_ _ _ _ E) as Kdso.
  unfold SortDataSection in E.
  apply bind_Ret in E as (w0 & w0' & E0 & E). inversion E0; subst w0 w0'; clear E0.
  fold a in E. rewrite Hts, Hcpu in E. cbn [negb orb] in E.
  apply bind_Ret in E as (rc & w1 & E1 & E).
  apply on_record_fp_fseek_Ret in E1 as [->|(-> & _ & Ho & ->)]; [discriminate|].
  cbn [Z.eqb] in E.
  assert (Hseek : Z.to_nat (to_long (data_section_offset_ w)) = dso).
  { apply to_long_nonneg in Ho as (-> & _). unfold wrap64, dso.
    rewrite Z.mod_small; lia. }
  rewrite Hseek in E.
  apply bind_Ret in E as (w0 & w0' & E0 & E). inversion E0; subst w0 w0'; clear E0.
  apply bind_Ret in E as ([ok cpu_map] & w2 & E2 & E).
  destruct ok; [|discriminate]. cbn [negb] in E.
  pose proof (keeps_partition_loop event_attr_ _ _ _ _ _ _ E2) as Ka2.
  pose proof (keeps_partition_loop data_section_offset_ _ _ _ _ _ _ E2) as Ko2.
  eapply (partition_loop_true a rs pre post Hwf Hsize _ [] rs) in E2
    as (Hpart & Hfp2);
    [ | reflexivity | reflexivity | exact Hdss
      | simpl; rewrite Hdata, Hpre; f_equal; unfold bytes_of; simpl; lia
      | reflexivity | intros cpu; apply lookup_empty ].
  apply bind_Ret in E as (rc & w3 & E3 & E).
  apply on_record_fp_fseek_Ret in E3 as [->|(-> & _ & _ & ->)]; [discriminate|].
  cbn [Z.eqb data_section_offset_ set_record_fp set_io_faults] in E.
  simpl in Ka2, Ko2.
  rewrite Hseek, Hfp2 in E. cbn [f_data] in E.
  apply bind_Ret in E as ([[ok cpu_map'] cache] & w4 & E4 & E).
  destruct ok; [|discriminate]. cbn [negb] in E.
  pose proof (keeps_push_first_loop main_view _ _ _ _ _ _ E4) as K4.
  unfold main_view in K4. simpl in K4. injection K4 as Kf4 Ka4 _.
  eapply (push_first_loop_true a rs pre post Hwf Hsize _ []) in E4;
    [ | simpl; exact Ka2 | apply NoDup_fst_map_to_list
      | intros cpu cd Hin; apply elem_of_map_to_list; exact Hin
      | intros cpu _ Hin; inversion Hin
      | split; [intros cpu Hin; inversion Hin | intros cpu _; split; [reflexivity | apply Hpart]] ].
  simpl in E4.
  apply (first_pushed_merging a rs cpu_map cpu_map' cache Hpart) in E4.
  eapply (merge_loop_true a rs pre post Hwf Hsize Hss _ _ _ []) in E
    as (out & Hlanes & Hout & Hfp);
    [ | unfold a; congruence | exact E4 | ].
  2:{ rewrite Kf4. unfold merged_stream. simpl. rewrite !app_nil_r, Hpre. reflexivity. }
  assert (Hperm : out ≡ₚ rs) by (apply (same_lanes_perm a); exact Hlanes).
  assert (Hlen : length (bytes_of out) = length (bytes_of rs))
    by (apply bytes_of_perm; exact Hperm).
  assert (Hdata' : f_data (record_fp_ w') = pre ++ bytes_of out ++ post).
  { rewrite Hfp. unfold merged_stream. simpl.
    rewrite Hlen, drop_app_length, <- app_assoc. reflexivity. }
  exists out. unfold data_section. rewrite Kdss, Kdso, Hdss, Nat2Z.id. fold dso.
  rewrite Hdata', Hdata, <- Hpre.
  replace (Z.to_nat (data_section_offset_ w + Z.of_nat (length (bytes_of rs))))
    with (length pre + length (bytes_of rs))%nat by (unfold dso in Hpre; lia).
  rewrite !drop_app_length, ?take_app_length, !drop_app_add.
  rewrite drop_app_length, <- Hlen, !take_app_length, drop_app_length.
  repeat split; auto using StronglySorted_Sorted.
Qed.

(** ** Claims about SortDataSection that need no look at the records *)

(** C4. When the retained attribute lacks the timestamp or the cpu
    capability, [SortDataSection] returns [true] and the writer is as it was:
    the stream has the same contents and position, and no libc call has been
    made (no fault of the environment has been consumed). *)
Theorem SortDataSection_skip (w : RecordFileWriter) :
  IsTimestampSupported (event_attr_ w) = false \/ IsCpuSupported (event_attr_ w) = false ->
  SortDataSection w = Ret true w.
Proof.
  intros Hcap. unfold SortDataSection. rewrite bind_unfold. simpl.
  destruct Hcap as [-> | ->]; simpl; [reflexivity|].
  rewrite orb_true_r. reflexivity.
Qed.

(** C5. [SortDataSection] always comes to an end, and whatever it returns,
    [true] or [false], [data_section_size_] is what it was before the
    call. *)
Theorem SortDataSection_keeps_data_section_size (w : RecordFileWriter) :
  SortDataSection w <> OutOfFuel /\
  forall b w', SortDataSection w = Ret b w' ->
    data_section_size_ w' = data_section_size_ w.
Proof.
  split; [apply halts_SortDataSection|].
  intros b w'. apply (keeps_SortDataSection data_section_size_).
Qed.

(** * Further properties of the methods *)

(** ** A quiet environment *)

Lemma set_io_faults_quiet w : quiet w -> set_io_faults [] w = w.
Proof. destruct w; unfold quiet; simpl; intros ->; reflexivity. Qed.

Lemma io_fault_quiet w : quiet w -> io_fault w = Ret false w.
Proof.
  intros Hq. unfold io_fault. rewrite Hq. simpl.
  rewrite set_io_faults_quiet by exact Hq. reflexivity.
Qed.

Lemma fseek_quiet f o w :
  quiet w -> 0 <= to_long o ->
  fseek f o w = Ret (0, mkFILE (f_data f) (Z.to_nat (to_long o))) w.
Proof.
  intros Hq Ho. unfold fseek. rewrite bind_unfold, io_fault_quiet by exact Hq.
  simpl. destruct (to_long o <? 0) eqn:L; [lia | reflexivity].
Qed.

Lemma fseek_end_quiet f w :
  quiet w -> fseek_end f w = Ret (0, mkFILE (f_data f) (length (f_data f))) w.
Proof.
  intros Hq. unfold fseek_end. rewrite bind_unfold, io_fault_quiet by exact Hq.
  reflexivity.
Qed.

Lemma ftello_quiet f w :
  quiet w -> Z.of_nat (f_pos f) < 2 ^ 63 -> ftello f w = Ret (Z.of_nat (f_pos f)) w.
Proof.
  intros Hq Hp. unfold ftello. rewrite bind_unfold, io_fault_quiet by exact Hq.
  simpl. destruct (2 ^ 63 <=? Z.of_nat (f_pos f)) eqn:L; [lia | reflexivity].
Qed.

Lemma fwrite_quiet buf f w :
  quiet w -> length buf <> 0%nat -> fwrite buf f w = Ret (1, file_write f buf) w.
Proof.
  intros Hq Hb. unfold fwrite. case_decide; [contradiction|].
  rewrite bind_unfold, io_fault_quiet by exact Hq. reflexivity.
Qed.

Lemma fread_quiet n f w :
  quiet w -> n <> 0%nat -> (f_pos f + n <= length (f_data f))%nat ->
  fread n f w = Ret (1, take n (drop (f_pos f) (f_data f)), mkFILE (f_data f) (f_pos f + n)) w.
Proof.
  intros Hq Hn Hl. unfold fread. case_decide; [contradiction|].
  rewrite bind_unfold, io_fault_quiet by exact Hq. simpl.
  unfold file_read. case_decide; [reflexivity | lia].
Qed.

Lemma fopen_scratch_quiet w : quiet w -> fopen_scratch w = Ret (Some (mkFILE [] 0)) w.
Proof.
  intros Hq. unfold fopen_scratch. rewrite bind_unfold, io_fault_quiet by exact Hq.
  reflexivity.
Qed.

Lemma set_record_fp_quiet f w : quiet w -> quiet (set_record_fp f w).
Proof. intros Hq. exact Hq. Qed.

Lemma Write_quiet buf w :
  quiet w -> length buf <> 0%nat ->
  Write buf w = Ret true (set_record_fp (file_write (record_fp_ w) buf) w).
Proof.
  intros Hq Hb. unfold Write. rewrite bind_unfold. simpl.
  rewrite bind_unfold, fwrite_quiet by assumption. reflexivity.
Qed.

Lemma WriteData_quiet buf w :
  quiet w -> length buf <> 0%nat ->
  WriteData buf w
  = Ret true (set_data_section_size
                (wrap64 (data_section_size_ w + Z.of_nat (length buf)))
                (set_record_fp (file_write (record_fp_ w) buf) w)).
Proof.
  intros Hq Hb. unfold WriteData. rewrite bind_unfold, Write_quiet by assumption.
  reflexivity.
Qed.

Lemma on_record_fp_fseek_quiet o w :
  quiet w -> 0 <= to_long o ->
  on_record_fp (fun f => fseek f o) w
  = Ret 0 (set_record_fp (mkFILE (f_data (record_fp_ w)) (Z.to_nat (to_long o))) w).
Proof.
  intros Hq Ho. unfold on_record_fp. rewrite bind_unfold. simpl.
  rewrite bind_unfold, fseek_quiet by assumption. reflexivity.
Qed.

Lemma WriteRecordToFile_quiet r f w :
  quiet w -> length (Binary r) <> 0%nat ->
  WriteRecordToFile r f w = Ret (true, file_write f (Binary r)) w.
Proof.
  intros Hq Hb. unfold WriteRecordToFile.
  rewrite bind_unfold, fwrite_quiet by assumption. reflexivity.
Qed.

(** Reading at the start of a well-formed record, in a quiet writer. *)
Lemma ReadRecordFromFile_quiet f w r rest :
  quiet w -> well_formed r ->
  drop (f_pos f) (f_data f) = Binary r ++ rest ->
  ReadRecordFromFile f w
  = Ret (Some r, mkFILE (f_data f) (f_pos f + length (Binary r))) w.
Proof.
  intros Hq Hwf Hat. pose proof Hwf as ((Hs0 & Hs) & Hsize).
  assert (Hlen : (f_pos f + length (Binary r) <= length (f_data f))%nat).
  { apply (f_equal length) in Hat. rewrite length_drop, length_app in Hat. lia. }
  assert (E : exists x f', ReadRecordFromFile f w = Ret (Some x, f') w).
  { unfold ReadRecordFromFile.
    rewrite bind_unfold, fread_quiet by (assumption || lia).
    cbn [negb Z.eqb Pos.eqb]. rewrite Hat, take_app_le, Hsize by lia.
    unfold size.
    destruct (Z.of_nat (length (Binary r)) >? Z.of_nat sizeof_perf_event_header) eqn:G.
    - rewrite bind_unfold, fread_quiet
        by (try assumption; cbn [f_pos f_data]; lia).
      cbn [negb Z.eqb Pos.eqb]. rewrite bind_unfold. simpl. eauto.
    - rewrite bind_unfold. simpl. eauto. }
  destruct E as (x & f' & E). pose proof E as E'.
  eapply ReadRecordFromFile_at in E' as [Hn|(Hx & Hf)];
    [discriminate | | exact Hat | exact Hwf].
  injection Hx as Hx. subst x f'. exact E.
Qed.

(** ** Records read from and written to a stream *)

Lemma returns_fread n f : returns (fread n f).
Proof.
  intros w. unfold fread. case_decide; [eexists _, _; reflexivity|].
  rewrite bind_unfold. simpl. destruct (hd false (io_faults w));
    [eexists _, _; reflexivity|].
  destruct (file_read f n) as [[bs f']|]; eexists _, _; reflexivity.
Qed.

Lemma ReadRecordFromFile_short f w :
  let pheader := take sizeof_perf_event_header (drop (f_pos f) (f_data f)) in
  let n := Z.to_nat (Z.max (pheader_size pheader) (Z.of_nat sizeof_perf_event_header)) in
  (length (f_data f) < f_pos f + n)%nat ->
  exists f' w', ReadRecordFromFile f w = Ret (None, f') w' /\ f_data f' = f_data f.
Proof.
  intros pheader n Hshort. unfold ReadRecordFromFile.
  rewrite bind_unfold.
  destruct (returns_fread sizeof_perf_event_header f w) as ([[c bs] f1] & w1 & E1).
  rewrite E1.
  apply fread_Ret in E1 as [(-> & Hn & R1)|(-> & ->)];
    [|exists f, w1; split; reflexivity].
  pose proof (file_read_Some _ _ _ _ R1) as (D1 & P1 & L1).
  apply file_read_inv in R1 as (-> & ->). cbn [negb Z.eqb Pos.eqb].
  fold pheader.
  destruct (pheader_size pheader >? Z.of_nat sizeof_perf_event_header) eqn:G;
    [|unfold n in Hshort; lia].
  rewrite bind_unfold.
  match goal with
  | |- context [fread ?k ?g w1] =>
      destruct (returns_fread k g w1) as ([[c2 bs2] f2] & w2 & E2); rewrite E2
  end.
  apply fread_Ret in E2 as [(-> & Hn2 & R2)|(-> & ->)];
    [|eexists _, w2; split; reflexivity].
  apply file_read_Some in R2 as (_ & _ & L2). cbn [f_pos f_data] in L2.
  unfold n in Hshort. lia.
Qed.

(** X1. [ReadRecordFromFile] returns a record only when the header and all
    the bytes that the header announces lie in the stream behind the
    position; it then leaves the contents alone and moves the position behind
    them, and the record is built over exactly those bytes. When the stream
    ends before them, whatever the environment does, the result is
    [nullptr]. *)
Theorem ReadRecordFromFile_whole_record :
  (forall f w,
     let pheader := take sizeof_perf_event_header (drop (f_pos f) (f_data f)) in
     let n := Z.to_nat (Z.max (pheader_size pheader) (Z.of_nat sizeof_perf_event_header)) in
     (length (f_data f) < f_pos f + n)%nat ->
     exists f' w', ReadRecordFromFile f w = Ret (None, f') w' /\ f_data f' = f_data f) /\
  (forall f w r f' w',
     ReadRecordFromFile f w = Ret (Some r, f') w' ->
     let pheader := take sizeof_perf_event_header (drop (f_pos f) (f_data f)) in
     let n := Z.to_nat (Z.max (pheader_size pheader) (Z.of_nat sizeof_perf_event_header)) in
     (f_pos f + n <= length (f_data f))%nat /\
     f' = mkFILE (f_data f) (f_pos f + n) /\
     r = ReadRecordFromBuffer (event_attr_ w) (pheader_type pheader)
           (take n (drop (f_pos f) (f_data f)))).
Proof.
  split; [exact ReadRecordFromFile_short|].
  intros f w r f' w' E pheader n.
  pose proof (keeps_ReadRecordFromFile event_attr_ _ _ _ _ E) as Ka.
  unfold ReadRecordFromFile in E.
  apply bind_Ret in E as ([[c bs] f1] & w1 & E1 & E).
  apply (keeps_fread event_attr_) in E1 as K1.
  apply fread_Ret in E1 as [(-> & Hn & R1)|(-> & ->)]; [|discriminate].
  pose proof (file_read_Some _ _ _ _ R1) as (D1 & P1 & L1).
  apply file_read_inv in R1 as (-> & ->). cbn [negb Z.eqb Pos.eqb] in E.
  fold pheader in E.
  destruct (pheader_size pheader >? Z.of_nat sizeof_perf_event_header) eqn:G.
  - apply bind_Ret in E as ([[c2 bs2] f2] & w2 & E2 & E).
    apply (keeps_fread event_attr_) in E2 as K2.
    apply fread_Ret in E2 as [(-> & Hn2 & R2)|(-> & ->)]; [|discriminate].
    pose proof (file_read_Some _ _ _ _ R2) as (D2 & P2 & L2).
    apply file_read_inv in R2 as (-> & ->). cbn [negb Z.eqb Pos.eqb f_pos f_data] in *.
    apply bind_Ret in E as (w3 & w4 & E3 & E). inversion E3; subst w3 w4; clear E3.
    inversion E; subst; clear E.
    assert (Hn' : n = (sizeof_perf_event_header
                       + Z.to_nat (pheader_size pheader
                                   - Z.of_nat sizeof_perf_event_header))%nat)
      by (unfold n; lia).
    split; [lia|]. split; [f_equal; lia|].
    rewrite K2, K1. f_equal. rewrite Hn', <- take_take_drop, drop_drop.
    reflexivity.
  - apply bind_Ret in E as (w3 & w4 & E3 & E). inversion E3; subst w3 w4; clear E3.
    inversion E; subst; clear E.
    assert (Hn' : n = sizeof_perf_event_header) by (unfold n; lia).
    rewrite Hn'. split; [lia|]. split; [reflexivity|].
    rewrite K1. reflexivity.
Qed.

(** X2. In a quiet environment, a well-formed record written to a stream
    by [WriteRecordToFile] is read back by [ReadRecordFromFile] once the stream
    is put back at the position of the write, and the stream then stands
    behind the record. *)
Theorem WriteRecordToFile_ReadRecordFromFile (r : record) (f : FILE)
    (w : RecordFileWriter) :
  quiet w -> well_formed r -> Z.of_nat (f_pos f) < 2 ^ 63 ->
  ('(ok, f1) ← WriteRecordToFile r f;
   '(rc, f2) ← fseek f1 (Z.of_nat (f_pos f));
   ReadRecordFromFile f2) w
  = Ret (Some r, file_write f (Binary r)) w.
Proof.
  intros Hq Hwf Hp. pose proof Hwf as ((Hs0 & Hs) & _).
  rewrite bind_unfold, WriteRecordToFile_quiet by (assumption || lia).
  assert (Ho : to_long (Z.of_nat (f_pos f)) = Z.of_nat (f_pos f)).
  { unfold to_long, wrap64. rewrite Z.mod_small by lia.
    destruct (Z.of_nat (f_pos f) <? 2 ^ 63) eqn:L; lia. }
  rewrite bind_unfold, fseek_quiet by (assumption || lia). rewrite Ho, Nat2Z.id.
  erewrite ReadRecordFromFile_quiet;
    [ | exact Hq | exact Hwf | cbn [f_pos f_data]; apply file_write_at ].
  reflexivity.
Qed.

(** ** Writes of no bytes *)

Lemma set_record_fp_same w : set_record_fp (record_fp_ w) w = w.
Proof. destruct w; reflexivity. Qed.

(** [fwrite] of an item of size zero returns 0, which [Write] takes for a
    failure. *)
Lemma Write_nil w : Write [] w = Ret false w.
Proof.
  rewrite <- (set_record_fp_same w) at 2. reflexivity.
Qed.

(** X3. [WriteFeatureHeader] for a count of zero returns [false], whatever
    the environment does: when the seek has succeeded, the write of the empty
    table is a write of no bytes. The contents of the stream are as they
    were. *)
Theorem WriteFeatureHeader_zero (w : RecordFileWriter) :
  exists w', WriteFeatureHeader 0 w = Ret false w' /\
             f_data (record_fp_ w') = f_data (record_fp_ w).
Proof.
  unfold WriteFeatureHeader. rewrite bind_unfold. simpl.
  rewrite bind_unfold. simpl. rewrite bind_unfold.
  match goal with
  | |- context [on_record_fp ?call ?v] =>
      destruct (returns_on_record_fp call (fun f => returns_fseek f _) v) as (rc & w1 & E1)
  end.
  rewrite E1.
  apply on_record_fp_Ret in E1 as (f & w2 & E1 & ->).
  apply fseek_Ret in E1 as (_ & [(-> & ->)|(-> & _ & _ & ->)]).
  - eexists. split; reflexivity.
  - cbn [Z.eqb]. rewrite Write_nil. eexists. split; reflexivity.
Qed.

(** ** The attribute section in the stream *)

Lemma file_write_length_end f buf :
  (length (f_data f) <= f_pos f)%nat ->
  length (f_data (file_write f buf)) = f_pos (file_write f buf).
Proof.
  intros Hl. unfold file_write; simpl.
  rewrite !length_app, length_take, length_app, length_replicate, length_drop. lia.
Qed.

Lemma ids_image_length e : length (ids_image e) = (8 * length (ids e))%nat.
Proof.
  unfold ids_image. induction (ids e) as [|i l IH]; [reflexivity|].
  rewrite fmap_cons. cbn [concat]. rewrite length_app, IH. simpl length. lia.
Qed.

Lemma write_ids_stream attr_ids : forall w w',
  write_ids attr_ids w = Ret true w' ->
  Forall (fun e => ids e <> []) attr_ids /\
  data_section_size_ w' = data_section_size_ w /\
  match attr_ids with
  | [] => record_fp_ w' = record_fp_ w
  | _ => record_fp_ w' = file_write (record_fp_ w) (id_section_image attr_ids)
  end.
Proof.
  induction attr_ids as [|e rest IH]; intros w w' E; simpl in E.
  - inversion E; subst. auto.
  - apply bind_Ret in E as (ok & w1 & E1 & E). destruct ok; simpl in E; [|discriminate].
    apply (keeps_Write data_section_size_) in E1 as K1.
    apply Write_true in E1 as (_ & F1 & Hlen).
    apply IH in E as (Hall & Kd & Hfp).
    split; [|split; [congruence|]].
    + constructor; [|exact Hall]. intros Hnil. apply Hlen. rewrite Hnil. reflexivity.
    + unfold id_section_image. rewrite fmap_cons. simpl concat.
      destruct rest as [|e' rest'].
      * rewrite Hfp, F1. simpl. rewrite app_nil_r. reflexivity.
      * rewrite Hfp, F1, file_write_app. reflexivity.
Qed.

Lemma write_file_attrs_stream attr_ids : forall o w w',
  write_file_attrs attr_ids o w = Ret true w' ->
  data_section_size_ w' = data_section_size_ w /\
  match attr_ids with
  | [] => record_fp_ w' = record_fp_ w
  | _ => record_fp_ w' = file_write (record_fp_ w) (attr_section_image attr_ids o)
  end.
Proof.
  induction attr_ids as [|e rest IH]; intros o w w' E; simpl in E.
  - inversion E; subst. auto.
  - apply bind_Ret in E as (ok & w1 & E1 & E). destruct ok; simpl in E; [|discriminate].
    apply (keeps_Write data_section_size_) in E1 as K1.
    apply Write_true in E1 as (_ & F1 & Hlen).
    apply IH in E as (Kd & Hfp).
    split; [congruence|].
    cbn [attr_section_image].
    destruct rest as [|e' rest'].
    + rewrite Hfp, F1. simpl. rewrite app_nil_r. reflexivity.
    + rewrite Hfp, F1, file_write_app. reflexivity.
Qed.

(** The stream and the bookkeeping after a successful [WriteAttrSection]. *)
Lemma WriteAttrSection_stream attr_ids w w' :
  WriteAttrSection attr_ids w = Ret true w' ->
  let start := Z.to_nat (to_long sizeof_FileHeader) in
  let written := id_section_image attr_ids ++ attr_section_image attr_ids (Z.of_nat start) in
  attr_ids <> [] /\
  Forall (fun e => ids e <> []) attr_ids /\
  record_fp_ w' = file_write (mkFILE (f_data (record_fp_ w)) start) written /\
  attr_section_offset_ w' = Z.of_nat (start + length (id_section_image attr_ids)) /\
  attr_section_size_ w' = Z.of_nat (length (attr_section_image attr_ids (Z.of_nat start))) /\
  data_section_offset_ w' = Z.of_nat (start + length written) /\
  Z.of_nat (start + length written) < 2 ^ 63 /\
  data_section_size_ w' = data_section_size_ w.
Proof.
  unfold WriteAttrSection. destruct attr_ids as [|first rest]; [discriminate|].
  remember (first :: rest) as attr_ids eqn:Hids. intros E.
  set (start := Z.to_nat (to_long sizeof_FileHeader)).
  set (written := id_section_image attr_ids ++ attr_section_image attr_ids (Z.of_nat start)).
  assert (Hne : attr_ids <> []) by (subst; discriminate).
  apply bind_Ret in E as (rc & w1 & E1 & E).
  apply on_record_fp_fseek_Ret in E1 as [->|(-> & _ & Ho & ->)]; [discriminate|].
  fold start in E.
  cbn [Z.eqb] in E. apply bind_Ret in E as (w0 & w1' & E0 & E). inversion E0; subst w0 w1'.
  cbn [record_fp_ set_record_fp set_io_faults] in E. clear E0.
  apply bind_Ret in E as (ido & w2 & E2 & E).
  destruct (ido =? -1) eqn:Hido; [discriminate|].
  apply (keeps_ftello data_section_size_) in E2 as Kd2.
  apply ftello_ok in E2 as (_ & Pi & _ & F2); [|exact Hido]. cbn [f_pos] in Pi.
  apply bind_Ret in E as (ok & w3 & E3 & E). destruct ok; simpl in E; [|discriminate].
  apply write_ids_stream in E3 as (Hall & Kd3 & F3).
  apply bind_Ret in E as (w0 & w3' & E0' & E). inversion E0'; subst w0 w3'. clear E0'.
  apply bind_Ret in E as (aso & w4 & E4 & E).
  destruct (aso =? -1) eqn:Haso; [discriminate|].
  apply (keeps_ftello data_section_size_) in E4 as Kd4.
  apply ftello_ok in E4 as (_ & Pa & La & F4); [|exact Haso].
  apply bind_Ret in E as (ok & w5 & E5 & E). destruct ok; simpl in E; [|discriminate].
  apply write_file_attrs_stream in E5 as (Kd5 & F5).
  apply bind_Ret in E as (w0 & w5' & E0'' & E). inversion E0''; subst w0 w5'. clear E0''.
  apply bind_Ret in E as (dso & w6 & E6 & E).
  destruct (dso =? -1) eqn:Hdso; [discriminate|].
  apply (keeps_ftello data_section_size_) in E6 as Kd6.
  apply ftello_ok in E6 as (_ & Pd & Ld & F6); [|exact Hdso].
  apply bind_Ret in E as ([] & w7 & E7 & E). inversion E7; subst w7. inversion E; subst w'.
  clear E E7.
  destruct attr_ids as [|e l]; [contradiction|].
  rewrite F2 in F3. cbn [record_fp_ set_record_fp set_io_faults] in F3.
  rewrite F4, F3 in F5. rewrite file_write_app in F5.
  rewrite F3, file_write_pos in Pa. cbn [f_pos] in Pa.
  rewrite F5, file_write_pos in Pd. cbn [f_pos] in Pd.
  subst ido. fold written in F5, Pd.
  split; [exact Hne|]. split; [exact Hall|].
  cbn [record_fp_ attr_section_offset_ attr_section_size_ data_section_offset_
       data_section_size_ set_attr_section].
  split; [rewrite F6; exact F5|].
  assert (Hw : length written = (length (id_section_image (e :: l))
                                 + length (attr_section_image (e :: l) (Z.of_nat start)))%nat)
    by (unfold written; apply length_app).
  unfold wrap64. rewrite !Z.mod_small by lia.
  repeat split; try lia. simpl in Kd2. congruence.
Qed.

(** X4. [WriteAttrSection] returns [false] when an entry has no ids,
    whatever the environment does: the write of its id array would be a write
    of no bytes. *)
Theorem WriteAttrSection_needs_ids (attr_ids : list EventAttrWithId)
    (w : RecordFileWriter) :
  (exists e, e ∈ attr_ids /\ ids e = []) ->
  exists w', WriteAttrSection attr_ids w = Ret false w'.
Proof.
  intros (e & Hin & Hnil).
  destruct (returns_WriteAttrSection attr_ids w) as ([|] & w' & E); [|eauto].
  apply WriteAttrSection_stream in E as (_ & Hall & _).
  rewrite Forall_forall in Hall. exfalso. exact (Hall e Hin Hnil).
Qed.

Lemma FileAttr_bytes_length a d d' :
  length (FileAttr_bytes a d) = length (FileAttr_bytes a d').
Proof. unfold FileAttr_bytes. rewrite !length_app, !SectionDesc_bytes_length. reflexivity. Qed.

Lemma attr_section_image_length attr_ids : forall o,
  length (attr_section_image attr_ids o) = attr_records_size attr_ids.
Proof.
  induction attr_ids as [|e rest IH]; intros o; [reflexivity|].
  cbn [attr_section_image attr_records_size sum_list_with].
  rewrite length_app, IH. f_equal. apply FileAttr_bytes_length.
Qed.

Lemma id_section_image_cons e l :
  id_section_image (e :: l) = ids_image e ++ id_section_image l.
Proof. reflexivity. Qed.

Lemma id_section_image_app l1 l2 :
  id_section_image (l1 ++ l2) = id_section_image l1 ++ id_section_image l2.
Proof. unfold id_section_image. rewrite fmap_app, concat_app. reflexivity. Qed.

(** The attribute record of an entry holds the place and the size of its
    ids, as long as sizes fit 64 bits. *)
Lemma attr_section_image_split before e after : forall o,
  Z.of_nat (length (id_section_image (before ++ e :: after))) < 2 ^ 64 ->
  attr_section_image (before ++ e :: after) o
  = attr_section_image before o
    ++ FileAttr_bytes (attr e)
         (mkSectionDesc (o + Z.of_nat (length (id_section_image before)))
            (Z.of_nat (length (ids_image e))))
    ++ attr_section_image after
         (o + Z.of_nat (length (id_section_image (before ++ [e])))).
Proof.
  induction before as [|b before IH]; intros o Hfit.
  - cbn [app attr_section_image] in *. rewrite id_section_image_cons, length_app in Hfit.
    rewrite id_section_image_cons. unfold id_section_image at 1 2. simpl concat.
    rewrite app_nil_r. simpl length at 1. rewrite Z.add_0_r.
    rewrite ids_image_length in *. unfold wrap64.
    rewrite Z.mod_small by lia.
    replace (Z.of_nat (length (ids e)) * 8) with (Z.of_nat (8 * length (ids e))) by lia.
    reflexivity.
  - cbn [app attr_section_image] in *.
    rewrite id_section_image_cons, length_app in Hfit.
    rewrite IH by lia. rewrite <- app_assoc.
    rewrite !id_section_image_cons, !length_app.
    rewrite (ids_image_length b) in *. unfold wrap64.
    rewrite Z.mod_small by lia.
    do 2 f_equal. f_equal; [do 2 f_equal; lia | f_equal; lia].
Qed.

(** X5. After a successful [WriteAttrSection] the id section starts behind
    the room of the file header and ends where the attribute section starts,
    and the data section starts where the attribute section ends, at the
    position of the stream. For every entry, its ids lie in the id section in
    the order of the entries, and its attribute record lies in the attribute
    section in the same order and holds the offset and the size in bytes of
    those ids. *)
Theorem WriteAttrSection_layout (attr_ids before after : list EventAttrWithId)
    (e : EventAttrWithId) (w w' : RecordFileWriter) :
  WriteAttrSection attr_ids w = Ret true w' ->
  attr_ids = before ++ e :: after ->
  let stream := f_data (record_fp_ w') in
  let start := Z.to_nat (to_long sizeof_FileHeader) in
  let ids_at := (start + length (id_section_image before))%nat in
  let attr_at := (Z.to_nat (attr_section_offset_ w') + attr_records_size before)%nat in
  attr_section_offset_ w' = Z.of_nat (start + length (id_section_image attr_ids)) /\
  attr_section_size_ w' = Z.of_nat (attr_records_size attr_ids) /\
  data_section_offset_ w' = attr_section_offset_ w' + attr_section_size_ w' /\
  data_section_offset_ w' = Z.of_nat (f_pos (record_fp_ w')) /\
  take (length (ids_image e)) (drop ids_at stream) = ids_image e /\
  take (attr_records_size [e]) (drop attr_at stream)
  = FileAttr_bytes (attr e)
      (mkSectionDesc (Z.of_nat ids_at) (Z.of_nat (length (ids_image e)))).
Proof.
  intros E Hsplit stream start ids_at attr_at.
  apply WriteAttrSection_stream in E as (_ & _ & Hfp & Haso & Hass & Hdso & Hlt & _).
  fold start in Hfp, Haso, Hass, Hdso, Hlt.
  rewrite length_app in Hdso, Hlt. rewrite attr_section_image_length in *.
  assert (Hat : drop start stream
                = (id_section_image attr_ids
                   ++ attr_section_image attr_ids (Z.of_nat start))
                  ++ drop (start + length (id_section_image attr_ids
                                           ++ attr_section_image attr_ids (Z.of_nat start)))
                       (f_data (record_fp_ w))).
  { unfold stream. rewrite Hfp. apply (file_write_at (mkFILE _ start)). }
  split; [exact Haso|]. split; [exact Hass|]. split; [lia|]. split.
  { rewrite Hfp, file_write_pos. cbn [f_pos]. rewrite length_app, attr_section_image_length.
    lia. }
  assert (Hfit : Z.of_nat (length (id_section_image (before ++ e :: after))) < 2 ^ 64)
    by (rewrite <- Hsplit; lia).
  rewrite Hsplit in Hat at 2. rewrite attr_section_image_split in Hat by exact Hfit.
  rewrite Hsplit in Hat at 1.
  rewrite id_section_image_app, id_section_image_cons in Hat.
  split.
  - unfold ids_at. rewrite <- drop_drop, Hat, <- !app_assoc.
    rewrite drop_app_length, take_app_length. reflexivity.
  - set (I := id_section_image before ++ ids_image e ++ id_section_image after) in *.
    set (AB := attr_section_image before (Z.of_nat start)) in *.
    assert (Hat' : attr_at = (start + length (I ++ AB))%nat).
    { unfold attr_at, I, AB. rewrite Haso, Nat2Z.id, Hsplit, length_app.
      rewrite id_section_image_app, id_section_image_cons, attr_section_image_length.
      lia. }
    rewrite Hat', <- drop_drop, Hat, <- !app_assoc, (app_assoc I AB), drop_app_length.
    cbn [attr_records_size sum_list_with]. rewrite Nat.add_0_r.
    rewrite (FileAttr_bytes_length _ (mkSectionDesc 0 0)
               (mkSectionDesc (Z.of_nat start + Z.of_nat (length (id_section_image before)))
                  (Z.of_nat (length (ids_image e))))).
    rewrite take_app_length. unfold ids_at. repeat f_equal. lia.
Qed.

(** ** The data section ends the stream *)

Lemma wrap64_add_r a b : wrap64 (a + wrap64 b) = wrap64 (a + b).
Proof. unfold wrap64. apply Zplus_mod_idemp_r. Qed.

Lemma data_ends_stream_WriteData buf w ok w' :
  data_ends_stream w -> WriteData buf w = Ret ok w' -> data_ends_stream w'.
Proof.
  intros (Hpos & Hend) E.
  pose proof (keeps_layout_WriteData buf _ _ _ E) as Kl.
  unfold layout in Kl. injection Kl as _ _ Ko _.
  apply WriteData_Ret in E. destruct ok.
  - destruct E as (-> & _). unfold data_ends_stream.
    cbn [record_fp_ data_section_offset_ data_section_size_ set_data_section_size
         set_record_fp set_io_faults].
    rewrite file_write_pos, file_write_end by exact Hpos.
    rewrite length_app. split; [lia|].
    rewrite wrap64_add_r, Z.add_assoc, <- wrap64_add_l, Hend, wrap64_add_l.
    f_equal. lia.
  - destruct E as (Hfp & Hdss). unfold data_ends_stream. rewrite Hfp, Hdss, Ko.
    split; assumption.
Qed.

Lemma data_ends_stream_WriteRecord_loop fuel : forall p left_bytes w ok w',
  data_ends_stream w -> WriteRecord_loop fuel p left_bytes w = Ret ok w' ->
  data_ends_stream w'.
Proof.
  induction fuel as [|fuel IH]; intros p left_bytes w ok w' Hd E; simpl in E;
    destruct (left_bytes >? 0); try discriminate;
    try (inversion E; subst; exact Hd).
  apply bind_Ret in E as (ok1 & w1 & E1 & E).
  apply (data_ends_stream_WriteData _ _ _ _ Hd) in E1.
  destruct ok1; simpl in E; [|inversion E; subst; exact E1].
  apply bind_Ret in E as (ok2 & w2 & E2 & E).
  apply (data_ends_stream_WriteData _ _ _ _ E1) in E2.
  destruct ok2; simpl in E; [|inversion E; subst; exact E2].
  eapply IH; eassumption.
Qed.


(** X7. When the data section ends the stream (of fewer than 2^63 bytes),
    a successful [WriteFeatureHeader] appends the table of [n] zeroed
    descriptors to the stream: the table starts where the data section ends,
    and nothing that was in the stream is changed. *)
Theorem WriteFeatureHeader_appends (n : Z) (w w' : RecordFileWriter) :
  data_ends_stream w ->
  Z.of_nat (length (f_data (record_fp_ w))) < 2 ^ 63 ->
  WriteFeatureHeader n w = Ret true w' ->
  f_data (record_fp_ w')
  = f_data (record_fp_ w) ++ replicate (Z.to_nat (wrap64 (n * sizeof_SectionDesc))) x00 /\
  wrap64 (data_section_offset_ w' + data_section_size_ w')
  = Z.of_nat (length (f_data (record_fp_ w))) /\
  f_pos (record_fp_ w') = length (f_data (record_fp_ w')).
Proof.
  intros (Hpos & Hend) Hlt E.
  apply WriteFeatureHeader_true in E as (_ & Hfp & Hl & Hs & _).
  unfold layout in Hl. injection Hl as _ _ Ho _.
  assert (Htable : wrap64 (data_section_offset_ w + data_section_size_ w)
                   = Z.of_nat (length (f_data (record_fp_ w)))).
  { rewrite Hend. unfold wrap64. apply Z.mod_small. lia. }
  rewrite Htable, Nat2Z.id, file_write_append in Hfp. rewrite Hfp. cbn [f_data f_pos].
  split; [reflexivity|]. split; [|reflexivity].
  rewrite Ho, Hs. exact Htable.
Qed.

(** ** WriteRecord in a quiet environment *)

Lemma went_well_bind {A B} (fa : A -> bool) (fb : B -> bool) (m : M A) (k : A -> M B) w :
  went_well fa (m w) ->
  (forall a w', m w = Ret a w' -> fa a = true -> quiet w' -> went_well fb (k a w')) ->
  went_well fb ((m ≫= k) w).
Proof.
  intros Hm Hk. rewrite bind_unfold. destruct (m w) as [a w'| |]; simpl in *;
    [apply Hk; tauto | contradiction | exact I].
Qed.

Lemma went_well_Ret {A} (fa : A -> bool) (o : outcome A) :
  went_well fa o -> o <> OutOfFuel -> exists a w', o = Ret a w' /\ fa a = true /\ quiet w'.
Proof.
  destruct o as [a w'| |]; simpl; [eauto | contradiction | congruence].
Qed.

Lemma WriteRecord_loop_quiet fuel : forall p left_bytes w,
  quiet w -> (0 < header_size)%nat -> 0 < chunk_size ->
  0 <= left_bytes < 2 ^ 32 -> left_bytes <= Z.of_nat (length p) ->
  went_well id (WriteRecord_loop fuel p left_bytes w).
Proof.
  induction fuel as [|fuel IH]; intros p left_bytes w Hq Hh Hc Hl Hp; simpl;
    destruct (left_bytes >? 0) eqn:G; try exact I; try (split; [reflexivity | exact Hq]).
  apply Z.gtb_lt in G.
  assert (Hcs : chunk_size = 65535 - Z.of_nat header_size) by reflexivity.
  rewrite (wrap32_small (RECORD_SIZE_LIMIT - Z.of_nat header_size))
    by (unfold RECORD_SIZE_LIMIT; lia).
  set (n := Z.min (RECORD_SIZE_LIMIT - Z.of_nat header_size) left_bytes).
  assert (Hn : 0 < n <= left_bytes) by (unfold n, RECORD_SIZE_LIMIT; lia).
  rewrite bind_unfold, WriteData_quiet by (rewrite ?length_header_buf; assumption || lia).
  cbn [negb]. rewrite bind_unfold, WriteData_quiet
    by (try exact Hq; rewrite length_take; lia).
  cbn [negb]. apply IH; try assumption.
  - unfold wrap32. rewrite Z.mod_small; lia.
  - unfold wrap32. rewrite Z.mod_small by lia. rewrite length_drop. lia.
Qed.

(** X8. An oversized record of a type that is not above
    [SIMPLE_PERF_RECORD_TYPE_START] fails the CHECK of [WriteRecord] before
    anything is written. In a quiet environment every other record of fewer
    than 2^32 bytes is written: [WriteRecord] returns [true], and when the
    stream stood at its end the record, or the sequence of SPLIT records that
    carries its bytes and the SPLIT_END record, has been appended to it. *)
Theorem WriteRecord_quiet (r : record) (w : RecordFileWriter) :
  (RECORD_SIZE_LIMIT < size r -> type r <= SIMPLE_PERF_RECORD_TYPE_START ->
   WriteRecord r w = Fatal) /\
  (quiet w ->
   (0 < header_size)%nat -> Z.of_nat header_size < RECORD_SIZE_LIMIT ->
   size r < 2 ^ 32 ->
   size r <= RECORD_SIZE_LIMIT \/ SIMPLE_PERF_RECORD_TYPE_START < type r ->
   f_pos (record_fp_ w) = length (f_data (record_fp_ w)) ->
   exists w' written,
     WriteRecord r w = Ret true w' /\ quiet w' /\
     f_data (record_fp_ w') = f_data (record_fp_ w) ++ written /\
     (size r <= RECORD_SIZE_LIMIT -> written = Binary r) /\
     (RECORD_SIZE_LIMIT < size r ->
      exists chunks, concat chunks = Binary r /\
        written = concat (split_record <$> chunks) ++ split_end_record)).
Proof.
  split.
  - intros Hbig Hty. unfold WriteRecord.
    destruct (size r <=? RECORD_SIZE_LIMIT) eqn:L; [lia|].
    rewrite bind_unfold. unfold CHECK.
    destruct (type r >? SIMPLE_PERF_RECORD_TYPE_START) eqn:G; [lia | reflexivity].
  - intros Hq Hh0 Hh Hs Hok Hend.
    destruct (size r <=? RECORD_SIZE_LIMIT) eqn:L.
    + unfold WriteRecord. rewrite L.
      destruct (decide (length (Binary r) = 0%nat)) as [Hz|Hnz].
      * destruct (Binary r) eqn:Hb; [|discriminate].
        exists w, []. rewrite bind_unfold. unfold WriteData.
        rewrite bind_unfold, Write_nil. simpl.
        rewrite app_nil_r. repeat split; auto. intros; unfold size in *.
        rewrite Hb in *. simpl in *. lia.
      * rewrite bind_unfold, WriteData_quiet by assumption.
        eexists _, (Binary r). split; [reflexivity|]. split; [exact Hq|].
        cbn [record_fp_ set_data_section_size set_record_fp].
        rewrite file_write_end by exact Hend.
        repeat split; auto. intros. lia.
    + assert (Hty : SIMPLE_PERF_RECORD_TYPE_START < type r) by lia.
      assert (Hc : 0 < chunk_size) by (unfold chunk_size; lia).
      assert (E : exists w', WriteRecord r w = Ret true w' /\ quiet w').
      { unfold WriteRecord. rewrite L. rewrite bind_unfold. unfold CHECK.
        destruct (type r >? SIMPLE_PERF_RECORD_TYPE_START) eqn:G; [|lia].
        rewrite bind_unfold.
        assert (Hw : wrap32 (size r) = size r)
          by (apply wrap32_small; unfold size in *; lia).
        rewrite Hw.
        destruct (went_well_Ret id
                    (WriteRecord_loop (S (Z.to_nat (size r))) (Binary r) (size r) w))
          as (ok & w1 & E1 & Hok1 & Hq1).
        { apply WriteRecord_loop_quiet; try assumption; unfold size in *; lia. }
        { apply halts_WriteRecord_loop. lia. }
        rewrite E1. unfold id in Hok1. subst ok. cbn [negb].
        rewrite WriteData_quiet by (rewrite ?length_header_buf; assumption || lia).
        eexists. split; [reflexivity | exact Hq1]. }
      destruct E as (w' & E & Hq').
      pose proof E as E'.
      apply WriteRecord_oversized in E' as (chunks & Hcat & _ & _ & Hfp & _);
        [| exact Hc | lia].
      exists w', (concat (split_record <$> chunks) ++ split_end_record).
      split; [exact E|]. split; [exact Hq'|].
      split; [rewrite Hfp; apply file_write_end; exact Hend|].
      split; [lia|]. intros _. exists chunks. auto.
Qed.

(** ** The bookkeeping of the feature table *)

#[local] Instance bookkeeping_ignores_fp : IgnoresFp bookkeeping.
Proof. intros f w; reflexivity. Qed.
#[local] Instance bookkeeping_ignores_faults : IgnoresFaults bookkeeping.
Proof. intros l w; reflexivity. Qed.

Lemma bookkeeping_eq w1 w :
  bookkeeping w1 = bookkeeping w ->
  feature_count_ w1 = feature_count_ w /\
  current_feature_index_ w1 = current_feature_index_ w /\
  features_ w1 = features_ w /\ layout w1 = layout w /\
  data_section_size_ w1 = data_section_size_ w.
Proof.
  unfold bookkeeping. intros E. inversion E. repeat split; try assumption.
  unfold layout. congruence.
Qed.

Lemma records_feature_false feature : records_feature feature (mret false).
Proof. intros w b w' E. inversion E; subst. reflexivity. Qed.

Lemma records_feature_guard feature (payload m : M bool) :
  keeps bookkeeping payload -> records_feature feature m ->
  records_feature feature (ok ← payload; if negb ok then mret false else m).
Proof.
  intros Hk Hm w b w' E. apply bind_Ret in E as (ok & w1 & E1 & E).
  apply Hk in E1. pose proof (bookkeeping_eq _ _ E1) as (Kc & Ki & Kf & Kl & Kd).
  destruct ok; simpl in E.
  - apply Hm in E. rewrite E. destruct b; congruence.
  - inversion E; subst. exact E1.
Qed.

Lemma records_feature_WriteFeatureEnd feature start_offset :
  records_feature feature (WriteFeatureEnd feature start_offset).
Proof.
  intros w b w' E. unfold WriteFeatureEnd in E.
  apply bind_Ret in E as (eo & w1 & E1 & E).
  apply (keeps_SeekFileEnd bookkeeping) in E1 as K1.
  destruct eo as [end_offset|]; [|inversion E; subst; exact K1].
  apply bind_Ret in E as (w0 & w1' & E0 & E). inversion E0; subst w0 w1'; clear E0.
  apply bind_Ret in E as (rc & w2 & E2 & E).
  apply (keeps_on_record_fp bookkeeping) in E2 as K2; [|auto with keeps].
  destruct (rc =? -1); [inversion E; subst; congruence|].
  apply bind_Ret in E as (ok & w3 & E3 & E).
  apply (keeps_Write bookkeeping) in E3 as K3.
  destruct ok; simpl in E.
  - apply bind_Ret in E as ([] & w4 & E4 & E). inversion E4; subst w4; clear E4.
    inversion E; subst; clear E.
    rewrite K2, K1 in K3. apply bookkeeping_eq in K3 as (Kc & Ki & Kf & Kl & Kd).
    unfold bookkeeping.
    cbn [feature_count_ current_feature_index_ features_ set_feature_table
         data_section_size_].
    rewrite Kc, Ki, Kf, Kd. f_equal. f_equal. exact Kl.
  - inversion E; subst. congruence.
Qed.

Lemma records_feature_begin feature (body : Z -> M bool) :
  (forall start_offset, records_feature feature (body start_offset)) ->
  records_feature feature
    (start_offset ← WriteFeatureBegin;
     match start_offset with
     | None => mret false
     | Some start_offset => body start_offset
     end).
Proof.
  intros Hbody w b w' E. apply bind_Ret in E as (so & w1 & E1 & E).
  assert (K : keeps bookkeeping WriteFeatureBegin)
    by (unfold WriteFeatureBegin; repeat keeps_step).
  apply K in E1. pose proof (bookkeeping_eq _ _ E1) as (Kc & Ki & Kf & Kl & Kd).
  destruct so as [start_offset|].
  - apply Hbody in E. rewrite E. destruct b; congruence.
  - inversion E; subst. exact E1.
Qed.

Lemma perform_records_feature c :
  is_feature_write c = true -> records_feature (feature_of c) (perform c).
Proof.
  destruct c; try discriminate; intros _; simpl.
  - apply records_feature_begin. intros so. apply records_feature_guard;
      [auto with keeps | apply records_feature_WriteFeatureEnd].
  - apply records_feature_begin. intros so.
    repeat (apply records_feature_guard; [auto with keeps|]).
    apply records_feature_WriteFeatureEnd.
  - apply records_feature_begin. intros so.
    repeat (apply records_feature_guard; [auto with keeps|]).
    apply records_feature_WriteFeatureEnd.
  - apply records_feature_begin. intros so. apply records_feature_WriteFeatureEnd.
Qed.

Lemma records_feature_frame feature (m : M bool) w b w' :
  records_feature feature m -> m w = Ret b w' ->
  layout w' = layout w /\ data_section_size_ w' = data_section_size_ w.
Proof.
  intros R E. apply R in E. destruct b.
  - unfold bookkeeping in E. inversion E. split; [unfold layout|]; congruence.
  - apply bookkeeping_eq in E. tauto.
Qed.

(** X9. A feature write that returns [true] has taken the next slot of the
    table and recorded its feature at the end of [features_]; one that returns
    [false] has left the count, the index and [features_] as they were, also
    when it failed after its payload had been written. Neither changes the
    section offsets, the retained attribute or [data_section_size_]. *)
Theorem feature_write_bookkeeping (c : call) (w w' : RecordFileWriter) (b : bool) :
  is_feature_write c = true ->
  perform c w = Ret b w' ->
  feature_count_ w' = feature_count_ w /\
  current_feature_index_ w' =
    (if b then wrap64 (current_feature_index_ w + 1) else current_feature_index_ w) /\
  features_ w' = (if b then features_ w ++ [feature_of c] else features_ w) /\
  layout w' = layout w /\
  data_section_size_ w' = data_section_size_ w.
Proof.
  intros Hc E. apply (perform_records_feature c Hc) in E. destruct b.
  - unfold bookkeeping in E. inversion E. repeat split; try assumption.
    unfold layout. congruence.
  - apply bookkeeping_eq in E. exact E.
Qed.

(** ** The payload and the descriptor of a feature *)

Lemma SeekFileEnd_bound w o w' :
  SeekFileEnd w = Ret (Some o) w' ->
  Z.of_nat (length (f_data (record_fp_ w))) < 2 ^ 63.
Proof.
  unfold SeekFileEnd. intros E.
  apply bind_Ret in E as (rc & w1 & E1 & E).
  apply on_record_fp_Ret in E1 as (f & w2 & E1 & ->).
  apply fseek_end_Ret in E1 as (-> & [(-> & ->)|(-> & _ & ->)]); [discriminate|].
  cbn [Z.eqb] in E.
  apply bind_Ret in E as (w0 & w1 & E0 & E). inversion E0; subst w0 w1; clear E0.
  apply bind_Ret in E as (z & w1 & E1 & E).
  destruct (z =? -1) eqn:Hz; [discriminate|].
  apply ftello_ok in E1 as (_ & Hzv & Hlt & _); [|exact Hz].
  simpl in Hzv. lia.
Qed.

Lemma WriteFeatureBegin_Some w so w1 :
  WriteFeatureBegin w = Ret (Some so) w1 ->
  so = Z.of_nat (length (f_data (record_fp_ w))) /\
  record_fp_ w1 = mkFILE (f_data (record_fp_ w)) (length (f_data (record_fp_ w))) /\
  table_slot w1 = table_slot w.
Proof.
  rewrite WriteFeatureBegin_eq. destruct (_ <? _); [|discriminate]. intros E.
  apply (keeps_SeekFileEnd table_slot) in E as K.
  apply SeekFileEnd_Some in E as (-> & F). auto.
Qed.

(** [WriteFeatureEnd] after the payload [P] has been appended to the stream
    [D]: the descriptor of [P] goes to the slot, which lies in [D]. *)
Lemma WriteFeatureEnd_stream feature w w' D P :
  f_data (record_fp_ w) = D ++ P ->
  table_slot w + sizeof_SectionDesc <= Z.of_nat (length D) ->
  WriteFeatureEnd feature (Z.of_nat (length D)) w = Ret true w' ->
  f_data (record_fp_ w')
  = take (Z.to_nat (table_slot w)) D
    ++ SectionDesc_bytes (mkSectionDesc (Z.of_nat (length D)) (Z.of_nat (length P)))
    ++ drop (Z.to_nat (table_slot w) + 16) D ++ P.
Proof.
  intros HD Hslot E.
  assert (Hslot0 : 0 <= table_slot w).
  { unfold table_slot, wrap64. apply Z.mod_pos_bound. lia. }
  unfold sizeof_SectionDesc in Hslot.
  unfold WriteFeatureEnd in E.
  apply bind_Ret in E as (eo & w4 & E4 & E).
  destruct eo as [end_offset|]; [|discriminate].
  apply (keeps_SeekFileEnd table_slot) in E4 as K4.
  pose proof (SeekFileEnd_bound _ _ _ E4) as Hlt.
  apply SeekFileEnd_Some in E4 as (Hend & F4).
  apply bind_Ret in E as (w0 & w4' & E0 & E). inversion E0; subst w0 w4'; clear E0.
  apply bind_Ret in E as (rc & w5 & E5 & E).
  fold (table_slot w4) in E5.
  apply on_record_fp_fseek_Ret in E5 as [->|(-> & _ & Ho & ->)]; [discriminate|].
  cbn [Z.eqb] in E.
  apply bind_Ret in E as (ok & w6 & E6 & E). destruct ok; simpl in E; [|discriminate].
  apply Write_true in E6 as (_ & F6 & _). simpl in F6.
  apply bind_Ret in E as ([] & w7 & E7 & E). inversion E7; subst w7; clear E7.
  inversion E; subst w'; clear E. cbn [record_fp_ set_feature_table].
  rewrite K4 in *.
  apply to_long_nonneg in Ho as (Ho & _).
  assert (Hw : wrap64 (table_slot w) = table_slot w).
  { unfold table_slot. apply wrap64_idem. }
  rewrite Ho, Hw, F4, HD in F6. rewrite HD, length_app in Hlt, Hend.
  rewrite F6, file_write_inside
    by (cbn [f_pos f_data]; rewrite length_app, SectionDesc_bytes_length; lia).
  cbn [f_pos f_data]. rewrite SectionDesc_bytes_length.
  rewrite take_app_le, drop_app_le by lia.
  subst end_offset. unfold wrap64. rewrite Z.mod_small by lia.
  replace (Z.of_nat (length D + length P) - Z.of_nat (length D))
    with (Z.of_nat (length P)) by lia.
  reflexivity.
Qed.

Lemma write_records_stream rs : forall w w',
  write_records rs w = Ret true w' ->
  table_slot w' = table_slot w /\
  match rs with
  | [] => record_fp_ w' = record_fp_ w
  | _ => record_fp_ w' = file_write (record_fp_ w) (bytes_of rs)
  end.
Proof.
  induction rs as [|r rest IH]; intros w w' E; simpl in E.
  - inversion E; subst. auto.
  - apply bind_Ret in E as (ok & w1 & E1 & E). destruct ok; simpl in E; [|discriminate].
    apply (keeps_Write table_slot) in E1 as K1.
    apply Write_true in E1 as (_ & F1 & _).
    apply IH in E as (K & Hfp). split; [congruence|].
    rewrite bytes_of_cons. destruct rest as [|r' rest'].
    + rewrite Hfp, F1. unfold bytes_of. simpl. rewrite app_nil_r. reflexivity.
    + rewrite Hfp, F1, file_write_app. reflexivity.
Qed.

Lemma write_args_stream cmdline : forall w w',
  Forall (fun arg => Z.of_nat (String.length arg) + 64 < 2 ^ 32) cmdline ->
  write_args cmdline w = Ret true w' ->
  table_slot w' = table_slot w /\
  match cmdline with
  | [] => record_fp_ w' = record_fp_ w
  | _ => record_fp_ w' = file_write (record_fp_ w) (args_image cmdline)
  end.
Proof.
  induction cmdline as [|arg rest IH]; intros w w' Hfit E; simpl in E.
  - inversion E; subst. auto.
  - inversion Hfit as [|? ? Harg Hrest]; subst.
    destruct (Align_64 (Z.of_nat (String.length arg) + 1)) as (_ & Hlen).
    rewrite (wrap32_small (Align _ 64)) in E by lia.
    apply bind_Ret in E as (ok & w1 & E1 & E). destruct ok; simpl in E; [|discriminate].
    apply (keeps_Write table_slot) in E1 as K1.
    apply Write_true in E1 as (_ & F1 & _).
    apply bind_Ret in E as (ok & w2 & E2 & E). destruct ok; simpl in E; [|discriminate].
    apply (keeps_Write table_slot) in E2 as K2.
    apply Write_true in E2 as (_ & F2 & _).
    apply IH in E as (K & Hfp); [|exact Hrest]. split; [congruence|].
    unfold args_image. rewrite fmap_cons. cbn [concat]. fold (args_image rest).
    rewrite F1, file_write_app in F2.
    destruct rest as [|arg' rest'].
    + rewrite Hfp, F2. unfold args_image. simpl. rewrite app_nil_r. reflexivity.
    + rewrite Hfp, F2, file_write_app. reflexivity.
Qed.

(** A stream that stands at its end takes what is written to it at its
    end. *)
Lemma appended_at_end (f f' : FILE) D buf :
  f = mkFILE D (length D) ->
  f' = file_write f buf \/ (buf = [] /\ f' = f) ->
  f_data f' = D ++ buf.
Proof.
  intros -> [->|(-> & ->)].
  - rewrite file_write_append. reflexivity.
  - simpl. rewrite app_nil_r. reflexivity.
Qed.

(** A feature write that returns [true] has appended its payload to the
    stream before its [WriteFeatureEnd]. *)
Lemma perform_feature_payload (c : call) (w w' : RecordFileWriter) :
  is_feature_write c = true ->
  payload_fits c ->
  perform c w = Ret true w' ->
  exists feature w2,
    f_data (record_fp_ w2) = f_data (record_fp_ w) ++ feature_payload c /\
    table_slot w2 = table_slot w /\
    WriteFeatureEnd feature (Z.of_nat (length (f_data (record_fp_ w)))) w2 = Ret true w'.
Proof.
  intros Hc Hfit E. set (D := f_data (record_fp_ w)).
  destruct c; try discriminate; simpl in E;
    apply bind_Ret in E as (so & w1 & E1 & E);
    (destruct so as [start_offset|]; [|discriminate]);
    apply WriteFeatureBegin_Some in E1 as (-> & F1 & K1); fold D in F1, E.
  - apply bind_Ret in E as (ok & w2 & E2 & E). destruct ok; simpl in E; [|discriminate].
    apply write_records_stream in E2 as (K2 & F2).
    exists FEAT_BUILD_ID, w2. split; [|split; [congruence | exact E]].
    apply (appended_at_end (record_fp_ w1)); [exact F1|]. cbn [feature_payload].
    destruct build_id_records; [right; split; [reflexivity | exact F2] | left; exact F2].
  - simpl in Hfit.
    destruct (Align_64 (Z.of_nat (String.length s) + 1)) as (_ & Hlen).
    rewrite (wrap32_small (Align _ 64)) in E by lia.
    apply bind_Ret in E as (ok & w2 & E2 & E). destruct ok; simpl in E; [|discriminate].
    apply (keeps_Write table_slot) in E2 as K2.
    apply Write_true in E2 as (_ & F2 & _).
    apply bind_Ret in E as (ok & w3 & E3 & E). destruct ok; simpl in E; [|discriminate].
    apply (keeps_Write table_slot) in E3 as K3.
    apply Write_true in E3 as (_ & F3 & _).
    exists feature, w3. split; [|split; [congruence | exact E]].
    rewrite F3, F2, file_write_app, F1, file_write_append. reflexivity.
  - destruct Hfit as (Hcount & Hargs).
    rewrite (wrap32_small (Z.of_nat (length cmdline))) in E by lia.
    apply bind_Ret in E as (ok & w2 & E2 & E). destruct ok; simpl in E; [|discriminate].
    apply (keeps_Write table_slot) in E2 as K2.
    apply Write_true in E2 as (_ & F2 & _).
    apply bind_Ret in E as (ok & w3 & E3 & E). destruct ok; simpl in E; [|discriminate].
    apply write_args_stream in E3 as (K3 & F3); [|exact Hargs].
    exists FEAT_CMDLINE, w3. split; [|split; [congruence | exact E]].
    cbn [feature_payload]. rewrite F1, file_write_append in F2.
    destruct cmdline as [|arg rest].
    + rewrite F3, F2. change (args_image []) with (@nil byte).
      rewrite app_nil_r. reflexivity.
    + rewrite F3, F2. rewrite file_write_append. cbn [f_data].
      rewrite <- app_assoc. reflexivity.
  - exists FEAT_BRANCH_STACK, w1. split; [|split; [exact K1 | exact E]].
    rewrite F1. simpl. rewrite app_nil_r. reflexivity.
Qed.

(** X10. A feature write that returns [true] has appended its payload to
    the stream and has put, in its slot of the table (which is to lie in the
    stream as it was), the descriptor with the offset at which the payload
    starts, the former end of the stream, and with the size of the payload.
    Nothing else in the stream has changed. The payload of the build id
    feature is the sequence of the records; that of the cmdline feature is the
    number of arguments and then every argument with its length prefix and zero
    padding; the branch stack feature has none. *)
Theorem feature_write_stream (c : call) (w w' : RecordFileWriter) :
  is_feature_write c = true ->
  payload_fits c ->
  table_slot w + sizeof_SectionDesc <= Z.of_nat (length (f_data (record_fp_ w))) ->
  perform c w = Ret true w' ->
  let D := f_data (record_fp_ w) in
  let slot := Z.to_nat (table_slot w) in
  f_data (record_fp_ w')
  = take slot D
    ++ SectionDesc_bytes
         (mkSectionDesc (Z.of_nat (length D)) (Z.of_nat (length (feature_payload c))))
    ++ drop (slot + 16) D ++ feature_payload c.
Proof.
  intros Hc Hfit Hslot E D slot.
  apply perform_feature_payload in E as (feature & w2 & HD & Hts & E);
    [ | exact Hc | exact Hfit].
  unfold slot. rewrite <- Hts.
  apply (WriteFeatureEnd_stream feature w2 w' D (feature_payload c));
    [exact HD | rewrite Hts; exact Hslot | exact E].
Qed.

(** ** The file header *)

Lemma set_feature_bit_Some feature features features' :
  set_feature_bit feature features = Some features' ->
  0 <= feature < 8 * Z.of_nat (length features) /\
  length features' = length features /\
  forall f, 0 <= f ->
    feature_bit features' f = feature_bit features f || bool_decide (f = feature).
Proof.
  unfold set_feature_bit.
  destruct (0 <=? Z.quot feature 8) eqn:Hi; [|discriminate].
  destruct (Z.quot feature 8 <? Z.of_nat (length features)) eqn:Hl; [|discriminate].
  destruct (0 <=? Z.rem feature 8) eqn:Hj; [|discriminate].
  simpl. intros E. injection E as <-.
  apply Z.leb_le in Hi, Hj. apply Z.ltb_lt in Hl.
  pose proof (Z.quot_rem' feature 8) as Hqr.
  assert (Hf : 0 <= feature) by lia.
  rewrite Z.quot_div_nonneg in * by lia. rewrite Z.rem_mod_nonneg in * by lia.
  pose proof (Z.mod_pos_bound feature 8 ltac:(lia)) as Hm.
  split; [lia|]. split; [apply length_alter|].
  intros f Hf0. unfold feature_bit.
  pose proof (Z.mod_pos_bound f 8 ltac:(lia)) as Hfm.
  pose proof (Z.div_mod f 8 ltac:(lia)) as Hfd.
  destruct (decide (Z.to_nat (f / 8) = Z.to_nat (feature / 8))) as [Heq|Hne].
  - rewrite Heq, list_lookup_alter_eq.
    destruct (features !! Z.to_nat (feature / 8)) as [b|] eqn:Hb; simpl.
    + change 256 with (2 ^ 8). rewrite Z.mod_pow2_bits_low by lia.
      rewrite Z.lor_spec, Z.shiftl_1_l, Z.pow2_bits_eqb by lia.
      f_equal. assert (Hdiv : f / 8 = feature / 8).
      { pose proof (Z.div_pos f 8 ltac:(lia) ltac:(lia)).
        pose proof (Z.div_pos feature 8 ltac:(lia) ltac:(lia)). lia. }
      destruct (feature mod 8 =? f mod 8) eqn:Hbit.
      * apply Z.eqb_eq in Hbit. rewrite bool_decide_eq_true_2; [reflexivity | lia].
      * apply Z.eqb_neq in Hbit. rewrite bool_decide_eq_false_2; [reflexivity|].
        intros ->. contradiction.
    + apply lookup_ge_None in Hb. lia.
  - rewrite list_lookup_alter_ne by congruence.
    rewrite bool_decide_eq_false_2 by (intros ->; contradiction).
    rewrite orb_false_r. reflexivity.
Qed.

Lemma set_feature_bits_Some fs : forall features features',
  set_feature_bits fs features = Some features' ->
  Forall (fun f => 0 <= f < 8 * Z.of_nat (length features)) fs /\
  length features' = length features /\
  forall f, 0 <= f ->
    feature_bit features' f = feature_bit features f || bool_decide (f ∈ fs).
Proof.
  induction fs as [|feature rest IH]; intros features features' E; simpl in E.
  - injection E as <-. split; [constructor|]. split; [reflexivity|].
    intros f _. rewrite bool_decide_eq_false_2 by (intros Hin; inversion Hin).
    rewrite orb_false_r. reflexivity.
  - destruct (set_feature_bit feature features) as [features1|] eqn:E1; [|discriminate].
    apply set_feature_bit_Some in E1 as (Hr & Hl1 & Hb1).
    apply IH in E as (Hall & Hl & Hb). rewrite Hl1 in *.
    split; [constructor; assumption|]. split; [exact Hl|].
    intros f Hf. rewrite Hb, Hb1 by exact Hf. rewrite <- orb_assoc. f_equal.
    destruct (decide (f = feature)) as [->|Hne].
    + rewrite bool_decide_eq_true_2 by reflexivity.
      rewrite (bool_decide_eq_true_2 (_ ∈ _ :: _)) by left. reflexivity.
    + rewrite (bool_decide_eq_false_2 (f = feature)) by exact Hne. simpl.
      apply bool_decide_ext. rewrite elem_of_cons. tauto.
Qed.

Lemma set_feature_bits_in_range fs : forall features,
  Forall (fun f => 0 <= f < 8 * Z.of_nat (length features)) fs ->
  exists features', set_feature_bits fs features = Some features'.
Proof.
  induction fs as [|feature rest IH]; intros features Hall; simpl; [eauto|].
  inversion Hall as [|? ? Hf Hrest]; subst.
  assert (E : exists features1, set_feature_bit feature features = Some features1).
  { unfold set_feature_bit.
    rewrite Z.quot_div_nonneg, Z.rem_mod_nonneg by lia.
    pose proof (Z.mod_pos_bound feature 8 ltac:(lia)).
    pose proof (Z.div_pos feature 8 ltac:(lia) ltac:(lia)).
    assert (feature / 8 < Z.of_nat (length features))
      by (apply Z.div_lt_upper_bound; lia).
    destruct (0 <=? feature / 8) eqn:A; [|lia].
    destruct (feature / 8 <? Z.of_nat (length features)) eqn:B; [|lia].
    destruct (0 <=? feature mod 8) eqn:C; [|lia].
    simpl. eauto. }
  destruct E as (features1 & E). rewrite E.
  apply set_feature_bit_Some in E as (_ & Hl & _).
  apply IH. rewrite Hl. exact Hrest.
Qed.

Lemma feature_bit_zero n f : feature_bit (replicate n 0) f = false.
Proof.
  unfold feature_bit. destruct (replicate n 0 !! _) as [b|] eqn:Hb; [|reflexivity].
  apply lookup_replicate in Hb as (-> & _). apply Z.bits_0.
Qed.

Section HeaderFacts.

Context `{FileHeaderFormat}.

Lemma header_image_length header :
  length (header_image header) = Z.to_nat sizeof_FileHeader.
Proof. apply length_resize. Qed.

Lemma keeps_WriteFileHeader : keeps bookkeeping WriteFileHeader.
Proof.
  unfold WriteFileHeader. apply keeps_bind; [apply keeps_get|]. intros w.
  destruct (build_header w); repeat keeps_step.
Qed.

Lemma WriteFileHeader_true w w' :
  WriteFileHeader w = Ret true w' ->
  exists header,
    build_header w = Some header /\
    f_data (record_fp_ w')
    = header_image header ++ drop (length (header_image header)) (f_data (record_fp_ w)).
Proof.
  intros E. unfold WriteFileHeader in E.
  apply bind_Ret in E as (w0 & w1 & E0 & E). inversion E0; subst w0 w1; clear E0.
  destruct (build_header w) as [header|] eqn:Hb; [|discriminate].
  exists header. split; [reflexivity|].
  apply bind_Ret in E as (rc & w1 & E1 & E).
  apply on_record_fp_fseek_Ret in E1 as [->|(-> & _ & _ & ->)]; [discriminate|].
  cbn [Z.eqb] in E.
  apply bind_Ret in E as (ok & w2 & E2 & E). destruct ok; simpl in E; [|discriminate].
  inversion E; subst w2; clear E.
  apply Write_true in E2 as (_ & F2 & _).
  cbn [record_fp_ set_record_fp set_io_faults] in F2.
  change (Z.to_nat (to_long 0)) with 0%nat in F2.
  rewrite F2. unfold file_write. cbn [f_data f_pos]. rewrite take_0. reflexivity.
Qed.

(** X11. [WriteFileHeader] that returns [true] has written, over the first
    [sizeof(FileHeader)] bytes of the stream and nothing else, the image of a
    header that has the magic and the two sizes, the offset and the size of
    the attribute section and of the data section as the writer has them, and a
    bitmap in which the bit of a feature is set exactly when the feature is in
    [features_]. The writer's bookkeeping is as it was. When every feature
    in [features_] has a bit in the bitmap the method returns, and in a quiet
    environment it returns [true]. *)
Theorem WriteFileHeader_writes_header (w : RecordFileWriter) :
  (forall w', WriteFileHeader w = Ret true w' ->
     exists header,
       build_header w = Some header /\
       take (Z.to_nat sizeof_FileHeader) (f_data (record_fp_ w')) = header_image header /\
       drop (Z.to_nat sizeof_FileHeader) (f_data (record_fp_ w'))
       = drop (Z.to_nat sizeof_FileHeader) (f_data (record_fp_ w)) /\
       bookkeeping w' = bookkeeping w /\
       PerfFileFormat.magic header = PERF_MAGIC /\
       PerfFileFormat.header_size header = sizeof_FileHeader /\
       PerfFileFormat.attr_size header = sizeof_FileAttr /\
       PerfFileFormat.attrs header
       = mkSectionDesc (attr_section_offset_ w) (attr_section_size_ w) /\
       PerfFileFormat.data header
       = mkSectionDesc (data_section_offset_ w) (data_section_size_ w) /\
       length (PerfFileFormat.features header) = features_size /\
       forall f, 0 <= f ->
         feature_bit (PerfFileFormat.features header) f = bool_decide (f ∈ features_ w)) /\
  (Forall (fun f => 0 <= f < 8 * Z.of_nat features_size) (features_ w) ->
   exists b w', WriteFileHeader w = Ret b w' /\
                (quiet w -> 0 < sizeof_FileHeader < 2 ^ 63 -> b = true)).
Proof.
  split.
  - intros w' E. pose proof (keeps_WriteFileHeader _ _ _ E) as K.
    apply WriteFileHeader_true in E as (header & Hb & Hdata).
    exists header. split; [exact Hb|].
    rewrite <- (header_image_length header).
    rewrite Hdata, take_app_length, drop_app_length.
    split; [reflexivity|]. split; [reflexivity|]. split; [exact K|].
    unfold build_header in Hb.
    destruct (set_feature_bits (features_ w) (replicate features_size 0))
      as [features|] eqn:Hf; [|discriminate].
    injection Hb as <-. cbn.
    apply set_feature_bits_Some in Hf as (_ & Hl & Hbits).
    rewrite length_replicate in Hl.
    repeat split; try reflexivity; try exact Hl.
    intros f Hf0. rewrite Hbits by exact Hf0. rewrite feature_bit_zero. reflexivity.
  - intros Hall.
    destruct (set_feature_bits_in_range (features_ w) (replicate features_size 0))
      as (features & Hf); [rewrite length_replicate; exact Hall|].
    unfold WriteFileHeader. rewrite bind_unfold. cbn [get].
    unfold build_header. rewrite Hf.
    match goal with
    | |- context [on_record_fp ?call ≫= ?k] =>
        destruct (returns_bind (on_record_fp call) k) with (w := w)
          as (b & w' & E)
    end.
    { apply returns_on_record_fp. intros f. apply returns_fseek. }
    { intros rc. destruct (rc =? -1); [apply returns_ret|].
      apply returns_bind; [apply returns_Write|].
      intros ok. destruct ok; apply returns_ret. }
    exists b, w'. split; [exact E|].
    intros Hq Hs. rewrite bind_unfold, on_record_fp_fseek_quiet in E
      by (try exact Hq; vm_compute; discriminate).
    cbn [Z.eqb] in E.
    rewrite bind_unfold, Write_quiet in E
      by (try exact Hq; rewrite header_image_length; lia).
    inversion E. reflexivity.
Qed.

(** X12. [Close] on a writer whose stream is gone fails its CHECK. On an
    open writer, whatever the header write and [fclose] did, [Close] leaves
    [record_fp_] null: another [Close] fails the CHECK and the destructor does
    nothing, while the destructor of a writer that was not closed runs
    [Close]. [Close] closes the stream also when the header could not be
    written, and it returns [true] only when the header is in the stream and
    [fclose] succeeded. *)
Theorem Close_once (w : RecordFileWriter) :
  Close false w = Fatal /\
  destructor false w = Ret false w /\
  (forall result is_open w',
     Close true w = Ret (result, is_open) w' ->
     is_open = false /\
     Close is_open w' = Fatal /\
     destructor is_open w' = Ret false w' /\
     destructor true w = Ret false w' /\
     exists ok w1 rc,
       WriteFileHeader w = Ret ok w1 /\ fclose w1 = Ret rc w' /\
       (result = true ->
        ok = true /\ rc = 0 /\
        exists header,
          build_header w = Some header /\
          take (Z.to_nat sizeof_FileHeader) (f_data (record_fp_ w')) = header_image header)).
Proof.
  split; [reflexivity|]. split; [reflexivity|].
  intros result is_open w' E.
  assert (Hd : destructor true w = Ret is_open w').
  { unfold destructor. rewrite bind_unfold, E. reflexivity. }
  unfold Close in E.
  apply bind_Ret in E as ([] & w0 & E0 & E). inversion E0; subst w0; clear E0.
  apply bind_Ret in E as (ok & w1 & E1 & E).
  apply bind_Ret in E as (rc & w2 & E2 & E).
  inversion E; subst; clear E.
  split; [reflexivity|]. split; [reflexivity|]. split; [reflexivity|].
  split; [exact Hd|].
  exists ok, w1, rc. split; [exact E1|]. split; [exact E2|].
  intros Hres. destruct ok; [|destruct (rc =? 0); discriminate].
  destruct (rc =? 0) eqn:Hrc; [|discriminate]. apply Z.eqb_eq in Hrc.
  split; [reflexivity|]. split; [exact Hrc|].
  apply WriteFileHeader_true in E1 as (header & Hb & Hdata).
  exists header. split; [exact Hb|].
  assert (Hfp : record_fp_ w' = record_fp_ w1).
  { unfold fclose in E2. apply bind_Ret in E2 as (bad & w3 & E3 & E2).
    apply (keeps_io_fault record_fp_) in E3.
    destruct bad; inversion E2; subst; exact E3. }
  rewrite Hfp, Hdata, <- (header_image_length header). apply take_app_length.
Qed.

End HeaderFacts.

(** ** SortDataSection in a quiet environment *)

Lemma on_record_fp_eq {A} (call : FILE -> M (A * FILE)) w x f w1 :
  call (record_fp_ w) w = Ret (x, f) w1 ->
  on_record_fp call w = Ret x (set_record_fp f w1).
Proof.
  intros E. unfold on_record_fp. rewrite bind_unfold. cbn [get].
  rewrite bind_unfold, E. reflexivity.
Qed.

Section SortQuiet.

Variables (a : perf_event_attr) (rs : list record) (pre post : list byte).

Hypothesis rs_well_formed : Forall well_formed rs.
Hypothesis stream_is_off_t :
  Z.of_nat (length (pre ++ bytes_of rs ++ post)) < 2 ^ 63.
Hypothesis lanes_sorted : forall cpu, StronglySorted (time_le a) (lane a cpu rs).

Lemma partition_loop_quiet fuel : forall done todo cur_size cpu_map w,
  rs = done ++ todo ->
  quiet w ->
  data_section_size_ w = Z.of_nat (length (bytes_of rs)) ->
  record_fp_ w = mkFILE (pre ++ bytes_of rs ++ post)
                   (length pre + length (bytes_of done)) ->
  cur_size = Z.of_nat (length (bytes_of done)) ->
  went_well (fun x => x.1) (partition_loop fuel cur_size cpu_map w).
Proof.
  induction fuel as [|fuel IH]; intros done todo cur_size cpu_map w Hrs Hq Hdss Hfp Hcur;
    simpl; rewrite bind_unfold; cbn [get];
    destruct (cur_size <? data_section_size_ w) eqn:L;
    try exact I; try (split; [reflexivity | exact Hq]).
  destruct todo as [|r todo].
  { rewrite app_nil_r in Hrs. subst done. lia. }
  assert (Hr : well_formed r).
  { rewrite Forall_forall in rs_well_formed. apply rs_well_formed.
    rewrite Hrs. apply elem_of_app. right. left. }
  pose proof Hr as ((Hs0 & Hs) & _).
  rewrite bind_unfold.
  rewrite (on_record_fp_eq ReadRecordFromFile w (Some r)
             (mkFILE (pre ++ bytes_of rs ++ post)
                (length pre + length (bytes_of done) + length (Binary r))) w).
  2:{ rewrite Hfp. erewrite ReadRecordFromFile_quiet; [reflexivity | exact Hq | exact Hr |].
      cbn [f_pos f_data]. apply (stream_at_record rs pre post rs_well_formed stream_is_off_t done r todo Hrs). }
  rewrite bind_unfold.
  assert (Hopen : exists cd,
            (match cpu_map !! Cpu (event_attr_ w) r with
             | Some cpu_data => mret (Some cpu_data)
             | None => f ← fopen_scratch;
                       mret (match f with
                             | Some f => Some (mkCpuData f 0)
                             | None => None
                             end)
             end : M (option CpuData))
              (set_record_fp
                 (mkFILE (pre ++ bytes_of rs ++ post)
                    (length pre + length (bytes_of done) + length (Binary r))) w)
            = Ret (Some cd)
                (set_record_fp
                   (mkFILE (pre ++ bytes_of rs ++ post)
                      (length pre + length (bytes_of done) + length (Binary r))) w)).
  { destruct (cpu_map !! Cpu (event_attr_ w) r) as [cd|]; [eexists; reflexivity|].
    rewrite bind_unfold, fopen_scratch_quiet by exact Hq. eexists; reflexivity. }
  destruct Hopen as (cd & ->).
  rewrite bind_unfold, WriteRecordToFile_quiet by (try exact Hq; lia).
  cbn [negb].
  apply (IH (done ++ [r]) todo); try assumption.
  - rewrite Hrs, <- app_assoc. reflexivity.
  - cbn [record_fp_ set_record_fp]. rewrite bytes_of_snoc, length_app.
    f_equal. lia.
  - rewrite bytes_of_snoc, length_app. subst cur_size.
    pose proof (f_equal (fun l => length (bytes_of l)) Hrs) as Hlen. simpl in Hlen.
    rewrite bytes_of_app, bytes_of_cons, !length_app in Hlen.
    pose proof stream_is_off_t as Hoff. rewrite !length_app in Hoff.
    unfold size, wrap64. rewrite Z.mod_small; lia.
Qed.

Lemma push_first_loop_quiet its : forall cpu_map cache w,
  quiet w ->
  (forall cpu cd, (cpu, cd) ∈ its ->
     exists r rest, lane a cpu rs = r :: rest /\ cd = open_entry (r :: rest)) ->
  went_well (fun x => x.1.1) (push_first_loop its cpu_map cache w).
Proof.
  induction its as [|[cpu cd] its IH]; intros cpu_map cache w Hq Hits; simpl.
  { split; [reflexivity | exact Hq]. }
  destruct (Hits cpu cd ltac:(left)) as (r & rest & Hl & ->).
  assert (Hr : well_formed r).
  { apply (lane_well_formed a rs rs_well_formed cpu). rewrite Hl. left. }
  rewrite bind_unfold, fseek_quiet by (try exact Hq; vm_compute; discriminate).
  cbn [Z.eqb]. change (Z.to_nat (to_long 0)) with 0%nat.
  rewrite bind_unfold.
  erewrite ReadRecordFromFile_quiet;
    [ | exact Hq | exact Hr | cbn [f_pos f_data fp open_entry]; rewrite drop_0;
                               apply bytes_of_cons ].
  apply IH; [exact Hq|]. intros cpu' cd' Hin. apply Hits. right. exact Hin.
Qed.

Lemma merge_loop_quiet fuel : forall cpu_map cache out w,
  quiet w -> event_attr_ w = a ->
  merging a rs cpu_map cache out ->
  went_well id (merge_loop fuel cpu_map cache w).
Proof.
  induction fuel as [|fuel IH]; intros cpu_map cache out w Hq Ha Hm;
    simpl; rewrite bind_unfold; cbn [get]; rewrite Ha;
    destruct (ForcedPop a cache) as [[m cache1]|] eqn:P;
    try exact I; try (split; [reflexivity | exact Hq]).
  apply ForcedPop_Some in P as ((c1 & c2 & -> & ->) & Hmin).
  pose proof Hm as (Hl & _).
  destruct (Hl (Cpu a m)) as (remaining & Heq & _ & Hlen & Hlook).
  destruct (lane_popped a rs pre post c1 m c2 Hlen) as (Hcm & _). rewrite Hcm in *.
  assert (Hwf : well_formed m).
  { apply (lane_well_formed a rs rs_well_formed (Cpu a m)).
    rewrite Heq, !elem_of_app. right. left. left. }
  pose proof Hwf as ((Hs0 & Hs) & _).
  rewrite bind_unfold.
  rewrite (on_record_fp_eq (WriteRecordToFile m) w true
             (file_write (record_fp_ w) (Binary m)) w)
    by (apply WriteRecordToFile_quiet; [exact Hq | lia]).
  cbn [negb].
  rewrite Hlook by (rewrite Heq; destruct (lane a (Cpu a m) out); discriminate).
  unfold merging_entry at 1 2 3. cbn [data_size fp].
  destruct remaining as [|r' rem'].
  - change (Z.of_nat (length (bytes_of [])) >? 0) with false. cbv iota.
    apply (IH _ _ (out ++ [m])); [exact Hq | exact Ha |].
    rewrite <- (app_nil_r (c1 ++ c2)).
    change (@nil record) with (take 1 (@nil record)) at 1.
    eapply (merging_pop a rs pre post lanes_sorted); [exact Hm | exact Hmin | exact Heq | | reflexivity].
    simpl. rewrite app_nil_r. apply Hlook.
    rewrite Heq. destruct (lane a (Cpu a m) out); discriminate.
  - assert (Hr' : well_formed r').
    { apply (lane_well_formed a rs rs_well_formed (Cpu a m)).
      rewrite Heq, !elem_of_app. right. right. left. }
    assert (Hpos : (Z.of_nat (length (bytes_of (r' :: rem'))) >? 0) = true).
    { destruct Hr' as ((? & ?) & _). rewrite bytes_of_cons, length_app.
      apply Z.gtb_lt. lia. }
    rewrite Hpos.
    assert (Hat : drop (length (bytes_of (lane a (Cpu a m) out ++ [m])))
                    (bytes_of ((lane a (Cpu a m) out ++ [m]) ++ r' :: rem'))
                  = Binary r' ++ bytes_of rem').
    { rewrite (bytes_of_app (_ ++ [m]) (r' :: rem')), drop_app_length, bytes_of_cons.
      reflexivity. }
    rewrite bind_unfold.
    erewrite ReadRecordFromFile_quiet; [ | exact Hq | exact Hr' | exact Hat].
    cbn [f_pos f_data].
    apply (IH _ _ (out ++ [m])); [exact Hq | exact Ha |].
    unfold Push. change [r'] with (take 1 (r' :: rem')).
    eapply (merging_pop a rs pre post lanes_sorted); [exact Hm | exact Hmin | exact Heq | | ].
    + rewrite lookup_insert_eq. f_equal. unfold merging_entry.
      cbn [take drop]. rewrite take_0, drop_0. f_equal.
      * f_equal; [rewrite <- !app_assoc; reflexivity|].
        rewrite (bytes_of_snoc (_ ++ [m]) r'), length_app. reflexivity.
      * pose proof (lane_bound a rs pre post rs_well_formed stream_is_off_t (Cpu a m) rs []
                      ltac:(rewrite app_nil_r; reflexivity)) as Hb.
        rewrite Heq, !bytes_of_app, !bytes_of_cons, !length_app in Hb.
        rewrite bytes_of_cons, length_app. unfold size, wrap64.
        rewrite Z.mod_small; lia.
    + intros cpu Hne. apply lookup_insert_ne. congruence.
Qed.

End SortQuiet.

(** X13. In a quiet environment [SortDataSection] succeeds on a data
    section that holds well-formed records, the records of every cpu in
    non-decreasing time order: every seek, every scratch file and every read
    and write it needs is there, and it returns [true]. *)
Theorem SortDataSection_succeeds (w : RecordFileWriter) (rs : list record) :
  quiet w ->
  IsTimestampSupported (event_attr_ w) = true ->
  IsCpuSupported (event_attr_ w) = true ->
  Forall well_formed rs ->
  (forall cpu, Sorted (time_le (event_attr_ w)) (lane (event_attr_ w) cpu rs)) ->
  0 <= data_section_offset_ w <= Z.of_nat (length (f_data (record_fp_ w))) ->
  Z.of_nat (length (f_data (record_fp_ w))) < 2 ^ 63 ->
  data_section_size_ w = Z.of_nat (length (bytes_of rs)) ->
  data_section w = bytes_of rs ->
  exists w', SortDataSection w = Ret true w' /\ quiet w'.
Proof.
  intros Hq Hts Hcpu Hwf Hsorted Hdso Hoff Hdss Hsec.
  set (a := event_attr_ w) in *.
  set (dso := Z.to_nat (data_section_offset_ w)).
  set (pre := take dso (f_data (record_fp_ w))).
  set (post := drop (dso + length (bytes_of rs)) (f_data (record_fp_ w))).
  assert (Hdata : f_data (record_fp_ w) = pre ++ bytes_of rs ++ post).
  { unfold data_section in Hsec. rewrite Hdss, Nat2Z.id in Hsec. fold dso in Hsec.
    unfold pre, post. rewrite <- drop_drop.
    rewrite <- Hsec at 1. rewrite take_drop, take_drop. reflexivity. }
  assert (Hpre : length pre = dso).
  { unfold pre. rewrite length_take. unfold dso. lia. }
  assert (Hsize : Z.of_nat (length (pre ++ bytes_of rs ++ post)) < 2 ^ 63)
    by (rewrite <- Hdata; exact Hoff).
  clearbody pre post.
  assert (Hss : forall cpu, StronglySorted (time_le a) (lane a cpu rs)).
  { intros cpu. apply Sorted_StronglySorted; [typeclasses eauto | apply Hsorted]. }
  assert (Hlong : to_long (data_section_offset_ w) = data_section_offset_ w).
  { unfold to_long, wrap64. rewrite Z.mod_small by lia.
    destruct (data_section_offset_ w <? 2 ^ 63) eqn:L; lia. }
  assert (Hw : went_well id (SortDataSection w)).
  { unfold SortDataSection. rewrite bind_unfold. cbn [get]. fold a.
    rewrite Hts, Hcpu. cbn [negb orb].
    rewrite bind_unfold, on_record_fp_fseek_quiet by (try exact Hq; lia).
    cbn [Z.eqb]. rewrite Hlong. fold dso. rewrite bind_unfold. cbn [get].
    apply (went_well_bind (fun x => x.1) id).
    { eapply (partition_loop_quiet rs pre post Hwf Hsize _ [] rs);
        [ reflexivity | exact Hq | exact Hdss
        | cbn [record_fp_ set_record_fp]; rewrite Hdata, Hpre; f_equal;
          unfold bytes_of; simpl; lia
        | reflexivity ]. }
    intros [ok cpu_map] w2 E2 Hok Hq2. simpl in Hok. subst ok. cbn [negb].
    pose proof (keeps_partition_loop event_attr_ _ _ _ _ _ _ E2) as Ka2.
    eapply (partition_loop_true a rs pre post Hwf Hsize _ [] rs) in E2
      as (Hpart & Hfp2);
      [ | reflexivity | reflexivity | exact Hdss
        | simpl; rewrite Hdata, Hpre; f_equal; unfold bytes_of; simpl; lia
        | reflexivity | intros cpu; apply lookup_empty ].
    cbn [data_section_offset_ set_record_fp].
    rewrite bind_unfold, on_record_fp_fseek_quiet by (try exact Hq2; lia).
    cbn [Z.eqb].
    apply (went_well_bind (fun x => x.1.1) id).
    { apply (push_first_loop_quiet a rs Hwf); [exact Hq2|].
      intros cpu cd Hin. apply elem_of_map_to_list in Hin.
      specialize (Hpart cpu). rewrite Hin in Hpart. unfold scratch_entry in Hpart.
      destruct (lane a cpu rs) as [|r rest]; [discriminate|].
      exists r, rest. split; [reflexivity|]. congruence. }
    intros [[ok cpu_map'] cache] w4 E4 Hok Hq4. simpl in Hok. subst ok. cbn [negb].
    pose proof (keeps_push_first_loop event_attr_ _ _ _ _ _ _ E4) as Ka4.
    eapply (push_first_loop_true a rs pre post Hwf Hsize _ []) in E4;
      [ | simpl; exact Ka2 | apply NoDup_fst_map_to_list
        | intros cpu cd Hin; apply elem_of_map_to_list; exact Hin
        | intros cpu _ Hin; inversion Hin
        | split; [intros cpu Hin; inversion Hin
                 | intros cpu _; split; [reflexivity | apply Hpart]] ].
    simpl in E4.
    apply (first_pushed_merging a rs cpu_map cpu_map' cache Hpart) in E4.
    eapply (merge_loop_quiet a rs pre post Hwf Hsize Hss); [exact Hq4 | | exact E4].
    rewrite Ka4. simpl. exact Ka2. }
  destruct (went_well_Ret id _ Hw (halts_SortDataSection w)) as (b & w' & E & Hb & Hq').
  unfold id in Hb. subst b. eauto.
Qed.

(** X14. With both capabilities and a data section that is not empty,
    [SortDataSection] returns [false], whatever the environment does, when the
    stream ends before the end of the first record of the section: the seek
    fails, or the first read returns [nullptr]. *)
Theorem SortDataSection_truncated (w : RecordFileWriter) :
  IsTimestampSupported (event_attr_ w) = true ->
  IsCpuSupported (event_attr_ w) = true ->
  0 < data_section_size_ w ->
  let at_ := Z.to_nat (to_long (data_section_offset_ w)) in
  let pheader := take sizeof_perf_event_header (drop at_ (f_data (record_fp_ w))) in
  let n := Z.to_nat (Z.max (pheader_size pheader) (Z.of_nat sizeof_perf_event_header)) in
  (length (f_data (record_fp_ w)) < at_ + n)%nat ->
  exists w', SortDataSection w = Ret false w' /\
             f_data (record_fp_ w') = f_data (record_fp_ w).
Proof.
  intros Hts Hcpu Hdss at_ pheader n Hshort.
  unfold SortDataSection. rewrite bind_unfold. cbn [get].
  rewrite Hts, Hcpu. cbn [negb orb]. rewrite bind_unfold.
  match goal with
  | |- context [on_record_fp ?call w] =>
      destruct (returns_on_record_fp call (fun f => returns_fseek f _) w) as (rc & w1 & E1)
  end.
  rewrite E1.
  apply on_record_fp_Ret in E1 as (f & w2 & E1 & ->).
  apply fseek_Ret in E1 as (-> & [(-> & ->)|(-> & _ & Ho & ->)]).
  { cbn [Z.eqb]. eexists. split; reflexivity. }
  cbn [Z.eqb]. rewrite bind_unfold. cbn [get].
  set (w1 := set_record_fp _ _).
  assert (Hp : forall fuel, exists w2,
            partition_loop (S fuel) 0 ∅ w1 = Ret (false, ∅) w2 /\
            f_data (record_fp_ w2) = f_data (record_fp_ w)).
  { intros fuel. cbn [partition_loop]. rewrite bind_unfold. cbn [get].
    change (data_section_size_ w1) with (data_section_size_ w).
    destruct (0 <? data_section_size_ w) eqn:L; [|lia].
    destruct (ReadRecordFromFile_short (record_fp_ w1) w1) as (f' & w2 & E2 & Hf');
      [exact Hshort|].
    rewrite bind_unfold, (on_record_fp_eq ReadRecordFromFile w1 None f' w2 E2).
    eexists. split; [reflexivity|]. cbn [record_fp_ set_record_fp]. exact Hf'. }
  destruct (Hp (length (f_data (record_fp_ w1)))) as (w2 & E2 & Hf2).
  rewrite bind_unfold, E2. cbn [negb]. eexists. split; [reflexivity | exact Hf2].
Qed.

(** ** What the methods leave alone *)

Section Frame.

Context {X : Type} (g : RecordFileWriter -> X).
Context `{!IgnoresFp g} `{!IgnoresFaults g}.
Hypothesis ignores_data_section_size :
  forall n w, g (set_data_section_size n w) = g w.

Lemma keeps_WriteData_frame buf : keeps g (WriteData buf).
Proof. unfold WriteData. repeat keeps_step. Qed.

Lemma keeps_WriteRecord_loop_frame fuel : forall p left_bytes,
  keeps g (WriteRecord_loop fuel p left_bytes).
Proof.
  induction fuel; intros p left_bytes; simpl; repeat keeps_step;
    auto using keeps_WriteData_frame.
Qed.

Lemma keeps_WriteRecord_frame r : keeps g (WriteRecord r).
Proof.
  unfold WriteRecord. repeat keeps_step;
    auto using keeps_WriteData_frame, keeps_WriteRecord_loop_frame.
Qed.

End Frame.

#[local] Instance feature_table_ignores_fp : IgnoresFp feature_table.
Proof. intros f w; reflexivity. Qed.
#[local] Instance feature_table_ignores_faults : IgnoresFaults feature_table.
Proof. intros l w; reflexivity. Qed.
#[local] Instance features_ignores_fp : IgnoresFp features_.
Proof. intros f w; reflexivity. Qed.
#[local] Instance features_ignores_faults : IgnoresFaults features_.
Proof. intros l w; reflexivity. Qed.

(** X15. Every field of the bookkeeping is assigned by the methods that
    are about it and by no other: [WriteAttrSection] leaves
    [data_section_size_] and the feature table alone, [WriteRecord] the
    section offsets, the retained attribute and the feature table,
    [SortDataSection] all of them. [WriteFeatureHeader] assigns the count and
    resets the index, whatever it returns, and leaves the offsets,
    [data_section_size_] and also [features_] alone: the features recorded
    before the call stay recorded. *)
Theorem fields_change_only_where_assigned (c : call) (w w' : RecordFileWriter) (b : bool) :
  perform c w = Ret b w' ->
  match c with
  | CallWriteAttrSection _ =>
      data_section_size_ w' = data_section_size_ w /\ feature_table w' = feature_table w
  | CallWriteRecord _ =>
      layout w' = layout w /\ feature_table w' = feature_table w
  | CallSortDataSection =>
      layout w' = layout w /\ data_section_size_ w' = data_section_size_ w /\
      feature_table w' = feature_table w
  | CallWriteFeatureHeader n =>
      layout w' = layout w /\ data_section_size_ w' = data_section_size_ w /\
      feature_table w' = (n, 0, features_ w)
  | _ => layout w' = layout w /\ data_section_size_ w' = data_section_size_ w
  end.
Proof.
  destruct c; simpl; intros E.
  - assert (Kd : keeps data_section_size_ (WriteAttrSection attr_ids))
      by (unfold WriteAttrSection; repeat keeps_step).
    assert (Kt : keeps feature_table (WriteAttrSection attr_ids))
      by (unfold WriteAttrSection; repeat keeps_step).
    split; [exact (Kd _ _ _ E) | exact (Kt _ _ _ E)].
  - split; [exact (keeps_layout_WriteRecord _ _ _ _ E)|].
    revert E. apply (keeps_WriteRecord_frame feature_table). reflexivity.
  - split; [|split]; revert E; apply keeps_SortDataSection; typeclasses eauto.
  - assert (Kd : keeps data_section_size_ (WriteFeatureHeader feature_count))
      by (unfold WriteFeatureHeader; repeat keeps_step).
    assert (Kf : keeps features_ (WriteFeatureHeader feature_count))
      by (unfold WriteFeatureHeader; repeat keeps_step).
    pose proof (WriteFeatureHeader_slots _ _ _ _ E) as (Hc & Hi).
    split; [exact (keeps_layout_WriteFeatureHeader _ _ _ _ E)|].
    split; [exact (Kd _ _ _ E)|].
    unfold feature_table. rewrite Hc, Hi, (Kf _ _ _ E). reflexivity.
  - eapply records_feature_frame; [|exact E].
    apply (perform_records_feature (CallWriteBuildIdFeature build_id_records)). reflexivity.
  - eapply records_feature_frame; [|exact E].
    apply (perform_records_feature (CallWriteFeatureString feature s)). reflexivity.
  - eapply records_feature_frame; [|exact E].
    apply (perform_records_feature (CallWriteCmdlineFeature cmdline)). reflexivity.
  - eapply records_feature_frame; [|exact E].
    apply (perform_records_feature CallWriteBranchStackFeature). reflexivity.
Qed.

(** The stream that a successful [SortDataSection] leaves: the merge of the
    lanes written over the data section, the position behind it. *)
Lemma SortDataSection_merged (w w' : RecordFileWriter) (rs : list record) :
  IsTimestampSupported (event_attr_ w) = true ->
  IsCpuSupported (event_attr_ w) = true ->
  Forall well_formed rs ->
  (forall cpu, Sorted (time_le (event_attr_ w)) (lane (event_attr_ w) cpu rs)) ->
  0 <= data_section_offset_ w <= Z.of_nat (length (f_data (record_fp_ w))) ->
  Z.of_nat (length (f_data (record_fp_ w))) < 2 ^ 63 ->
  data_section_size_ w = Z.of_nat (length (bytes_of rs)) ->
  data_section w = bytes_of rs ->
  SortDataSection w = Ret true w' ->
  exists out,
    out ≡ₚ rs /\
    record_fp_ w'
    = merged_stream rs
        (take (Z.to_nat (data_section_offset_ w)) (f_data (record_fp_ w)))
        (drop (Z.to_nat (data_section_offset_ w) + length (bytes_of rs))
           (f_data (record_fp_ w)))
        out.
Proof.
  intros Hts Hcpu Hwf Hsorted Hdso Hoff Hdss Hsec E.
  set (a := event_attr_ w) in *.
  set (dso := Z.to_nat (data_section_offset_ w)).
  set (pre := take dso (f_data (record_fp_ w))).
  set (post := drop (dso + length (bytes_of rs)) (f_data (record_fp_ w))).
  assert (Hdata : f_data (record_fp_ w) = pre ++ bytes_of rs ++ post).
  { unfold data_section in Hsec. rewrite Hdss, Nat2Z.id in Hsec. fold dso in Hsec.
    unfold pre, post. rewrite <- drop_drop.
    rewrite <- Hsec at 1. rewrite take_drop, take_drop. reflexivity. }
  assert (Hpre : length pre = dso).
  { unfold pre. rewrite length_take. unfold dso. lia. }
  assert (Hsize : Z.of_nat (length (pre ++ bytes_of rs ++ post)) < 2 ^ 63)
    by (rewrite <- Hdata; exact Hoff).
  clearbody pre post.
  assert (Hss : forall cpu, StronglySorted (time_le a) (lane a cpu rs)).
  { intros cpu. apply Sorted_StronglySorted; [typeclasses eauto | apply Hsorted]. }
  unfold SortDataSection in E.
  apply bind_Ret in E as (w0 & w0' & E0 & E). inversion E0; subst w0 w0'; clear E0.
  fold a in E. rewrite Hts, Hcpu in E. cbn [negb orb] in E.
  apply bind_Ret in E as (rc & w1 & E1 & E).
  apply on_record_fp_fseek_Ret in E1 as [->|(-> & _ & Ho & ->)]; [discriminate|].
  cbn [Z.eqb] in E.
  assert (Hseek : Z.to_nat (to_long (data_section_offset_ w)) = dso).
  { apply to_long_nonneg in Ho as (-> & _). unfold wrap64, dso.
    rewrite Z.mod_small; lia. }
  rewrite Hseek in E.
  apply bind_Ret in E as (w0 & w0' & E0 & E). inversion E0; subst w0 w0'; clear E0.
  apply bind_Ret in E as ([ok cpu_map] & w2 & E2 & E).
  destruct ok; [|discriminate]. cbn [negb] in E.
  pose proof (keeps_partition_loop event_attr_ _ _ _ _ _ _ E2) as Ka2.
  eapply (partition_loop_true a rs pre post Hwf Hsize _ [] rs) in E2
    as (Hpart & Hfp2);
    [ | reflexivity | reflexivity | exact Hdss
      | simpl; rewrite Hdata, Hpre; f_equal; unfold bytes_of; simpl; lia
      | reflexivity | intros cpu; apply lookup_empty ].
  apply bind_Ret in E as (rc & w3 & E3 & E).
  apply on_record_fp_fseek_Ret in E3 as [->|(-> & _ & _ & ->)]; [discriminate|].
  cbn [Z.eqb data_section_offset_ set_record_fp set_io_faults] in E.
  simpl in Ka2.
  rewrite Hseek, Hfp2 in E. cbn [f_data] in E.
  apply bind_Ret in E as ([[ok cpu_map'] cache] & w4 & E4 & E).
  destruct ok; [|discriminate]. cbn [negb] in E.
  pose proof (keeps_push_first_loop main_view _ _ _ _ _ _ E4) as K4.
  unfold main_view in K4. simpl in K4. injection K4 as Kf4 Ka4 _.
  eapply (push_first_loop_true a rs pre post Hwf Hsize _ []) in E4;
    [ | simpl; exact Ka2 | apply NoDup_fst_map_to_list
      | intros cpu cd Hin; apply elem_of_map_to_list; exact Hin
      | intros cpu _ Hin; inversion Hin
      | split; [intros cpu Hin; inversion Hin
               | intros cpu _; split; [reflexivity | apply Hpart]] ].
  simpl in E4.
  apply (first_pushed_merging a rs cpu_map cpu_map' cache Hpart) in E4.
  eapply (merge_loop_true a rs pre post Hwf Hsize Hss _ _ _ []) in E
    as (out & Hlanes & _ & Hfp);
    [ | unfold a; congruence | exact E4 | ].
  2:{ rewrite Kf4. unfold merged_stream. simpl. rewrite !app_nil_r, Hpre. reflexivity. }
  exists out. split; [apply (same_lanes_perm a); exact Hlanes | exact Hfp].
Qed.

(** X16. A successful [SortDataSection] on a data section that ends the
    stream (well-formed records, every lane in time order) leaves the data
    section ending the stream and the stream standing at its end, as it
    stood, so that records and the feature header can follow the sort as they
    follow the records. The stream has the length it had. *)
Theorem SortDataSection_keeps_stream_end (w w' : RecordFileWriter) (rs : list record) :
  IsTimestampSupported (event_attr_ w) = true ->
  IsCpuSupported (event_attr_ w) = true ->
  Forall well_formed rs ->
  (forall cpu, Sorted (time_le (event_attr_ w)) (lane (event_attr_ w) cpu rs)) ->
  0 <= data_section_offset_ w <= Z.of_nat (length (f_data (record_fp_ w))) ->
  Z.of_nat (length (f_data (record_fp_ w))) < 2 ^ 63 ->
  data_section_size_ w = Z.of_nat (length (bytes_of rs)) ->
  data_section w = bytes_of rs ->
  data_ends_stream w ->
  SortDataSection w = Ret true w' ->
  data_ends_stream w' /\
  length (f_data (record_fp_ w')) = length (f_data (record_fp_ w)).
Proof.
  intros Hts Hcpu Hwf Hsorted Hdso Hoff Hdss Hsec (Hpos & Hend) E.
  pose proof (keeps_SortDataSection data_section_size_ _ _ _ E) as Kdss.
  pose proof (keeps_SortDataSection data_section_offset_ _ _ _ E) as Kdso.
  destruct (SortDataSection_merged w w' rs Hts Hcpu Hwf Hsorted Hdso Hoff Hdss Hsec E)
    as (out & Hperm & Hfp).
  apply bytes_of_perm in Hperm.
  assert (Hsl : length (data_section w) = length (bytes_of rs)) by (rewrite Hsec; reflexivity).
  unfold data_section in Hsl. rewrite length_take, length_drop in Hsl.
  assert (Hlen : Z.of_nat (length (f_data (record_fp_ w)))
                 = data_section_offset_ w + data_section_size_ w).
  { unfold wrap64 in Hend. rewrite !Z.mod_small in Hend by lia. lia. }
  assert (Hl' : length (f_data (record_fp_ w')) = length (f_data (record_fp_ w))).
  { rewrite Hfp. unfold merged_stream. cbn [f_data].
    rewrite !length_app, length_drop, length_app, length_take, length_drop. lia. }
  split; [|exact Hl'].
  unfold data_ends_stream. rewrite Kdss, Kdso, Hl'. split; [|exact Hend].
  rewrite <- Hl'. rewrite Hfp. unfold merged_stream. cbn [f_data f_pos].
  rewrite !length_app, length_drop, length_app, length_take, length_drop. lia.
Qed.

(** ** The feature section *)

Lemma feature_descriptors_length cs : forall start,
  length (feature_descriptors start cs) = (16 * length cs)%nat.
Proof.
  induction cs as [|c cs IH]; intros start; [reflexivity|].
  cbn [feature_descriptors]. rewrite length_app, IH, SectionDesc_bytes_length.
  simpl length. lia.
Qed.

Lemma feature_payloads_app l1 l2 :
  feature_payloads (l1 ++ l2) = feature_payloads l1 ++ feature_payloads l2.
Proof. unfold feature_payloads. rewrite fmap_app, concat_app. reflexivity. Qed.

Lemma feature_descriptors_snoc done c : forall start,
  feature_descriptors start (done ++ [c])
  = feature_descriptors start done
    ++ SectionDesc_bytes
         (mkSectionDesc (start + Z.of_nat (length (feature_payloads done)))
            (Z.of_nat (length (feature_payload c)))).
Proof.
  induction done as [|d done IH]; intros start.
  - cbn [app feature_descriptors]. rewrite app_nil_r.
    change (feature_payloads []) with (@nil byte). simpl length.
    rewrite Z.add_0_r. reflexivity.
  - cbn [app feature_descriptors]. rewrite IH, <- app_assoc.
    unfold feature_payloads at 2. rewrite fmap_cons. cbn [concat].
    fold (feature_payloads done). rewrite length_app.
    do 4 f_equal. lia.
Qed.

(** Feature writes that all return [true], made when [done] have been made
    and [length cs + k] slots of the table are free. *)
Lemma feature_writes_layout D : forall cs done k T w1 bs w',
  T = Z.of_nat (length D + 16 * (length done + length cs + k)) ->
  T < 2 ^ 63 ->
  f_data (record_fp_ w1)
  = D ++ feature_descriptors T done ++ replicate (16 * (length cs + k)) x00
    ++ feature_payloads done ->
  wrap64 (data_section_offset_ w1 + data_section_size_ w1) = Z.of_nat (length D) ->
  current_feature_index_ w1 = Z.of_nat (length done) ->
  Forall (fun c => is_feature_write c = true) cs ->
  Forall payload_fits cs ->
  perform_all cs w1 = Ret bs w' ->
  Forall (fun b => b = true) bs ->
  f_data (record_fp_ w')
  = D ++ feature_descriptors T (done ++ cs) ++ replicate (16 * k) x00
    ++ feature_payloads (done ++ cs) /\
  feature_table w'
  = (feature_count_ w1, Z.of_nat (length (done ++ cs)),
     features_ w1 ++ (feature_of <$> cs)).
Proof.
  induction cs as [|c cs IH]; intros done k T w1 bs w' HT Hlt HD Htab Hidx Hcs Hfit E Hbs.
  - simpl in E. inversion E; subst w' bs. rewrite !app_nil_r.
    change (length (@nil call) + k)%nat with k in HD.
    split; [exact HD|]. unfold feature_table. rewrite Hidx. reflexivity.
  - simpl in E. apply bind_Ret in E as (b & w2 & E1 & E).
    apply bind_Ret in E as (bs' & w3 & E2 & E). inversion E; subst w3 bs; clear E.
    apply Forall_cons in Hbs as (-> & Hbs').
    apply Forall_cons in Hcs as (Hc & Hcs').
    apply Forall_cons in Hfit as (Hf & Hfit').
    pose proof (perform_records_feature c Hc _ _ _ E1) as Hbook.
    unfold bookkeeping in Hbook. inversion Hbook as [[Kc Ki Kf Ka Ks Ko Ke Kd]].
    assert (Hslot : table_slot w1 = Z.of_nat (length D + 16 * length done)).
    { unfold table_slot. rewrite Htab, Hidx. unfold sizeof_SectionDesc, wrap64.
      rewrite Z.mod_small; lia. }
    simpl length in *.
    set (D1 := f_data (record_fp_ w1)) in *.
    assert (HD1 : length D1 = (length D + 16 * (length done + S (length cs) + k)
                               + length (feature_payloads done))%nat).
    { rewrite HD, !length_app, feature_descriptors_length, length_replicate. lia. }
    apply perform_feature_payload in E1 as (feature & w1' & HD' & Hts & E1);
      [ | exact Hc | exact Hf].
    fold D1 in HD', E1.
    apply (WriteFeatureEnd_stream feature w1' w2 D1 (feature_payload c)) in E1;
      [ | exact HD' | rewrite Hts, Hslot, HD1; unfold sizeof_SectionDesc; lia].
    rewrite Hts, Hslot, Nat2Z.id in E1.
    assert (Htake : take (length D + 16 * length done) D1 = D ++ feature_descriptors T done).
    { rewrite HD, app_assoc. apply take_app_length'.
      rewrite length_app, feature_descriptors_length. reflexivity. }
    assert (Hdrop : drop (length D + 16 * length done + 16) D1
                    = replicate (16 * (length cs + k)) x00 ++ feature_payloads done).
    { rewrite HD, app_assoc.
      rewrite <- drop_drop, drop_app_length'
        by (rewrite length_app, feature_descriptors_length; reflexivity).
      replace (16 * (S (length cs) + k))%nat with (16 + 16 * (length cs + k))%nat by lia.
      rewrite replicate_add, <- app_assoc.
      apply drop_app_length'. symmetry. apply length_replicate. }
    rewrite Htake, Hdrop in E1.
    destruct (IH (done ++ [c]) k T w2 bs' w') as (Hdata & Htable); try assumption.
    + rewrite HT, length_app. simpl length. f_equal. lia.
    + rewrite E1, feature_descriptors_snoc, feature_payloads_app, <- !app_assoc.
      do 2 f_equal. rewrite HD1, HT.
      replace (Z.of_nat (length D + 16 * (length done + S (length cs) + k)
                         + length (feature_payloads done)))
        with (Z.of_nat (length D + 16 * (length done + S (length cs) + k))
              + Z.of_nat (length (feature_payloads done))) by lia.
      f_equal. f_equal. unfold feature_payloads at 3. simpl. rewrite app_nil_r.
      reflexivity.
    + unfold layout in *. rewrite Kd, Ko. exact Htab.
    + rewrite Ki, Hidx, length_app. simpl length. unfold wrap64.
      rewrite Z.mod_small; lia.
    + rewrite <- app_assoc in Hdata, Htable. simpl app in Hdata, Htable.
      split; [exact Hdata|]. rewrite Htable, Kc, Kf, <- app_assoc. reflexivity.
Qed.

(** X17. After a successful [WriteFeatureHeader n] behind a data section
    that ends the stream, feature writes within the count that all return
    [true] leave the stream as it was up to the end of the data section,
    followed by the table and the payloads: the table holds the descriptors of
    the features in the order of the writes and zeroed slots for the features
    not written, every descriptor has the offset and the size of the payload
    of its feature, and the payloads follow the table in the same order
    without gaps. [features_] has grown by the features in that order. *)
Theorem feature_section_layout (n : Z) (w w0 w' : RecordFileWriter)
    (cs : list call) (bs : list bool) :
  data_ends_stream w ->
  0 <= n ->
  Z.of_nat (length (f_data (record_fp_ w))) + 16 * n < 2 ^ 63 ->
  WriteFeatureHeader n w = Ret true w0 ->
  Forall (fun c => is_feature_write c = true) cs ->
  Forall payload_fits cs ->
  Z.of_nat (length cs) <= n ->
  perform_all cs w0 = Ret bs w' ->
  Forall (fun b => b = true) bs ->
  let D := f_data (record_fp_ w) in
  f_data (record_fp_ w')
  = D ++ feature_descriptors (Z.of_nat (length D) + 16 * n) cs
    ++ replicate (16 * (Z.to_nat n - length cs)) x00
    ++ feature_payloads cs /\
  features_ w' = features_ w ++ (feature_of <$> cs) /\
  current_feature_index_ w' = Z.of_nat (length cs).
Proof.
  intros (Hpos & Hend) Hn Hlt E0 Hcs Hfit Hlen E Hbs D.
  assert (Kf : keeps features_ (WriteFeatureHeader n))
    by (unfold WriteFeatureHeader; repeat keeps_step).
  apply Kf in E0 as Kf0.
  apply WriteFeatureHeader_true in E0 as (_ & Hfp & Hl & Hs & Hc & Hi).
  unfold layout in Hl. injection Hl as _ _ Ho _.
  assert (Htable : wrap64 (data_section_offset_ w + data_section_size_ w)
                   = Z.of_nat (length D)).
  { rewrite Hend. unfold wrap64. apply Z.mod_small. unfold D. lia. }
  rewrite Htable, Nat2Z.id in Hfp. unfold D in Hfp. rewrite file_write_append in Hfp.
  fold D in Hfp.
  assert (Hsz : Z.to_nat (wrap64 (n * sizeof_SectionDesc)) = (16 * Z.to_nat n)%nat).
  { unfold wrap64, sizeof_SectionDesc. rewrite Z.mod_small; lia. }
  rewrite Hsz in Hfp.
  destruct (feature_writes_layout D cs [] (Z.to_nat n - length cs)
              (Z.of_nat (length D) + 16 * n) w0 bs w') as (Hdata & Htab);
    try assumption.
  - change (length (@nil call)) with 0%nat. lia.
  - rewrite Hfp. change (feature_payloads []) with (@nil byte).
    cbn [f_data feature_descriptors app]. rewrite app_nil_r. do 2 f_equal. lia.
  - rewrite Ho, Hs. exact Htable.
  - split; [exact Hdata|]. unfold feature_table in Htab. simpl app in Htab.
    injection Htab as _ Hidx Hfs. rewrite Hfs, Kf0. split; [reflexivity | exact Hidx].
Qed.

(** ** The records in the data section *)

Lemma WriteRecord_small_quiet r w :
  quiet w -> size r <= RECORD_SIZE_LIMIT ->
  f_pos (record_fp_ w) = length (f_data (record_fp_ w)) ->
  0 <= data_section_size_ w < 2 ^ 64 ->
  exists w',
    WriteRecord r w = Ret true w' /\ quiet w' /\
    record_fp_ w' = mkFILE (f_data (record_fp_ w) ++ Binary r)
                      (length (f_data (record_fp_ w) ++ Binary r)) /\
    data_section_size_ w' = wrap64 (data_section_size_ w + size r) /\
    layout w' = layout w.
Proof.
  intros Hq Hsmall Hend Hdss. unfold WriteRecord.
  destruct (size r <=? RECORD_SIZE_LIMIT) eqn:L; [|lia].
  destruct (decide (length (Binary r) = 0%nat)) as [Hz|Hnz].
  - unfold size. destruct (Binary r) eqn:Hb; [|discriminate].
    exists w. rewrite bind_unfold. unfold WriteData.
    rewrite bind_unfold, Write_nil. simpl.
    rewrite app_nil_r, <- Hend, Z.add_0_r. unfold wrap64.
    rewrite Z.mod_small by exact Hdss.
    repeat split; auto. destruct (record_fp_ w); reflexivity.
  - rewrite bind_unfold, WriteData_quiet by assumption.
    eexists. split; [reflexivity|]. split; [exact Hq|].
    cbn [record_fp_ data_section_size_ set_data_section_size set_record_fp].
    split; [|split; reflexivity].
    destruct (record_fp_ w) as [d p] eqn:Hf. simpl in Hend. subst p.
    apply file_write_append.
Qed.

Lemma records_written (pre : list byte) rs : forall done w,
  quiet w ->
  Forall (fun r => size r <= RECORD_SIZE_LIMIT) rs ->
  record_fp_ w = mkFILE (pre ++ bytes_of done) (length (pre ++ bytes_of done)) ->
  data_section_size_ w = Z.of_nat (length (bytes_of done)) ->
  Z.of_nat (length (bytes_of (done ++ rs))) < 2 ^ 64 ->
  exists w',
    perform_all (CallWriteRecord <$> rs) w = Ret (replicate (length rs) true) w' /\
    quiet w' /\
    record_fp_ w' = mkFILE (pre ++ bytes_of (done ++ rs))
                      (length (pre ++ bytes_of (done ++ rs))) /\
    data_section_size_ w' = Z.of_nat (length (bytes_of (done ++ rs))) /\
    layout w' = layout w.
Proof.
  induction rs as [|r rs IH]; intros done w Hq Hsmall Hfp Hdss Hfit.
  - exists w. rewrite app_nil_r. simpl. auto.
  - apply Forall_cons in Hsmall as (Hr & Hrs).
    rewrite bytes_of_app, bytes_of_cons, !length_app in Hfit.
    destruct (WriteRecord_small_quiet r w Hq Hr) as (w1 & E1 & Hq1 & Hfp1 & Hdss1 & Hl1).
    { rewrite Hfp. reflexivity. }
    { rewrite Hdss. lia. }
    rewrite Hfp in Hfp1. cbn [f_data] in Hfp1.
    rewrite <- app_assoc, <- bytes_of_snoc in Hfp1.
    destruct (IH (done ++ [r]) w1 Hq1 Hrs Hfp1) as (w' & E & Hq' & Hfp' & Hdss' & Hl').
    + rewrite Hdss1, Hdss, bytes_of_snoc, length_app. unfold size, wrap64.
      rewrite Z.mod_small; lia.
    + rewrite <- app_assoc. simpl app.
      rewrite bytes_of_app, bytes_of_cons, !length_app. lia.
    + exists w'. rewrite <- app_assoc in Hfp', Hdss'. simpl app in Hfp', Hdss'.
      rewrite fmap_cons. cbn [perform_all perform length replicate].
      rewrite bind_unfold, E1, bind_unfold, E. simpl.
      repeat split; auto. congruence.
Qed.

(** X18. With no I/O fault, writing records of at most 65535 bytes one
    after the other, behind a data section that is empty and ends the stream,
    always succeeds and leaves a data section that holds exactly the bytes of
    those records, in their order: [data_section_size_] is their number, the
    section offsets are as they were, and the data section again ends the
    stream. *)
Theorem data_section_holds_records (w : RecordFileWriter) (rs : list record) :
  quiet w ->
  data_ends_stream w ->
  data_section_size_ w = 0 ->
  0 <= data_section_offset_ w < 2 ^ 64 ->
  Z.of_nat (length (f_data (record_fp_ w))) + Z.of_nat (length (bytes_of rs)) < 2 ^ 63 ->
  Forall (fun r => size r <= RECORD_SIZE_LIMIT) rs ->
  exists w',
    perform_all (CallWriteRecord <$> rs) w = Ret (replicate (length rs) true) w' /\
    quiet w' /\
    data_section w' = bytes_of rs /\
    data_section_size_ w' = Z.of_nat (length (bytes_of rs)) /\
    layout w' = layout w /\
    f_data (record_fp_ w') = f_data (record_fp_ w) ++ bytes_of rs /\
    data_ends_stream w'.
Proof.
  intros Hq (Hpos & Hend) Hdss Hdso Hfit Hsmall.
  assert (Hlen : data_section_offset_ w = Z.of_nat (length (f_data (record_fp_ w)))).
  { rewrite Hdss, Z.add_0_r in Hend. unfold wrap64 in Hend.
    rewrite !Z.mod_small in Hend by lia. exact Hend. }
  destruct (records_written (f_data (record_fp_ w)) rs [] w Hq Hsmall)
    as (w' & E & Hq' & Hfp' & Hdss' & Hl').
  - unfold bytes_of. simpl. rewrite app_nil_r, <- Hpos.
    destruct (record_fp_ w); reflexivity.
  - rewrite Hdss. reflexivity.
  - simpl app. lia.
  - simpl app in Hfp', Hdss'.
    pose proof Hl' as Hl''. unfold layout in Hl''. injection Hl'' as _ _ Ko _.
    exists w'. split; [exact E|]. split; [exact Hq'|].
    split; [|split; [exact Hdss'|split; [exact Hl'|split]]].
    + unfold data_section. rewrite Hfp', Hdss', Ko, Hlen, !Nat2Z.id. cbn [f_data].
      rewrite drop_app_length. apply take_ge. lia.
    + rewrite Hfp'. reflexivity.
    + unfold data_ends_stream. rewrite Hfp', Hdss', Ko, Hlen. cbn [f_data f_pos].
      split; [reflexivity|]. rewrite length_app. f_equal. lia.
Qed.

Lemma has_returned_eq {A} (o : outcome A) (d : A) (w : RecordFileWriter) :
  has_returned o = true -> o = Ret (result_after o d) (writer_after o w).
Proof. destruct o; [reflexivity | discriminate | discriminate]. Qed.

Lemma has_returned_bool_eq (b : bool) (o : outcome bool) (w : RecordFileWriter) :
  has_returned_bool b o = true -> o = Ret b (writer_after o w).
Proof.
  destruct o as [b' w'| |]; simpl; [|discriminate|discriminate].
  intros Hb. apply eqb_prop in Hb. subst. reflexivity.
Qed.

End Facts.

(** * Concrete runs *)

Import PerfData.
Import PerfDataHeader.

Lemma SortDataSection_skip_witness :
  SortDataSection (writer_with (mkAttr true false) lanes []) =
  Ret true (writer_with (mkAttr true false) lanes []).
Proof. apply SortDataSection_skip. right. reflexivity. Defined.

Lemma SortDataSection_keeps_data_section_size_witness :
  data_section_size_
    (writer_after (SortDataSection (writer_with both lanes [])) (writer_with both lanes []))
  = data_section_size_ (writer_with both lanes []).
Proof.
  apply (proj2 (SortDataSection_keeps_data_section_size (writer_with both lanes []))
           (result_after (SortDataSection (writer_with both lanes [])) true)).
  apply has_returned_eq. vm_compute. reflexivity.
Defined.

(** C2, at a failing input. The environment fails the one [fwrite] of a
    record of ten bytes: [Write] reports the failure and leaves the stream and
    [data_section_size_] as they were, and [WriteRecord] returns [true]. *)
Theorem WriteRecord_reports_success_on_failed_write :
  Write (Binary (sample 0 1)) (writer_with both [] [true])
    = Ret false (writer_with both [] []) /\
  WriteRecord (sample 0 1) (writer_with both [] [true])
    = Ret true (writer_with both [] []).
Proof. split; reflexivity. Qed.

Lemma lanes_well_formed : Forall well_formed lanes.
Proof.
  unfold lanes. repeat constructor; try (vm_compute; lia); vm_compute; reflexivity.
Qed.

Lemma lanes_sorted_by_cpu cpu : Sorted (time_le both) (lane both cpu lanes).
Proof.
  destruct (decide (cpu = 0)) as [->|H0];
    [repeat constructor; vm_compute; discriminate|].
  destruct (decide (cpu = 1)) as [->|H1];
    [repeat constructor; vm_compute; discriminate|].
  destruct (decide (cpu = 2)) as [->|H2];
    [repeat constructor; vm_compute; discriminate|].
  rewrite lane_none; [constructor|].
  intros x Hx. unfold lanes in Hx.
  repeat (apply elem_of_cons in Hx as [->|Hx]; [vm_compute; congruence|]).
  inversion Hx.
Qed.

Lemma SortDataSection_sorts_witness :
  exists rs',
    data_section (writer_after (SortDataSection (writer_with both lanes []))
                    (writer_with both lanes [])) = bytes_of rs' /\
    rs' ≡ₚ lanes /\ Sorted (time_le both) rs'.
Proof.
  destruct (SortDataSection_sorts (writer_with both lanes [])
              (writer_after (SortDataSection (writer_with both lanes []))
                 (writer_with both lanes []))
              lanes) as (_ & rs' & Hsec & Hperm & Hsorted & _).
  - reflexivity.
  - reflexivity.
  - exact lanes_well_formed.
  - exact lanes_sorted_by_cpu.
  - vm_compute. split; discriminate.
  - vm_compute. reflexivity.
  - vm_compute. reflexivity.
  - vm_compute. reflexivity.
  - apply has_returned_bool_eq. vm_compute. reflexivity.
  - exists rs'. auto.
Defined.

Lemma WriteRecord_split_witness :
  exists chunks : list (list byte),
    concat chunks = Binary oversized /\ length chunks = 2%nat.
Proof.
  destruct (WriteRecord_split oversized (writer_with both [] [])
              (writer_after (WriteRecord oversized (writer_with both [] []))
                 (writer_with both [] [])))
    as (chunks & _ & Hcat & _ & Hcount & _).
  - vm_compute. reflexivity.
  - vm_compute. split; reflexivity.
  - apply has_returned_bool_eq. vm_compute. reflexivity.
  - exists chunks. split; [exact Hcat|].
    assert (Hn : (size oversized + chunk_size - 1) / chunk_size = 2)
      by (vm_compute; reflexivity).
    lia.
Defined.

Lemma WriteRecord_data_section_size_witness :
  data_section_size_
    (writer_after (WriteRecord oversized (writer_with both [] [])) (writer_with both [] []))
  = 70032.
Proof.
  destruct (WriteRecord_data_section_size oversized (writer_with both [] [])
              (writer_after (WriteRecord oversized (writer_with both [] []))
                 (writer_with both [] []))) as (Hbig & _).
  - vm_compute. reflexivity.
  - vm_compute. reflexivity.
  - vm_compute. split; [discriminate | reflexivity].
  - apply has_returned_bool_eq. vm_compute. reflexivity.
  - rewrite Hbig by (vm_compute; reflexivity). vm_compute. reflexivity.
Defined.

Lemma sections_contiguous_witness :
  data_section_offset_ (writer_after (perform_all session (fresh [])) (fresh []))
  = attr_section_offset_ (writer_after (perform_all session (fresh [])) (fresh []))
    + attr_section_size_ (writer_after (perform_all session (fresh [])) (fresh [])) /\
  f_pos (record_fp_ (writer_after (WriteFeatureHeader 1 (writer_with both lanes []))
                       (writer_with both lanes [])))
  = (Z.to_nat (wrap64 (8 + 90)) + Z.to_nat (wrap64 (1 * sizeof_SectionDesc)))%nat.
Proof.
  split.
  - apply (proj1 (@sections_contiguous format) (mkFILE [] 0) both [] session
             (result_after (perform_all session (fresh [])) [])).
    apply has_returned_eq. vm_compute. reflexivity.
  - apply (proj2 (proj2 (@sections_contiguous format)) 1 (writer_with both lanes [])).
    apply has_returned_bool_eq. vm_compute. reflexivity.
Defined.

Lemma WriteAttrSection_failure_leaves_layout_witness :
  data_section_offset_ (writer_after (WriteAttrSection attrs (fresh [false; false; true]))
                          (fresh [false; false; true]))
  = data_section_offset_ (fresh [false; false; true]) /\
  event_attr_ (writer_after (WriteAttrSection attrs (fresh [])) (fresh [])) = both.
Proof.
  split.
  - apply (proj1 (proj2 (proj2 (@WriteAttrSection_failure_leaves_layout format)))
             attrs (fresh [false; false; true])).
    apply has_returned_bool_eq. vm_compute. reflexivity.
  - destruct (proj2 (proj2 (proj2 (@WriteAttrSection_failure_leaves_layout format)))
                attrs (fresh [])
                (writer_after (WriteAttrSection attrs (fresh [])) (fresh [])))
      as (_ & first & Hfirst & Hattr).
    + apply has_returned_bool_eq. vm_compute. reflexivity.
    + rewrite Hattr. injection Hfirst as <-. reflexivity.
Defined.

Lemma feature_count_is_checked_witness :
  perform CallWriteBranchStackFeature
    (writer_after (perform_all [CallWriteBranchStackFeature]
                     (writer_after (WriteFeatureHeader 1 (writer_with both lanes []))
                        (writer_with both lanes [])))
       (writer_with both lanes []))
  = Fatal /\
  exists bs w',
    perform_all [CallWriteBranchStackFeature]
      (writer_after (WriteFeatureHeader 1 (writer_with both lanes []))
         (writer_with both lanes [])) = Ret bs w'.
Proof.
  split.
  - apply (proj1 (proj2 (@feature_count_is_checked format)) 1 (writer_with both lanes []) true
             (writer_after (WriteFeatureHeader 1 (writer_with both lanes []))
                (writer_with both lanes []))
             [CallWriteBranchStackFeature]
             (result_after
                (perform_all [CallWriteBranchStackFeature]
                   (writer_after (WriteFeatureHeader 1 (writer_with both lanes []))
                      (writer_with both lanes [])))
                [])).
    + lia.
    + apply has_returned_bool_eq. vm_compute. reflexivity.
    + repeat constructor.
    + reflexivity.
    + apply has_returned_eq. vm_compute. reflexivity.
    + vm_compute. repeat constructor.
    + reflexivity.
  - apply (proj2 (proj2 (@feature_count_is_checked format)) 1 (writer_with both lanes []) true).
    + apply has_returned_bool_eq. vm_compute. reflexivity.
    + repeat constructor.
    + simpl. lia.
Defined.

Lemma WriteFeatureString_payload_witness :
  drop 34 (f_data (record_fp_ (writer_after (WriteFeatureString 3 "x86_64" with_table)
                                 with_table)))
  = uint32_bytes 64 ++ list_byte_of_string "x86_64" ++ replicate 58 x00.
Proof.
  apply (WriteFeatureString_payload 3 "x86_64" with_table).
  - vm_compute. reflexivity.
  - vm_compute. discriminate.
  - apply has_returned_bool_eq. vm_compute. reflexivity.
Defined.

(** ** Runs for the further properties *)

Lemma sample_well_formed cpu time : well_formed (sample cpu time).
Proof. split; [vm_compute; lia | reflexivity]. Qed.

Lemma ReadRecordFromFile_whole_record_witness :
  (exists f' w',
     ReadRecordFromFile (mkFILE [] 0) (fresh []) = Ret (None, f') w' /\ f_data f' = []) /\
  sample 0 1 = ReadRecordFromBuffer both 9 (Binary (sample 0 1)).
Proof.
  split.
  - apply (proj1 (@ReadRecordFromFile_whole_record format) (mkFILE [] 0) (fresh [])).
    vm_compute. lia.
  - destruct (proj2 (@ReadRecordFromFile_whole_record format)
                (mkFILE (Binary (sample 0 1)) 0) (fresh []) (sample 0 1)
                (mkFILE (Binary (sample 0 1)) 10) (fresh [])) as (_ & _ & Hr).
    + reflexivity.
    + exact Hr.
Defined.

Lemma WriteRecordToFile_ReadRecordFromFile_witness :
  ('(ok, f1) ← WriteRecordToFile (sample 0 1) (mkFILE [] 0);
   '(rc, f2) ← fseek f1 (Z.of_nat (f_pos (mkFILE [] 0)));
   ReadRecordFromFile f2) (fresh [])
  = Ret (Some (sample 0 1), file_write (mkFILE [] 0) (Binary (sample 0 1))) (fresh []).
Proof.
  apply WriteRecordToFile_ReadRecordFromFile.
  - reflexivity.
  - apply sample_well_formed.
  - simpl. lia.
Defined.

Lemma WriteAttrSection_needs_ids_witness :
  exists w', WriteAttrSection [@mkEventAttrWithId format both []] (fresh []) = Ret false w'.
Proof.
  apply WriteAttrSection_needs_ids.
  exists (@mkEventAttrWithId format both []). split; [left | reflexivity].
Defined.

Lemma WriteAttrSection_layout_witness :
  take 16 (drop 104 (f_data (record_fp_
     (writer_after (WriteAttrSection attrs (fresh [])) (fresh [])))))
  = uint64_bytes 1 ++ uint64_bytes 2 /\
  take 18 (drop 120 (f_data (record_fp_
     (writer_after (WriteAttrSection attrs (fresh [])) (fresh [])))))
  = FileAttr_bytes both (mkSectionDesc 104 16).
Proof.
  destruct (@WriteAttrSection_layout format attrs [] []
              (@mkEventAttrWithId format both [1; 2]) (fresh [])
              (writer_after (WriteAttrSection attrs (fresh [])) (fresh [])))
    as (Haso & _ & _ & _ & Hids & Hrec).
  - apply has_returned_bool_eq. vm_compute. reflexivity.
  - reflexivity.
  - split; [exact Hids|]. rewrite Haso in Hrec. exact Hrec.
Defined.

Lemma recorded_ends_stream env : data_ends_stream (recorded env).
Proof. split; vm_compute; reflexivity. Qed.


Lemma WriteFeatureHeader_appends_witness :
  f_data (record_fp_ (writer_after (WriteFeatureHeader 3 (recorded [])) (recorded [])))
  = f_data (record_fp_ (recorded [])) ++ replicate 48 x00.
Proof.
  apply (@WriteFeatureHeader_appends format 3 (recorded [])).
  - apply recorded_ends_stream.
  - vm_compute. reflexivity.
  - apply has_returned_bool_eq. vm_compute. reflexivity.
Defined.

Lemma WriteRecord_quiet_witness :
  exists w' written,
    WriteRecord (sample 0 9) (recorded []) = Ret true w' /\
    f_data (record_fp_ w') = f_data (record_fp_ (recorded [])) ++ written /\
    written = Binary (sample 0 9).
Proof.
  destruct (proj2 (@WriteRecord_quiet format (sample 0 9) (recorded [])))
    as (w' & written & E & _ & Hdata & Hsmall & _).
  - reflexivity.
  - vm_compute. lia.
  - vm_compute. reflexivity.
  - vm_compute. reflexivity.
  - left. vm_compute. discriminate.
  - reflexivity.
  - exists w', written. split; [exact E|]. split; [exact Hdata|].
    apply Hsmall. vm_compute. discriminate.
Defined.

Lemma feature_write_bookkeeping_witness :
  features_ (writer_after (WriteBranchStackFeature with_table) with_table) = [15].
Proof.
  apply (@feature_write_bookkeeping format CallWriteBranchStackFeature with_table
           (writer_after (WriteBranchStackFeature with_table) with_table) true).
  - reflexivity.
  - apply has_returned_bool_eq. vm_compute. reflexivity.
Defined.


Lemma feature_write_stream_witness :
  drop 34 (f_data (record_fp_
     (writer_after (WriteCmdlineFeature ["perf"%string; "record"%string] with_table)
        with_table)))
  = uint32_bytes 2 ++ args_image ["perf"%string; "record"%string] /\
  take 16 (drop 18 (f_data (record_fp_
     (writer_after (WriteCmdlineFeature ["perf"%string; "record"%string] with_table)
        with_table))))
  = SectionDesc_bytes (mkSectionDesc 34 140).
Proof.
  pose proof (@feature_write_stream format
                (CallWriteCmdlineFeature ["perf"%string; "record"%string]) with_table
                (writer_after (WriteCmdlineFeature ["perf"%string; "record"%string] with_table)
                   with_table)) as Hs.
  cbv zeta in Hs. rewrite Hs.
  - split; reflexivity.
  - reflexivity.
  - split; [vm_compute; reflexivity | repeat constructor].
  - vm_compute. discriminate.
  - apply has_returned_bool_eq. vm_compute. reflexivity.
Defined.

Lemma WriteFileHeader_writes_header_witness :
  exists header,
    build_header with_features = Some header /\
    PerfFileFormat.features header = [4; 128] ++ replicate 30 0 /\
    feature_bit (PerfFileFormat.features header) 15 = true /\
    feature_bit (PerfFileFormat.features header) 11 = false.
Proof.
  destruct (proj1 (@WriteFileHeader_writes_header format header_format with_features)
              (writer_after (WriteFileHeader with_features) with_features))
    as (header & Hb & _ & _ & _ & _ & _ & _ & _ & _ & _ & Hbits).
  - apply has_returned_bool_eq. vm_compute. reflexivity.
  - exists header. split; [exact Hb|]. split.
    + vm_compute in Hb. injection Hb as <-. reflexivity.
    + rewrite !Hbits by lia. split; reflexivity.
Defined.

Lemma Close_once_witness :
  Close false (writer_after (Close true with_features) with_features) = Fatal /\
  exists header,
    build_header with_features = Some header /\
    take 104 (f_data (record_fp_ (writer_after (Close true with_features) with_features)))
    = header_image header.
Proof.
  destruct (proj2 (proj2 (@Close_once format header_format with_features)) true false
              (writer_after (Close true with_features) with_features))
    as (_ & Hfatal & _ & _ & ok & w1 & rc & _ & _ & Hres).
  - apply has_returned_eq with (d := (true, false)). vm_compute. reflexivity.
  - split; [exact Hfatal|]. destruct (Hres eq_refl) as (_ & _ & Hheader). exact Hheader.
Defined.

Lemma SortDataSection_succeeds_witness :
  exists w', SortDataSection (writer_with both lanes []) = Ret true w' /\ quiet w'.
Proof.
  apply (@SortDataSection_succeeds format (writer_with both lanes []) lanes).
  - reflexivity.
  - reflexivity.
  - reflexivity.
  - exact lanes_well_formed.
  - exact lanes_sorted_by_cpu.
  - vm_compute. split; discriminate.
  - vm_compute. reflexivity.
  - vm_compute. reflexivity.
  - vm_compute. reflexivity.
Defined.

Lemma SortDataSection_truncated_witness :
  exists w',
    SortDataSection (@mkWriter format (mkFILE (replicate 8 x00) 0) 0 8 8 10 both 0 0 [] []) = Ret false w' /\
    f_data (record_fp_ w') = replicate 8 x00.
Proof.
  apply (@SortDataSection_truncated format
           (@mkWriter format (mkFILE (replicate 8 x00) 0) 0 8 8 10 both 0 0 [] [])).
  - reflexivity.
  - reflexivity.
  - simpl. lia.
  - vm_compute. lia.
Defined.

Lemma fields_change_only_where_assigned_witness :
  feature_table (writer_after (WriteFeatureHeader 1 with_features) with_features)
  = (1, 0, [2; 15]).
Proof.
  apply (@fields_change_only_where_assigned format (CallWriteFeatureHeader 1) with_features
           (writer_after (WriteFeatureHeader 1 with_features) with_features) true).
  apply has_returned_bool_eq. vm_compute. reflexivity.
Defined.

Lemma recorded_data_section env : data_section (recorded env) = bytes_of lanes.
Proof. vm_compute. reflexivity. Qed.

Lemma SortDataSection_keeps_stream_end_witness :
  data_ends_stream (writer_after (SortDataSection (recorded [])) (recorded [])).
Proof.
  apply (@SortDataSection_keeps_stream_end format (recorded [])
           (writer_after (SortDataSection (recorded [])) (recorded [])) lanes).
  - reflexivity.
  - reflexivity.
  - exact lanes_well_formed.
  - exact lanes_sorted_by_cpu.
  - vm_compute. split; discriminate.
  - vm_compute. reflexivity.
  - vm_compute. reflexivity.
  - apply recorded_data_section.
  - apply recorded_ends_stream.
  - apply has_returned_bool_eq. vm_compute. reflexivity.
Defined.

Lemma feature_section_layout_witness :
  f_data (record_fp_
    (writer_after
       (perform_all feature_calls
          (writer_after (WriteFeatureHeader 3 (recorded [])) (recorded [])))
       (recorded [])))
  = f_data (record_fp_ (recorded []))
    ++ feature_descriptors (228 + 16 * 3) feature_calls
    ++ replicate 0 x00 ++ feature_payloads feature_calls.
Proof.
  apply (@feature_section_layout format 3 (recorded [])
           (writer_after (WriteFeatureHeader 3 (recorded [])) (recorded []))
           (writer_after
              (perform_all feature_calls
                 (writer_after (WriteFeatureHeader 3 (recorded [])) (recorded [])))
              (recorded []))
           feature_calls
           (result_after
              (perform_all feature_calls
                 (writer_after (WriteFeatureHeader 3 (recorded [])) (recorded [])))
              [])).
  - apply recorded_ends_stream.
  - lia.
  - vm_compute. reflexivity.
  - apply has_returned_bool_eq. vm_compute. reflexivity.
  - repeat constructor.
  - repeat constructor; vm_compute; reflexivity.
  - simpl. lia.
  - apply has_returned_eq. vm_compute. reflexivity.
  - vm_compute. repeat constructor.
Defined.

Lemma data_section_holds_records_witness :
  exists w',
    perform_all (CallWriteRecord <$> lanes) with_attrs = Ret (replicate 9 true) w' /\
    data_section w' = bytes_of lanes.
Proof.
  destruct (@data_section_holds_records format with_attrs lanes)
    as (w' & E & _ & Hsec & _).
  - reflexivity.
  - split; vm_compute; reflexivity.
  - reflexivity.
  - vm_compute. split; [discriminate | reflexivity].
  - vm_compute. reflexivity.
  - repeat constructor; vm_compute; discriminate.
  - exists w'. split; [exact E | exact Hsec].
Defined.
